(** * Mindset_Streams: a shallow embedding of [file_import.py] and
    [mindset_streams.py], and the properties of the specification checked
    against it.

    Conventions of the embedding.
    - Python strings are modelled as [string] (byte strings); [str.lower] and
      the regular-expression class [\s] are modelled on the ASCII range.
    - A Python exception is a value of [exn]; a function that may raise
      returns a [result].
    - Python floats are modelled as rationals [Q]; coordinates and sums are
      stated as the expressions that the code evaluates, in its order of
      evaluation, since floating point rounds each operation.
    - A [dict] whose order is observable (the node and adjacency dictionaries
      of a networkx graph) is an association list in insertion order; the
      other dictionaries are [gmap]s.
    - The library functions the sources call ([np.select], [pd.DataFrame],
      the [nx] graph operations) are modelled in modules named after the
      library, from the behaviour of the libraries the package pins in
      [setup.py]. *)

From Stdlib Require Import Ascii String QArith Qround Lqa.
From stdpp Require Import base option list strings gmap.

#[local] Set Warnings "-clear-no-such-hyp".

Local Close Scope Q_scope.
Local Open Scope string_scope.
Local Open Scope list_scope.

(** ** Python values, exceptions and results *)

Inductive exn : Type :=
| ValueError
| IndexError
| KeyError
| TypeError
| AttributeError
| UnboundLocalError
| NodeNotFound
| NetworkXNoPath
| OutOfFuel.

Inductive result (A : Type) : Type :=
| Ok (a : A)
| Raise (e : exn).

Arguments Ok {A} a.
Arguments Raise {A} e.

#[global] Instance result_ret : MRet result := fun A a => Ok a.
#[global] Instance result_bind : MBind result :=
  fun A B f m => match m with Ok a => f a | Raise e => Raise e end.
#[global] Instance result_fmap : FMap result :=
  fun A B f m => match m with Ok a => Ok (f a) | Raise e => Raise e end.

#[global] Instance exn_eq_dec : EqDecision exn.
Proof. solve_decision. Defined.

Definition raises {A} (m : result A) : bool :=
  match m with Ok _ => false | Raise _ => true end.

(** [for x in l: ...] with a body that may raise. *)
Fixpoint for_each {A S} (body : S -> A -> result S) (l : list A) (s : S) : result S :=
  match l with
  | [] => Ok s
  | x :: l' => s' ← body s x; for_each body l' s'
  end.

(** [[f(x) for x in l]] with an [f] that may raise. *)
Fixpoint map_result {A B} (f : A -> result B) (l : list A) : result (list B) :=
  match l with
  | [] => Ok []
  | x :: l' => y ← f x; ys ← map_result f l'; Ok (y :: ys)
  end.

(** [l[i]] on a list: [IndexError] out of range. *)
Definition getitem {A} (l : list A) (i : nat) : result A :=
  match l !! i with Some x => Ok x | None => Raise IndexError end.

(** [d[k]] on a dictionary: [KeyError] on a missing key. *)
Definition dict_getitem `{Countable K} {V} (d : gmap K V) (k : K) : result V :=
  match d !! k with Some x => Ok x | None => Raise KeyError end.

(** [k in d]. *)
Definition dict_contains `{Countable K} {V} (d : gmap K V) (k : K) : bool :=
  bool_decide (is_Some (d !! k)).

(** [str.lower], on the ASCII range. *)
Definition lower_ascii (c : ascii) : ascii :=
  let n := nat_of_ascii c in
  if (65 <=? n)%nat && (n <=? 90)%nat then ascii_of_nat (n + 32) else c.

Fixpoint str_lower (s : string) : string :=
  match s with
  | EmptyString => EmptyString
  | String c s' => String (lower_ascii c) (str_lower s')
  end.

(** The class [\s] of Python's [re] on the ASCII range: tab, line feed,
    vertical tab, form feed, carriage return, the separators 28..31 and the
    space. *)
Definition is_space (c : ascii) : bool :=
  let n := nat_of_ascii c in
  ((9 <=? n)%nat && (n <=? 13)%nat) || ((28 <=? n)%nat && (n <=? 32)%nat).

Definition is_newline (c : ascii) : bool := (nat_of_ascii c =? 10)%nat.

(** [re.search("^C*$", s)] for a character class [C] that excludes the line
    feed: the class is matched from the start of the string, and [$] matches
    at the end of the string or just before a line feed that ends it. *)
Fixpoint search_anchored_star (cls : ascii -> bool) (s : string) : bool :=
  match s with
  | EmptyString => true
  | String c s' =>
      if cls c then search_anchored_star cls s'
      else is_newline c && bool_decide (s' = EmptyString)
  end.

(** Insertion-ordered dictionaries, as association lists. *)
Section odict.
Context {K V : Type} `{EqDecision K}.

Fixpoint od_get (d : list (K * V)) (k : K) : option V :=
  match d with
  | [] => None
  | (k', v) :: d' => if decide (k' = k) then Some v else od_get d' k
  end.

Definition od_mem (d : list (K * V)) (k : K) : bool :=
  bool_decide (is_Some (od_get d k)).

(** [d[k] = v]: a present key keeps its place, a new key goes last. *)
Fixpoint od_set (d : list (K * V)) (k : K) (v : V) : list (K * V) :=
  match d with
  | [] => [(k, v)]
  | (k', v') :: d' =>
      if decide (k' = k) then (k', v) :: d' else (k', v') :: od_set d' k v
  end.

(** [d[k] = f(d[k])] for a present key. *)
Fixpoint od_alter (f : V -> V) (d : list (K * V)) (k : K) : list (K * V) :=
  match d with
  | [] => []
  | (k', v') :: d' =>
      if decide (k' = k) then (k', f v') :: d' else (k', v') :: od_alter f d' k
  end.

Fixpoint od_del (d : list (K * V)) (k : K) : list (K * V) :=
  match d with
  | [] => []
  | (k', v') :: d' =>
      if decide (k' = k) then d' else (k', v') :: od_del d' k
  end.

End odict.

(** [round(x, ndigits)], half to even, on rationals. *)
Definition round_half_even (q : Q) : Z :=
  let f := Qfloor q in
  let r := (q - inject_Z f)%Q in
  match (r ?= 1 # 2)%Q with
  | Lt => f
  | Gt => (f + 1)%Z
  | Eq => if Z.even f then f else (f + 1)%Z
  end.

Definition py_round (q : Q) (ndigits : nat) : Q :=
  let s := inject_Z (10 ^ Z.of_nat ndigits) in
  Qred (inject_Z (round_half_even (q * s)%Q) / s)%Q.

(** [sum(l)]: the additions are done left to right, starting from [0]. *)
Definition py_sum (l : list Q) : Q := foldl Qplus 0%Q l.

(** ** file_import.py *)

(** A value decoded by [json.load]. An object is a Python [dict], held in
    insertion order. *)
#[warnings="-register-all"]
Inductive json : Type :=
| JNull
| JBool (b : bool)
| JNum (q : Q)
| JStr (s : string)
| JArr (l : list json)
| JObj (kvs : list (string * json)).

(** [list(d.values())] of a decoded object. *)
Definition dict_values (kvs : list (string * json)) : list json := kvs.*2.

(** The subschema [{"type": "string", "pattern": "^[^\\s]*$"}]. *)
Definition string_schema (v : json) : bool :=
  match v with
  | JStr s => search_anchored_star (fun c => negb (is_space c)) s
  | _ => false
  end.

(** A property name matches the pattern [^.*$] of [patternProperties]; [.]
    is every character but the line feed. A name that does not match is an
    additional property, which [additionalProperties: False] forbids. *)
Definition property_matches (k : string) : bool :=
  search_anchored_star (fun c => negb (is_newline c)) k.

(** [validate_json]: [jsonschema.validate] against [association_schema],
    [False] on a [ValidationError]. The instance must be an object; every
    property matched by [^.*$] must satisfy the only alternative of [anyOf],
    and no other property may occur. *)
Definition validate_json (json_data : json) : bool :=
  match json_data with
  | JObj kvs =>
      forallb (fun kv => property_matches kv.1 && string_schema kv.2) kvs
  | _ => false
  end.

(** The string carried by a value; [data.append(list(json_object.values()))]
    runs on validated objects only, whose values are all strings
    (lemma [validate_json_values]). *)
Definition str_values (json_object : json) : list string :=
  match json_object with
  | JObj kvs => omap (fun v => match v with JStr s => Some s | _ => None end) (dict_values kvs)
  | _ => []
  end.

Module pd.

(** [pd.DataFrame(data, columns=[c1, c2])] on a list of rows: no row gives the
    empty table; otherwise the rows are padded with [None] to the widest one,
    and a width other than the two column names is a [ValueError]. *)
Definition DataFrame (data : list (list string)) : result (list (option string * option string)) :=
  match data with
  | [] => Ok []
  | _ =>
      if decide (max_list (length <$> data) = 2)
      then Ok ((fun r => (r !! 0, r !! 1)) <$> data)
      else Raise ValueError
  end.

(** [x.astype(str).str.lower()] on a cell: [None] becomes ["None"] and a
    missing value (NaN) becomes ["nan"] before the lowering. *)
Definition str_lower_cell (none : string) (c : option string) : string :=
  str_lower (default none c).

End pd.

(** What a call of [file_to_df] that does not raise comes to: the table, or
    [None] after the message about the offending record was printed. *)
Inductive loaded : Type :=
| Table (df : list (string * string))
| Invalid (json_object : json).

(** The loop of [file_to_df]: the rows so far, or the first record that fails
    validation. *)
Fixpoint collect_rows (json_objects : list json) (data : list (list string))
  : list (list string) + json :=
  match json_objects with
  | [] => inl data
  | json_object :: rest =>
      if validate_json json_object
      then collect_rows rest (data ++ [str_values json_object])
      else inr json_object
  end.

(** [file_to_df], on the decoded array of the file. *)
Definition file_to_df (json_objects : list json) : result loaded :=
  match collect_rows json_objects [] with
  | inr json_object => Ok (Invalid json_object)
  | inl data =>
      df ← pd.DataFrame data;
      Ok (Table ((fun r => (pd.str_lower_cell "None" r.1, pd.str_lower_cell "None" r.2)) <$> df))
  end.

(** A row of the table after [attach_sentiment]. *)
Record row : Type := Row {
  word_1 : string;
  word_2 : string;
  word_1_valence : string;
  word_2_valence : string
}.

(** The loop that fills [valence_dict], on the decoded array of the valence
    file: an array of objects whose values are strings. *)
Definition valence_entry (valence_dict : gmap string string) (d : list (string * string))
  : result (gmap string string) :=
  k ← getitem d.*2 0;
  v ← getitem d.*2 1;
  Ok (<[k := v]> valence_dict).

(** [attach_sentiment]: [Series.map] leaves a missing value for a word that
    is no key of [valence_dict]. *)
Definition attach_sentiment (df : list (string * string))
    (json_objects : list (list (string * string))) : result (list row) :=
  valence_dict ← for_each valence_entry json_objects ∅;
  Ok ((fun r =>
         Row (pd.str_lower_cell "nan" (Some r.1))
             (pd.str_lower_cell "nan" (Some r.2))
             (pd.str_lower_cell "nan" (valence_dict !! r.1))
             (pd.str_lower_cell "nan" (valence_dict !! r.2))) <$> df).

(** ** mindset_streams.py: edge valence *)

Module np.

(** The choice of [np.select] at one row: the choice of the first condition
    that holds there, the default otherwise. *)
Fixpoint select_at (i : nat) (condlist : list (list bool)) (choicelist : list string)
    (default : string) : string :=
  match condlist, choicelist with
  | cond :: condlist', choice :: choicelist' =>
      if bool_decide (cond !! i = Some true) then choice
      else select_at i condlist' choicelist' default
  | _, _ => default
  end.

(** [np.select(condlist, choicelist)] over columns of [n] rows. The default
    is [0]; in an array of strings it reads ["0"]. *)
Definition select (n : nat) (condlist : list (list bool)) (choicelist : list string)
  : list string :=
  (fun i => select_at i condlist choicelist "0") <$> seq 0 n.

End np.

(** [column == value] and [&] on boolean columns. *)
Definition col_eq (column : list string) (value : string) : list bool :=
  (fun x => bool_decide (x = value)) <$> column.

Definition col_and (c1 c2 : list bool) : list bool := zip_with andb c1 c2.

(** A row of the table after [edge_valence]: the column ['edge valence'] is
    added. *)
Record erow : Type := ERow {
  erow_row :> row;
  edge_valence_of : string
}.

Definition conditions (df : list row) : list (list bool) :=
  let v1 := word_1_valence <$> df in
  let v2 := word_2_valence <$> df in
  [ col_and (col_eq v1 "neutral") (col_eq v2 "neutral");
    col_and (col_eq v1 "neutral") (col_eq v2 "positive");
    col_and (col_eq v1 "neutral") (col_eq v2 "negative");
    col_and (col_eq v1 "positive") (col_eq v2 "neutral");
    col_and (col_eq v1 "positive") (col_eq v2 "positive");
    col_and (col_eq v1 "positive") (col_eq v2 "negative");
    col_and (col_eq v1 "negative") (col_eq v2 "neutral");
    col_and (col_eq v1 "negative") (col_eq v2 "positive");
    col_and (col_eq v1 "negative") (col_eq v2 "negative") ].

Definition values : list string :=
  [ "neutral"; "neutral"; "neutral";
    "neutral"; "positive"; "conflicting";
    "neutral"; "conflicting"; "negative" ].

Definition edge_valence (df : list row) : list erow :=
  zip_with ERow df (np.select (length df) (conditions df) values).

(** The table of section 4.2 of the specification, as it is written there:
    rows are the first valence, columns the second. *)
Definition valence_table (v1 v2 : string) : option string :=
  if decide (v1 = "neutral") then
    if decide (v2 = "neutral") then Some "neutral"
    else if decide (v2 = "positive") then Some "neutral"
    else if decide (v2 = "negative") then Some "neutral" else None
  else if decide (v1 = "positive") then
    if decide (v2 = "neutral") then Some "neutral"
    else if decide (v2 = "positive") then Some "positive"
    else if decide (v2 = "negative") then Some "conflicting" else None
  else if decide (v1 = "negative") then
    if decide (v2 = "neutral") then Some "neutral"
    else if decide (v2 = "positive") then Some "conflicting"
    else if decide (v2 = "negative") then Some "negative" else None
  else None.

Definition categories : list string := [ "neutral"; "positive"; "negative" ].

(** ** networkx: the graph operations the sources call *)

Abbreviation attr_dict := (gmap string string).

Module nx.

(** [nx.Graph]: the node dictionary [_node] (node to attribute dictionary)
    and the adjacency dictionary [_adj] (node to neighbour to edge attribute
    dictionary), both in insertion order. *)
Record Graph : Type := MkGraph {
  _node : list (string * attr_dict);
  _adj : list (string * list (string * attr_dict))
}.

Definition empty_graph : Graph := MkGraph [] [].

(** [n in G]. *)
Definition has_node (G : Graph) (n : string) : bool := od_mem (_node G) n.

(** [list(G.nodes)]. *)
Definition nodes (G : Graph) : list string := (_node G).*1.

(** [G[v]]: the neighbours of [v], in the order of its adjacency
    dictionary. Every node of a graph has one, possibly empty. *)
Definition neighbors (G : Graph) (v : string) : list string :=
  (default [] (od_get (_adj G) v)).*1.

(** The first lines of [add_edge] and of the loop of [add_nodes_from]: a node
    that is new gets an empty adjacency and an empty attribute dictionary. *)
Definition ensure_node (G : Graph) (n : string) : Graph :=
  if od_mem (_node G) n then G
  else MkGraph (od_set (_node G) n ∅) (od_set (_adj G) n []).

(** [G.add_node(n, **attr)]; [dict.update] lets the new attributes win. *)
Definition add_node (G : Graph) (n : string) (attr : attr_dict) : Graph :=
  let G' := ensure_node G n in
  MkGraph (od_alter (fun dd => attr ∪ dd) (_node G') n) (_adj G').

(** [G.add_edge(u, v, **attr)]: the attribute dictionary of the edge is one
    object, stored under [_adj[u][v]] and [_adj[v][u]]. *)
Definition add_edge (G : Graph) (u v : string) (attr : attr_dict) : Graph :=
  let G' := ensure_node (ensure_node G u) v in
  let datadict :=
    attr ∪ default ∅ (od_get (default [] (od_get (_adj G') u)) v) in
  let adj1 := od_alter (fun nbrs => od_set nbrs v datadict) (_adj G') u in
  let adj2 := od_alter (fun nbrs => od_set nbrs u datadict) adj1 v in
  MkGraph (_node G') adj2.

Definition add_nodes_from (G : Graph) (ns : list (string * attr_dict)) : Graph :=
  foldl (fun G nd => add_node G nd.1 nd.2) G ns.

Definition add_edges_from (G : Graph) (es : list (string * string * attr_dict)) : Graph :=
  foldl (fun G e => add_edge G e.1.1 e.1.2 e.2) G es.

(** [nx.from_pandas_edgelist(df, 'word 1', 'word 2', edge_attr='edge valence')]:
    for each row [g.add_edge(s, t)] and then
    [g[s][t].update({'edge valence': ...})] on the shared dictionary of the
    edge. *)
Definition from_pandas_edgelist (df : list erow) : Graph :=
  foldl (fun g (r : erow) =>
           add_edge g (word_1 r) (word_2 r) {[ "edge valence" := edge_valence_of r ]})
        empty_graph df.

(** [G.nodes[n][key] = value] for a node of the graph. *)
Definition set_node_attr (G : Graph) (n key value : string) : Graph :=
  MkGraph (od_alter (fun dd => <[key := value]> dd) (_node G) n) (_adj G).

(** [G.edges(data=True)]: the adjacency is read node by node, and an edge to
    a node that was read before is not reported again. *)
Fixpoint edges_from (adj : list (string * list (string * attr_dict))) (seen : list string)
  : list (string * string * attr_dict) :=
  match adj with
  | [] => []
  | (n, nbrs) :: adj' =>
      ((fun nd => (n, nd.1, nd.2)) <$> filter (fun nd => nd.1 ∉ seen) nbrs)
        ++ edges_from adj' (n :: seen)
  end.

Definition edges (G : Graph) : list (string * string * attr_dict) :=
  edges_from (_adj G) [].

(** Every entry of the adjacency, both directions of an edge:
    [(u, v, data) for u, nbrs in G.adj.items() for v, data in nbrs.items()]. *)
Definition adjacency_entries (G : Graph) : list (string * string * attr_dict) :=
  flat_map (fun un => (fun vd => (un.1, vd.1, vd.2)) <$> un.2) (_adj G).

(** [G.subgraph(nbunch)]: the subgraph induced on the nodes of [nbunch]. The
    order in which the view enumerates its nodes is not fixed by the library
    (for a small [nbunch] it is the hash order of a set); the order of the
    graph is taken here, and no property below depends on it. *)
Definition subgraph (G : Graph) (nbunch : list string) : Graph :=
  MkGraph (filter (fun nd => nd.1 ∈ nbunch) (_node G))
          ((fun un => (un.1, filter (fun vd => vd.1 ∈ nbunch) un.2))
             <$> filter (fun un => un.1 ∈ nbunch) (_adj G)).

(** [nx.compose(G, H)]. *)
Definition compose (G H : Graph) : Graph :=
  let R := add_nodes_from (add_nodes_from empty_graph (_node G)) (_node H) in
  add_edges_from (add_edges_from R (edges G)) (edges H).

(** [nx.Graph(data)] on a graph: [from_dict_of_dicts(data.adj)], then the
    node attributes are copied. *)
Definition Graph_of (data : Graph) : Graph :=
  let G := add_nodes_from empty_graph ((fun un => (un.1, ∅)) <$> _adj data) in
  let G := add_edges_from G (adjacency_entries data) in
  MkGraph (foldl (fun nd n => od_alter (fun dd => n.2 ∪ dd) nd n.1) (_node G) (_node data))
          (_adj G).

(** [G.remove_edges_from(nx.selfloop_edges(G))]. *)
Definition remove_selfloop_edges (G : Graph) : Graph :=
  MkGraph (_node G) ((fun un => (un.1, od_del un.2 un.1)) <$> _adj G).

(** *** [nx.all_shortest_paths], unweighted *)

(** The state of the loop of [nx.predecessor]: the level at which a node was
    seen, the predecessor lists, and the nodes to check at the next level. *)
Record bfs_state : Type := BfsState {
  seen : gmap string nat;
  pred : gmap string (list string);
  nextlevel : list string
}.

(** The body of [for w in G[v]]. *)
Definition visit (level : nat) (v : string) (st : bfs_state) (w : string) : bfs_state :=
  match seen st !! w with
  | None => BfsState (<[w := level]> (seen st)) (<[w := [v]]> (pred st)) (nextlevel st ++ [w])
  | Some l =>
      if decide (l = level)
      then BfsState (seen st) (alter (fun vs => vs ++ [v]) w (pred st)) (nextlevel st)
      else st
  end.

(** The body of [while nextlevel], at the level already incremented. *)
Definition scan_level (G : Graph) (level : nat) (st : bfs_state) : bfs_state :=
  foldl (fun st v => foldl (visit level v) st (neighbors G v))
        (BfsState (seen st) (pred st) []) (nextlevel st).

Fixpoint predecessor_loop (fuel : nat) (G : Graph) (level : nat) (st : bfs_state)
  : result (gmap string (list string)) :=
  match nextlevel st with
  | [] => Ok (pred st)
  | _ :: _ =>
      match fuel with
      | 0 => Raise OutOfFuel
      | S fuel' => predecessor_loop fuel' G (S level) (scan_level G (S level) st)
      end
  end.

(** A bound on the number of levels: the number of entries of the two
    dictionaries of the graph. *)
Definition size_bound (G : Graph) : nat :=
  length (_node G) + length (adjacency_entries G).

(** [nx.predecessor(G, source)]. *)
Definition predecessor (G : Graph) (source : string) : result (gmap string (list string)) :=
  if has_node G source
  then predecessor_loop (S (size_bound G)) G 0
         (BfsState {[ source := 0 ]} {[ source := [] ]} [source])
  else Raise NodeNotFound.

(** The generator [_build_paths_from_predecessors({source}, target, pred)]
    walks the predecessor lists depth first from the target, keeping the
    nodes of its stack in [seen]; a node of the stack that is the source
    yields the stack, read from its top. [stack] is the stack below [node],
    top first. *)
Fixpoint build_paths (fuel : nat) (source : string) (pred : gmap string (list string))
    (seen : list string) (node : string) (stack : list string)
  : result (list (list string)) :=
  match fuel with
  | 0 => Raise OutOfFuel
  | S fuel' =>
      preds ← dict_getitem pred node;
      below ← map_result
        (fun next =>
           if decide (next ∈ seen) then Ok []
           else build_paths fuel' source pred (next :: seen) next (node :: stack))
        preds;
      Ok ((if decide (node = source) then [node :: stack] else []) ++ concat below)
  end.

Definition _build_paths_from_predecessors (source target : string)
    (pred : gmap string (list string)) : result (list (list string)) :=
  if dict_contains pred target
  then build_paths (S (size pred)) source pred [target] target []
  else Raise NetworkXNoPath.

Definition all_shortest_paths (G : Graph) (source target : string)
  : result (list (list string)) :=
  pred ← predecessor G source;
  _build_paths_from_predecessors source target pred.

End nx.

(** ** What the run leaves open *)

(** [list(set(l))]: the elements of [l], each once, in the order in which the
    set enumerates them. The order follows the hashes of the strings, which
    change from run to run; within a run it is a function of [l]. *)
Class SetOrder : Type := {
  set_list : list string -> list string;
  set_list_NoDup : forall l, NoDup (set_list l);
  set_list_elem : forall l x, x ∈ set_list l <-> x ∈ l
}.

(** [nx.edge_betweenness_centrality(G)]: a dictionary from the edges of [G]
    to their betweenness. The library computes it; the sources only read
    it. *)
Class EdgeBetweenness : Type :=
  edge_betweenness_centrality : nx.Graph -> gmap (string * string) Q.

(** ** mindset_streams.py: graphs, paths, layout and statistics *)

Definition create_base_graph (df : list erow) : nx.Graph :=
  let G := nx.from_pandas_edgelist df in
  foldl (fun G (r : erow) =>
           nx.set_node_attr
             (nx.set_node_attr G (word_1 r) "valence" (word_1_valence r))
             (word_2 r) "valence" (word_2_valence r))
        G df.

Definition shortest_paths (G : nx.Graph) (source target : string)
  : result (list (list string)) :=
  nx.all_shortest_paths G source target.

Definition bridge_graph (graph : nx.Graph) (paths : list (list string)) : result nx.Graph :=
  path0 ← getitem paths 0;
  Ok (foldl (fun subgraph path => nx.compose subgraph (nx.subgraph graph path))
            (nx.subgraph graph path0) (drop 1 paths)).

(** The three lists [node_positions] fills. *)
Record buckets : Type := Buckets {
  source_nodes : list string;
  target_nodes : list string;
  layer_nodes : list (list string)
}.

(** [for node in path], from the value [counter] on; the last branch ends
    the loop. *)
Fixpoint bucket_path (num_layers : Z) (path : list string) (counter : nat) (b : buckets)
  : buckets :=
  match path with
  | [] => b
  | node :: path' =>
      if decide (counter = 0) then
        bucket_path num_layers path' (S counter)
          (Buckets (source_nodes b ++ [node]) (target_nodes b) (layer_nodes b))
      else if decide (0 < Z.of_nat counter < num_layers + 1)%Z then
        bucket_path num_layers path' (S counter)
          (Buckets (source_nodes b) (target_nodes b)
             (alter (fun l => l ++ [node]) (counter - 1) (layer_nodes b)))
      else
        Buckets (source_nodes b) (target_nodes b ++ [node]) (layer_nodes b)
  end.

(** [(1/(num_layers + 1)) * (i + 1)]. *)
Definition x_position (num_layers : Z) (i : nat) : Q :=
  ((1 / inject_Z (num_layers + 1)) * inject_Z (Z.of_nat i + 1))%Q.

(** [1 - ((1/(len(layer) + 1)) * (node_number + 1))]. *)
Definition y_position (len node_number : nat) : Q :=
  (1 - (1 / inject_Z (Z.of_nat len + 1)) * inject_Z (Z.of_nat node_number + 1))%Q.

(** [for node in layer], with its counter [node_number]. *)
Definition place_layer (layer_x_position : Q) (layer : list string)
    (node_positions_dict : gmap string (Q * Q)) : gmap string (Q * Q) :=
  (foldl (fun dn node =>
            (<[node := (layer_x_position, y_position (length layer) dn.2)]> dn.1, S dn.2))
         (node_positions_dict, 0) layer).1.

(** The loop [for path in paths]. *)
Definition fill_buckets (num_layers : Z) (paths : list (list string)) : buckets :=
  foldl (fun b path => bucket_path num_layers path 0 b)
        (Buckets [] [] (replicate (Z.to_nat num_layers) [])) paths.

(** The loop [for layer in layer_nodes], with its counter [layer_number]. *)
Definition place_layers (layer_x_positions : list Q) (layer_nodes : list (list string))
    (node_positions_dict : gmap string (Q * Q)) : result (gmap string (Q * Q)) :=
  dn ← for_each (fun dn layer =>
                   layer_x_position ← getitem layer_x_positions dn.2;
                   Ok (place_layer layer_x_position layer dn.1, S dn.2))
                layer_nodes (node_positions_dict, 0);
  Ok dn.1.

Definition node_positions `{SetOrder} (paths : list (list string))
  : result (gmap string (Q * Q)) :=
  path0 ← getitem paths 0;
  let num_layers := (Z.of_nat (length path0) - 2)%Z in
  let b := fill_buckets num_layers paths in
  let layer_nodes := set_list <$> layer_nodes b in
  source_node ← getitem (set_list (source_nodes b)) 0;
  target_node ← getitem (set_list (target_nodes b)) 0;
  let node_positions_dict :=
    <[target_node := (9 # 10, 1 # 2)%Q]> (<[source_node := (1 # 10, 1 # 2)%Q]> ∅) in
  let layer_x_positions := x_position num_layers <$> seq 0 (Z.to_nat num_layers) in
  place_layers layer_x_positions layer_nodes node_positions_dict.

Definition node_colours (graph : nx.Graph) : gmap string string :=
  foldl (fun node_colour_dict (nv : string * attr_dict) =>
           if decide (nv.2 = {[ "valence" := "positive" ]}) then <[nv.1 := "tab:blue"]> node_colour_dict
           else if decide (nv.2 = {[ "valence" := "neutral" ]}) then <[nv.1 := "tab:grey"]> node_colour_dict
           else if decide (nv.2 = {[ "valence" := "negative" ]}) then <[nv.1 := "tab:red"]> node_colour_dict
           else node_colour_dict)
        ∅ (nx._node graph).

(** The local variable [colour] of [edge_colours] is unbound ([None] here)
    until a branch of the conditional assigns it; reading it unbound is an
    [UnboundLocalError]. *)
Definition edge_colour_step (st : option string * gmap (string * string) string)
    (e : string * string * attr_dict) : result (option string * gmap (string * string) string) :=
  let valence := e.2 !! "edge valence" in
  let colour :=
    if decide (valence = Some "positive") then Some "tab:blue"
    else if decide (valence = Some "neutral") then Some "tab:grey"
    else if decide (valence = Some "negative") then Some "tab:red"
    else st.1 in
  match colour with
  | None => Raise UnboundLocalError
  | Some c => Ok (colour, <[(e.1.1, e.1.2) := c]> st.2)
  end.

Definition edge_colours (graph : nx.Graph) : result (gmap (string * string) string) :=
  st ← for_each edge_colour_step (nx.edges graph) (None, ∅);
  Ok st.2.

(** [node_sizes]: the dictionary of closeness is copied, and the loop gives
    every key of the copy eight times its value, key by key in the order of
    the dictionary; a key is read before its own entry is written, so the
    value read is that of [node_closeness]. *)
Definition node_sizes (node_closeness : list (string * Q)) : list (string * Q) :=
  foldl (fun node_sizes_dict (iv : string * Q) => od_set node_sizes_dict iv.1 (iv.2 * 8)%Q)
        node_closeness node_closeness.

(** [list(zip(path, path[1:] + path[:1]))[:-1]]. *)
Definition tuple_pairs (path : list string) : list (string * string) :=
  let pairs := zip path (drop 1 path ++ take 1 path) in
  take (length pairs - 1) pairs.

Definition betweenness_step (betweenness_dict : gmap (string * string) Q)
    (betweenness_list : list Q) (edge : string * string) : result (list Q) :=
  let word_1 := edge.1 in
  let word_2 := edge.2 in
  if dict_contains betweenness_dict (word_1, word_2) then
    betweenness ← dict_getitem betweenness_dict (word_1, word_2);
    Ok (betweenness_list ++ [betweenness])
  else if dict_contains betweenness_dict (word_2, word_1) then
    betweenness ← dict_getitem betweenness_dict (word_2, word_1);
    Ok (betweenness_list ++ [betweenness])
  else Ok betweenness_list.

Definition path_betweenness `{EdgeBetweenness} (path : list string) (base_graph : nx.Graph)
  : result Q :=
  let betweenness_dict := edge_betweenness_centrality base_graph in
  betweenness_list ← for_each (betweenness_step betweenness_dict) (tuple_pairs path) [];
  Ok (py_sum betweenness_list).

(** [dict(subgraph.nodes(data=True)).get(node).get('valence')]: a node that
    the subgraph does not have gives [None], on which [.get] is an
    [AttributeError]; a node without the attribute gives [None]. *)
Definition node_valence (subgraph : nx.Graph) (node : string) : result (option string) :=
  match od_get (nx._node subgraph) node with
  | None => Raise AttributeError
  | Some dd => Ok (dd !! "valence")
  end.

Definition path_type (path : list string) (subgraph : nx.Graph) : result string :=
  path_valences ← map_result (node_valence subgraph) path;
  if forallb (fun v => bool_decide (v = Some "positive")) path_valences then
    Ok "purely positive path"
  else if forallb (fun v => bool_decide (v = Some "neutral")) path_valences then
    Ok "purely neutral path"
  else if forallb (fun v => bool_decide (v = Some "negative")) path_valences then
    Ok "purely negative path"
  else if existsb (fun v => bool_decide (v = Some "negative")) path_valences
          && existsb (fun v => bool_decide (v = "positive")) path then
    Ok "conflicting path"
  else
    Ok "mixed path".

(** A row of [path_stats]. *)
Record path_stat : Type := PathStat {
  path_structure : list string;
  path_type_of : string;
  betweenness_sum : Q
}.

(** What [stream_graph] hands to the drawing library, and the table it
    returns. The drawing itself, and the closeness centrality that only sizes
    the nodes and their labels, are outside the embedding. *)
Record stream : Type := Stream {
  stream_subgraph : nx.Graph;
  node_layout : gmap string (Q * Q);
  node_color : gmap string string;
  edge_color : gmap (string * string) string;
  path_stats : list path_stat
}.

Definition stream_graph `{SetOrder} `{EdgeBetweenness}
    (df : list erow) (source_node target_node : string) : result stream :=
  let base_graph := create_base_graph df in
  base_paths ← shortest_paths base_graph source_node target_node;
  bridge ← bridge_graph base_graph base_paths;
  let subgraph := nx.remove_selfloop_edges (nx.Graph_of bridge) in
  sub_paths ← shortest_paths subgraph source_node target_node;
  node_dict ← node_positions sub_paths;
  let node_colour_dict := node_colours subgraph in
  edge_colour_dict ← edge_colours subgraph;
  stats_list ← map_result
    (fun path =>
       type_ ← path_type path subgraph;
       betweenness ← path_betweenness path base_graph;
       Ok (PathStat path type_ (py_round betweenness 4)))
    sub_paths;
  Ok (Stream subgraph node_dict node_colour_dict edge_colour_dict stats_list).

(** The functions in the order in which the package is used: load the
    associations, attach the valences, derive the edge valences, build the
    stream. A load that printed a validation message returned [None]:
    [attach_sentiment] first fills its dictionary from the valence file, and
    then fails with a [TypeError] on [df['word 1']]. *)
Definition pipeline `{SetOrder} `{EdgeBetweenness}
    (association_data : list json) (valence_data : list (list (string * string)))
    (source_node target_node : string) : result stream :=
  l ← file_to_df association_data;
  match l with
  | Invalid _ =>
      _ ← for_each valence_entry valence_data ∅;
      Raise TypeError
  | Table df =>
      df ← attach_sentiment df valence_data;
      stream_graph (edge_valence df) source_node target_node
  end.

(** * The vocabulary of the properties *)

(** A decidable proposition on closed terms, by evaluation. *)
Ltac by_compute := refine (bool_decide_unpack _ _); vm_compute; exact I.

(** The edge valence of one row, as [np.select] chooses it. *)
Definition select_row (v1 v2 : string) : string :=
  if bool_decide (v1 = "neutral") && bool_decide (v2 = "neutral") then "neutral"
  else if bool_decide (v1 = "neutral") && bool_decide (v2 = "positive") then "neutral"
  else if bool_decide (v1 = "neutral") && bool_decide (v2 = "negative") then "neutral"
  else if bool_decide (v1 = "positive") && bool_decide (v2 = "neutral") then "neutral"
  else if bool_decide (v1 = "positive") && bool_decide (v2 = "positive") then "positive"
  else if bool_decide (v1 = "positive") && bool_decide (v2 = "negative") then "conflicting"
  else if bool_decide (v1 = "negative") && bool_decide (v2 = "neutral") then "neutral"
  else if bool_decide (v1 = "negative") && bool_decide (v2 = "positive") then "conflicting"
  else if bool_decide (v1 = "negative") && bool_decide (v2 = "negative") then "negative"
  else "0".

(** A word is absent from the valence table when no record of the valence
    file has it as its first value. *)
Definition valence_absent (valence_data : list (list (string * string))) (w : string) : Prop :=
  forall d, d ∈ valence_data -> d.*2 !! 0 <> Some w.

(** The label [path_type] gives, from the valences read along the path: the
    fourth test looks for the valence negative among the valences and for
    the element ["positive"] among the nodes of the path. *)
Definition path_label (path : list string) (path_valences : list (option string)) : string :=
  if forallb (fun v => bool_decide (v = Some "positive")) path_valences then "purely positive path"
  else if forallb (fun v => bool_decide (v = Some "neutral")) path_valences then "purely neutral path"
  else if forallb (fun v => bool_decide (v = Some "negative")) path_valences then "purely negative path"
  else if bool_decide (Some "negative" ∈ path_valences) && bool_decide ("positive" ∈ path)
  then "conflicting path"
  else "mixed path".

(** A base graph with one association, between a positive and a negative
    word. *)
Definition joy_grief : nx.Graph :=
  create_base_graph (edge_valence [Row "joy" "grief" "positive" "negative"]).

(** A base graph with a word that is spelled like a valence. *)
Definition positive_thinking : nx.Graph :=
  create_base_graph (edge_valence [Row "positive" "thinking" "negative" "neutral"]).

(** The order in which the elements are first met is one order a set can
    have. *)
#[local] Program Instance first_met_order : SetOrder := {| set_list := remove_dups |}.
Next Obligation. apply NoDup_remove_dups. Qed.
Next Obligation. intros. apply elem_of_remove_dups. Qed.

(** The consecutive pairs of a path. *)
Definition consecutive_pairs (path : list string) : list (string * string) :=
  zip path (drop 1 path).

(** The betweenness of a pair of nodes: the entry of the pair, and failing
    that the entry of the reversed pair. *)
Definition edge_score (betweenness_dict : gmap (string * string) Q) (edge : string * string)
  : option Q :=
  match betweenness_dict !! edge with
  | Some x => Some x
  | None => betweenness_dict !! (edge.2, edge.1)
  end.

Definition scenario_associations : list json :=
  [ JObj [("w1", JStr "cat"); ("w2", JStr "dog")];
    JObj [("w1", JStr "dog"); ("w2", JStr "wolf")] ].

(** The valence file of the scenario: one record a word, the word first and
    its valence second. *)
Definition scenario_valences : list (list (string * string)) :=
  [ [("word", "cat"); ("valence", "positive")];
    [("word", "dog"); ("valence", "neutral")];
    [("word", "wolf"); ("valence", "negative")] ].

Definition scenario_df : list erow :=
  [ ERow (Row "cat" "dog" "positive" "neutral") "neutral";
    ERow (Row "dog" "wolf" "neutral" "negative") "neutral" ].

Definition scenario_path : list string := ["cat"; "dog"; "wolf"].

Definition scenario_subgraph : nx.Graph :=
  nx.remove_selfloop_edges
    (nx.Graph_of (nx.subgraph (create_base_graph scenario_df) scenario_path)).

(** The edge valences for which [edge_colours] has a branch. *)
Definition recognised (valence : option string) : Prop :=
  valence = Some "positive" \/ valence = Some "neutral" \/ valence = Some "negative".

(** The key under which [edge_colours] stores the colour of an edge. *)
Definition edge_key (e : string * string * attr_dict) : string * string := (e.1.1, e.1.2).

Fixpoint str_forall (P : ascii -> bool) (s : string) : bool :=
  match s with
  | EmptyString => true
  | String c s' => P c && str_forall P s'
  end.

(** The strings of the ASCII range. The embedding reads the class [\s] and
    [str.lower] on this range, where Python reads them on all of Unicode;
    the properties of the loading functions that depend on either are
    stated for the strings of this range. *)
Definition ascii_string (s : string) : bool :=
  str_forall (fun c => (nat_of_ascii c <? 128)%nat) s.

(** Every value of the record that is a string is of the ASCII range. *)
Definition ascii_values (o : json) : bool :=
  match o with
  | JObj kvs =>
      forallb (fun kv => match kv.2 with JStr s => ascii_string s | _ => true end) kvs
  | _ => true
  end.

(** The same for a record of the valence file, and for a row of words. *)
Definition ascii_record (d : list (string * string)) : bool :=
  forallb (fun kv => ascii_string kv.2) d.

Definition ascii_words (r : string * string) : bool :=
  ascii_string r.1 && ascii_string r.2.

(** The two words of a record with two string values. *)
Definition record_words (json_object : json) : option (string * string) :=
  match json_object with
  | JObj [(_, JStr w1); (_, JStr w2)] => Some (w1, w2)
  | _ => None
  end.

Definition three_values : list json :=
  [ JObj [("w1", JStr "cat"); ("w2", JStr "dog"); ("w3", JStr "wolf")] ].

(** The nodes that the paths have at position [i]. *)
Definition column (i : nat) (paths : list (list string)) : list string :=
  omap (fun p => p !! i) paths.

(** No node is in two of the layers. *)
Definition disjoint_layers (layers : list (list string)) : Prop :=
  forall j1 j2 l1 l2 node,
    layers !! j1 = Some l1 -> layers !! j2 = Some l2 -> node ∈ l1 -> node ∈ l2 -> j1 = j2.

(** No node is at two positions, in one path or in two. *)
Definition one_position (paths : list (list string)) : Prop :=
  forall p q i j node,
    p ∈ paths -> q ∈ paths -> p !! i = Some node -> q !! j = Some node -> i = j.

(** Consecutive nodes of the list are joined by an edge. *)
Fixpoint is_walk (G : nx.Graph) (p : list string) : Prop :=
  match p with
  | u :: (v :: _) as p' => v ∈ nx.neighbors G u /\ is_walk G p'
  | _ => True
  end.

(** A path of the graph from [s] to [t], as the list of its nodes. *)
Definition path_between (G : nx.Graph) (s t : string) (p : list string) : Prop :=
  head p = Some s /\ last p = Some t /\ is_walk G p.

Definition connected (G : nx.Graph) (s t : string) : Prop :=
  exists p, path_between G s t p.

(** A path from [s] to [t] of minimum length. *)
Definition shortest_between (G : nx.Graph) (s t : string) (p : list string) : Prop :=
  path_between G s t p /\ forall q, path_between G s t q -> length p <= length q.

(** Every neighbour is a node of the graph. *)
Definition closed (G : nx.Graph) : Prop :=
  forall v w, w ∈ nx.neighbors G v -> nx.has_node G w = true.

(** [v] is the end of a path of [k] edges from [s]. *)
Definition reach (G : nx.Graph) (s : string) (k : nat) (v : string) : Prop :=
  exists p, path_between G s v p /\ length p = S k.

(** The pairs (node of this level, neighbour) in the order in which the two
    loops of [nx.predecessor] visit them. *)
Definition level_pairs (G : nx.Graph) (thislevel : list string) : list (string * string) :=
  thislevel ≫= fun v => pair v <$> nx.neighbors G v.

(** The state [st] after the pairs [ps] were visited from the state [st0],
    at the level [level]. *)
Record scanned (level : nat) (st0 st : nx.bfs_state) (ps : list (string * string)) : Prop := {
  scanned_old : forall w k, nx.seen st0 !! w = Some k -> nx.seen st !! w = Some k;
  scanned_new : forall w, nx.seen st0 !! w = None -> w ∈ ps.*2 -> nx.seen st !! w = Some level;
  scanned_not : forall w, nx.seen st0 !! w = None -> w ∉ ps.*2 -> nx.seen st !! w = None;
  scanned_next : forall w,
      w ∈ nx.nextlevel st <-> w ∈ nx.nextlevel st0 \/ (nx.seen st0 !! w = None /\ w ∈ ps.*2);
  scanned_pred_old : forall w k, nx.seen st0 !! w = Some k -> nx.pred st !! w = nx.pred st0 !! w;
  scanned_pred_not : forall w,
      nx.seen st0 !! w = None -> w ∉ ps.*2 -> nx.pred st !! w = nx.pred st0 !! w;
  scanned_pred_new : forall w,
      nx.seen st0 !! w = None -> w ∈ ps.*2 ->
      exists l, nx.pred st !! w = Some l /\ forall v, v ∈ l <-> (v, w) ∈ ps
}.

(** Every name that the dictionaries of the graph hold. *)
Definition names (G : nx.Graph) : gset string :=
  list_to_set (nx.nodes G ++ ((fun e => e.1.2) <$> nx.adjacency_entries G)).

(** The state of [nx.predecessor] when the loop is entered at the level
    [L]. *)
Record bfs_inv (G : nx.Graph) (source : string) (L : nat) (st : nx.bfs_state) : Prop := {
  inv_sound : forall w k,
      nx.seen st !! w = Some k ->
      k <= L /\ reach G source k w /\ forall j, reach G source j w -> k <= j;
  inv_complete : forall w j, reach G source j w -> j <= L -> is_Some (nx.seen st !! w);
  inv_next : forall w, w ∈ nx.nextlevel st <-> nx.seen st !! w = Some L;
  inv_dom : dom (nx.pred st) = dom (nx.seen st);
  inv_source : nx.pred st !! source = Some [];
  inv_pred : forall w k l,
      nx.seen st !! w = Some (S k) -> nx.pred st !! w = Some l ->
      forall v, v ∈ l <-> nx.seen st !! v = Some k /\ w ∈ nx.neighbors G v;
  inv_count : match nx.nextlevel st with [] => L | _ => S L end <= size (nx.seen st);
  inv_names : dom (nx.seen st) ⊆ names G
}.

(** What [nx.predecessor] returns: the predecessor lists [P], with the
    levels [S] the loop had for them. *)
Record bfs_final (G : nx.Graph) (source : string)
    (P : gmap string (list string)) (S_ : gmap string nat) : Prop := {
  fin_sound : forall w k,
      S_ !! w = Some k ->
      reach G source k w /\ (forall j, reach G source j w -> k <= j) /\ k < size P;
  fin_complete : forall w j, reach G source j w -> is_Some (S_ !! w);
  fin_dom : dom P = dom S_;
  fin_source : P !! source = Some [];
  fin_pred : forall w k l,
      S_ !! w = Some (S k) -> P !! w = Some l ->
      forall v, v ∈ l <-> S_ !! v = Some k /\ w ∈ nx.neighbors G v
}.

(** [closed], computed. *)
Definition closedb (G : nx.Graph) : bool :=
  forallb (fun un => forallb (fun vd => nx.has_node G vd.1) un.2) (nx._adj G).

(** The two dictionaries of the graph have the same keys, every neighbour is
    a node, and every node has a neighbour. *)
Record graph_ok (G : nx.Graph) : Prop := {
  ok_keys : forall n, is_Some (od_get (nx._node G) n) <-> is_Some (od_get (nx._adj G) n);
  ok_closed : closed G;
  ok_degree : forall n, nx.has_node G n = true -> nx.neighbors G n <> []
}.

(** The ends of the associations of a table. *)
Definition is_word (df : list erow) (n : string) : Prop :=
  exists r : erow, r ∈ df /\ (n = word_1 r \/ n = word_2 r).

Definition associated (df : list erow) (x w : string) : Prop :=
  exists r : erow, r ∈ df /\ ((x = word_1 r /\ w = word_2 r) \/ (x = word_2 r /\ w = word_1 r)).

(** The five labels of [path_type]. *)
Definition path_labels : list string :=
  [ "purely positive path"; "purely neutral path"; "purely negative path";
    "conflicting path"; "mixed path" ].

(** Every predecessor list names a node once. *)
Definition unique_lists (pred : gmap string (list string)) : Prop :=
  forall w l, pred !! w = Some l -> NoDup l.

(** No node is twice a neighbour of the same node, as in the adjacency
    dictionaries of the library. *)
Definition simple_adjacency (G : nx.Graph) : Prop :=
  forall v, NoDup (nx.neighbors G v).

(** ** The vocabulary of the properties of the loading functions *)

(** The line feed. *)
Definition line_feed : string := String "010" EmptyString.

Definition no_space (s : string) : Prop :=
  str_forall (fun c => negb (is_space c)) s = true.

Definition no_line_feed (s : string) : Prop :=
  str_forall (fun c => negb (is_newline c)) s = true.

(** [s] has the property, or is a string that has it followed by one line
    feed. *)
Definition up_to_line_feed (P : string -> Prop) (s : string) : Prop :=
  P s \/ exists s', s = (s' +:+ line_feed)%string /\ P s'.

(** The number of values of a record, and its value at a position. *)
Definition num_values (o : json) : nat :=
  match o with JObj kvs => length kvs | _ => 0 end.

Definition value_at (o : json) (i : nat) : option string :=
  match o with
  | JObj kvs => match kvs.*2 !! i with Some (JStr s) => Some s | _ => None end
  | _ => None
  end.

Definition lowercase (s : string) : Prop := str_lower s = s.

(** The second value of the last record of the valence file whose first
    value is the word. *)
Definition last_valence (valence_data : list (list (string * string))) (w : string)
  : option string :=
  last (omap (fun d => if decide (d.*2 !! 0 = Some w) then d.*2 !! 1 else None) valence_data).

(** The values of the column ['edge valence']. *)
Definition edge_valences : list string :=
  [ "neutral"; "positive"; "negative"; "conflicting"; "0" ].

Definition ragged_associations : list json :=
  [ JObj [("w1", JStr "Cat"); ("w2", JStr "Dog")]; JObj [("w1", JStr "Fox")] ].

(** ** The vocabulary of the properties of the graphs *)

(** The attribute dictionary of a node, and that of an edge. *)
Definition node_attr (G : nx.Graph) (n : string) : option attr_dict :=
  od_get (nx._node G) n.

Definition edge_data (G : nx.Graph) (u v : string) : option attr_dict :=
  od_get (default [] (od_get (nx._adj G) u)) v.

(** What the library keeps true of a graph: the two dictionaries have the
    same keys, no dictionary has a key twice, the two directions of an edge
    hold the same data, and the ends of an edge are nodes. *)
Record graph_wf (G : nx.Graph) : Prop := {
  wf_keys : forall n, is_Some (node_attr G n) <-> is_Some (od_get (nx._adj G) n);
  wf_nodes : NoDup (nx._node G).*1;
  wf_adj : NoDup (nx._adj G).*1;
  wf_nbrs : forall n nbrs, od_get (nx._adj G) n = Some nbrs -> NoDup nbrs.*1;
  wf_sym : forall u v, edge_data G u v = edge_data G v u;
  wf_closed : forall u v, is_Some (edge_data G u v) -> is_Some (node_attr G u)
}.

(** The edge is in the list, in one direction or in the other. *)
Definition in_edges (es : list (string * string * attr_dict)) (x y : string) (d : attr_dict)
  : Prop :=
  (x, y, d) ∈ es \/ (y, x, d) ∈ es.

(** A list of edges that gives an edge one attribute dictionary only. *)
Definition functional_edges (es : list (string * string * attr_dict)) : Prop :=
  forall x y d d', in_edges es x y d -> in_edges es x y d' -> d = d'.

(** The ends of the edge [e] are [x] and [y]. *)
Definition joins (x y : string) (e : string * string * attr_dict) : Prop :=
  (e.1.1 = x /\ e.1.2 = y) \/ (e.1.1 = y /\ e.1.2 = x).

#[local] Instance joins_dec (x y : string) (e : string * string * attr_dict) :
  Decision (joins x y e).
Proof. unfold joins. apply _. Defined.

(** The assignments [base_graph.nodes[word]['valence'] = valence] of
    [create_base_graph], in the order in which the loop makes them. *)
Definition valence_assignments (df : list erow) : list (string * string) :=
  df ≫= fun r : erow => [(word_1 r, word_1_valence r); (word_2 r, word_2_valence r)].

(** The valence that the last assignment to the word gives it. *)
Definition last_assigned (df : list erow) (n : string) : option string :=
  last (omap (fun a : string * string => if decide (a.1 = n) then Some a.2 else None)
             (valence_assignments df)).

(** The row joins the two words, in one direction or in the other. *)
Definition row_joins (x y : string) (r : erow) : Prop :=
  (word_1 r = x /\ word_2 r = y) \/ (word_1 r = y /\ word_2 r = x).

#[local] Instance row_joins_dec (x y : string) (r : erow) : Decision (row_joins x y r).
Proof. unfold row_joins. apply _. Defined.

(** The edge valence of the last row that joins the two words. *)
Definition last_edge_valence (df : list erow) (x y : string) : option string :=
  last (omap (fun r : erow => if decide (row_joins x y r) then Some (edge_valence_of r) else None)
             df).

(** Every word has one valence in the table, the one [f] gives it. *)
Definition valences_from (f : string -> string) (df : list erow) : Prop :=
  forall r : erow, r ∈ df ->
    word_1_valence r = f (word_1 r) /\ word_2_valence r = f (word_2 r).

(** The colour of a valence, for a node and for an edge. *)
Definition colour_of (valence : string) : option string :=
  if decide (valence = "positive") then Some "tab:blue"
  else if decide (valence = "neutral") then Some "tab:grey"
  else if decide (valence = "negative") then Some "tab:red"
  else None.

(** The valences of the scenario, as a function of the word. *)
Definition scenario_valence_of (n : string) : string :=
  if decide (n = "cat") then "positive"
  else if decide (n = "dog") then "neutral"
  else "negative".

(** The colour [node_colours] gives to an attribute dictionary. *)
Definition node_colour_of (dd : attr_dict) : option string :=
  if decide (dd = {[ "valence" := "positive" ]}) then Some "tab:blue"
  else if decide (dd = {[ "valence" := "neutral" ]}) then Some "tab:grey"
  else if decide (dd = {[ "valence" := "negative" ]}) then Some "tab:red"
  else None.

(** The node is on one of the paths; the two nodes are together on one of
    the paths. *)
Definition on_paths (paths : list (list string)) (m : string) : Prop :=
  Exists (fun p => m ∈ p) paths.

Definition together_on_paths (paths : list (list string)) (x y : string) : Prop :=
  Exists (fun p => x ∈ p /\ y ∈ p) paths.

(** The graph [stream_graph] draws, from the bridge graph. *)
Definition drawn_graph (bridge : nx.Graph) : nx.Graph :=
  nx.remove_selfloop_edges (nx.Graph_of bridge).

(** The two nodes follow one another on the path, in one order or in the
    other. *)
Definition adjacent_on (p : list string) (x y : string) : Prop :=
  (x, y) ∈ consecutive_pairs p \/ (y, x) ∈ consecutive_pairs p.

(** A betweenness dictionary for the examples: the empty one. *)
#[local] Instance no_betweenness : EdgeBetweenness := fun _ => ∅.

#[local] Instance recognised_dec (valence : option string) : Decision (recognised valence).
Proof. unfold recognised. apply _. Defined.

(** ** The vocabulary of the properties of the stream *)

(** The association table of one row, between a positive and a negative
    word. *)
Definition joy_grief_df : list erow :=
  edge_valence [Row "joy" "grief" "positive" "negative"].

(** The valence that [attach_sentiment] gives to a word. *)
Definition valence_in (valence_data : list (list (string * string))) (w : string) : string :=
  str_lower (default "nan" (last_valence valence_data w)).

(** The two words of a record, as [file_to_df] reads them. *)
Definition words_of (o : json) : string * string :=
  (str_lower (default "None" (value_at o 0)), str_lower (default "None" (value_at o 1))).

(** The valence that [path_type] reads at a node. *)
Definition valence_of (G : nx.Graph) (n : string) : option string :=
  node_attr G n ≫= fun dd => dd !! "valence".

(** The pair, reversed. *)
Definition swap_pair (e : string * string) : string * string := (e.2, e.1).

(** The betweenness dictionary gives the two directions of a pair the same
    value, when it has both. *)
Definition one_score (d : gmap (string * string) Q) : Prop :=
  forall u v x y, d !! (u, v) = Some x -> d !! (v, u) = Some y -> x = y.

(** A betweenness dictionary for the scenario: its two edges, each under one
    order of its ends. *)
Definition scenario_betweenness : EdgeBetweenness :=
  fun _ => {[ ("cat", "dog") := (2 # 3)%Q; ("dog", "wolf") := (2 # 3)%Q ]}.

(** * Properties *)

(** ** Results *)

Lemma bind_Ok {A B} (m : result A) (f : A -> result B) (b : B) :
  m ≫= f = Ok b <-> exists a, m = Ok a /\ f a = Ok b.
Proof.
  destruct m as [a|e]; simpl; split.
  - intros Hf. by exists a.
  - by intros (a' & [= ->] & Hf).
  - done.
  - by intros (a' & [=] & _).
Qed.

Lemma for_each_app {A S} (body : S -> A -> result S) (l1 l2 : list A) (s : S) :
  for_each body (l1 ++ l2) s = for_each body l1 s ≫= for_each body l2.
Proof.
  revert s. induction l1 as [|x l1 IH]; intros s; simpl; [done|].
  destruct (body s x) as [s'|e]; simpl; [apply IH | done].
Qed.

Lemma map_result_Ok_length {A B} (f : A -> result B) (l : list A) (k : list B) :
  map_result f l = Ok k -> length k = length l.
Proof.
  revert k. induction l as [|x l IH]; intros k; simpl.
  - by intros [= <-].
  - destruct (f x) as [y|e]; simpl; [|done].
    destruct (map_result f l) as [ys|e]; simpl; [|done].
    intros [= <-]. simpl. f_equal. by apply IH.
Qed.

Lemma map_result_Ok_lookup {A B} (f : A -> result B) (l : list A) (k : list B) i x :
  map_result f l = Ok k -> l !! i = Some x -> exists y, k !! i = Some y /\ f x = Ok y.
Proof.
  revert k i. induction l as [|a l IH]; intros k i; simpl; [done|].
  destruct (f a) as [y|e] eqn:Hy; simpl; [|done].
  destruct (map_result f l) as [ys|e]; simpl; [|done].
  intros [= <-]. destruct i as [|i]; simpl.
  - intros [= ->]. eauto.
  - intros Hi. by apply IH.
Qed.

Lemma map_result_total {A B} (f : A -> result B) (l : list A) :
  (forall x, x ∈ l -> exists y, f x = Ok y) -> exists k, map_result f l = Ok k.
Proof.
  induction l as [|a l IH]; intros Hf; simpl; [by eexists|].
  destruct (Hf a) as [y ->]; [left|]. simpl.
  destruct IH as [k ->]; [intros x Hx; apply Hf; by right|].
  simpl. by eexists.
Qed.

(** ** Edge valence (C2, C8) *)

Lemma col_and_eq_lookup {A} (f g : A -> string) (df : list A) (i : nat) (r : A) (a b : string) :
  df !! i = Some r ->
  col_and (col_eq (f <$> df) a) (col_eq (g <$> df) b) !! i
  = Some (bool_decide (f r = a) && bool_decide (g r = b)).
Proof.
  intros Hi. unfold col_and, col_eq.
  rewrite lookup_zip_with, !list_lookup_fmap, Hi. done.
Qed.

Lemma bool_decide_Some_true (b : bool) : bool_decide (Some b = Some true) = b.
Proof. by destruct b. Qed.

Lemma edge_valence_lookup (df : list row) (i : nat) (r : row) :
  df !! i = Some r ->
  edge_valence df !! i = Some (ERow r (select_row (word_1_valence r) (word_2_valence r))).
Proof.
  intros Hi. unfold edge_valence, np.select.
  rewrite lookup_zip_with, Hi. simpl.
  rewrite list_lookup_fmap, lookup_seq_lt by (by eapply lookup_lt_Some).
  simpl. do 2 f_equal.
  unfold conditions, values, np.select_at, select_row.
  rewrite !(col_and_eq_lookup _ _ _ _ _ _ _ Hi), !bool_decide_Some_true.
  done.
Qed.

Lemma edge_valence_length (df : list row) : length (edge_valence df) = length df.
Proof.
  unfold edge_valence, np.select.
  rewrite length_zip_with, length_fmap, length_seq. lia.
Qed.

Lemma elem_of_categories (v : string) :
  v ∈ categories <-> v = "neutral" \/ v = "positive" \/ v = "negative".
Proof. unfold categories. set_solver. Qed.

Lemma select_row_table (v1 v2 : string) :
  v1 ∈ categories -> v2 ∈ categories -> valence_table v1 v2 = Some (select_row v1 v2).
Proof.
  rewrite !elem_of_categories. by intros [->|[->| ->]] [->|[->| ->]].
Qed.

Lemma select_row_default (v1 v2 : string) :
  v1 ∉ categories \/ v2 ∉ categories -> select_row v1 v2 = "0".
Proof.
  rewrite !elem_of_categories. intros Hv. unfold select_row.
  repeat case_bool_decide; simpl; try done; subst; naive_solver.
Qed.

(** C2. For a row whose two valences are among neutral, positive and
    negative, [edge_valence] gives the edge the valence of the table of
    section 4.2: neutral as soon as one side is neutral, positive and
    negative for two equal sides, conflicting for positive against negative
    in either order; and a row with the two valences exchanged gets the same
    edge valence. *)
Theorem edge_valence_table (df : list row) (i : nat) (r : row) :
  df !! i = Some r ->
  word_1_valence r ∈ categories ->
  word_2_valence r ∈ categories ->
  exists ev,
    edge_valence df !! i = Some (ERow r ev)
    /\ valence_table (word_1_valence r) (word_2_valence r) = Some ev
    /\ (word_1_valence r = "neutral" \/ word_2_valence r = "neutral" -> ev = "neutral")
    /\ (word_1_valence r = "positive" -> word_2_valence r = "positive" -> ev = "positive")
    /\ (word_1_valence r = "negative" -> word_2_valence r = "negative" -> ev = "negative")
    /\ (word_1_valence r = "positive" -> word_2_valence r = "negative" -> ev = "conflicting")
    /\ (word_1_valence r = "negative" -> word_2_valence r = "positive" -> ev = "conflicting")
    /\ (forall df' j r',
          df' !! j = Some r' ->
          word_1_valence r' = word_2_valence r ->
          word_2_valence r' = word_1_valence r ->
          edge_valence df' !! j = Some (ERow r' ev)).
Proof.
  intros Hi H1 H2. exists (select_row (word_1_valence r) (word_2_valence r)).
  split; [by apply edge_valence_lookup|].
  split; [by apply select_row_table|].
  repeat split.
  - apply elem_of_categories in H1, H2.
    intros [H|H]; rewrite H in *; destruct H1 as [->|[->| ->]] || destruct H2 as [->|[->| ->]];
      done.
  - by intros -> ->.
  - by intros -> ->.
  - by intros -> ->.
  - by intros -> ->.
  - intros df' j r' Hj E1 E2. rewrite (edge_valence_lookup _ _ _ Hj), E1, E2.
    do 2 f_equal. apply elem_of_categories in H1, H2.
    by destruct H1 as [->|[->| ->]], H2 as [->|[->| ->]].
Qed.

Lemma edge_valence_table_witness :
  exists ev,
    edge_valence [Row "love" "hate" "positive" "negative"] !! 0
    = Some (ERow (Row "love" "hate" "positive" "negative") ev)
    /\ ev = "conflicting".
Proof.
  destruct (edge_valence_table [Row "love" "hate" "positive" "negative"] 0
              (Row "love" "hate" "positive" "negative")) as (ev & H1 & _ & _ & _ & _ & H6 & _).
  - reflexivity.
  - by_compute.
  - by_compute.
  - exists ev. split; [exact H1 | by apply H6].
Defined.

Lemma valence_dict_keys (valence_data : list (list (string * string)))
    (m m' : gmap string string) (w : string) :
  for_each valence_entry valence_data m = Ok m' ->
  valence_absent valence_data w ->
  m' !! w = m !! w.
Proof.
  revert m. induction valence_data as [|d vd IH]; intros m; simpl.
  - by intros [= ->].
  - intros Hm Habs. apply bind_Ok in Hm as (m1 & Hd & Hm).
    rewrite (IH m1 Hm) by (intros d' Hd'; apply Habs; by right).
    unfold valence_entry, getitem in Hd.
    destruct (d.*2 !! 0) as [k|] eqn:Hk; [|done]. simpl in Hd.
    destruct (d.*2 !! 1) as [v|]; [|done]. simpl in Hd.
    injection Hd as <-. apply lookup_insert_ne.
    intros ->. by apply (Habs d); [left|].
Qed.

Lemma attach_sentiment_lookup (df0 : list (string * string))
    (valence_data : list (list (string * string))) (df : list row) (i : nat) (w1 w2 : string) :
  attach_sentiment df0 valence_data = Ok df ->
  df0 !! i = Some (w1, w2) ->
  exists r, df !! i = Some r
    /\ (valence_absent valence_data w1 -> word_1_valence r = "nan")
    /\ (valence_absent valence_data w2 -> word_2_valence r = "nan").
Proof.
  unfold attach_sentiment. intros Hdf Hi.
  apply bind_Ok in Hdf as (m & Hm & [= <-]).
  rewrite list_lookup_fmap, Hi. simpl. eexists. split; [done|]. simpl.
  split; intros Habs; by rewrite (valence_dict_keys _ _ _ _ Hm Habs), lookup_empty.
Qed.

(** C8. A row with a valence that is none of the strings neutral, positive
    and negative gets the edge valence ["0"], the default of [np.select],
    which the table never gives; this is the case of a word that the valence
    table does not have, whose valence the loader writes ["nan"]. *)
Theorem edge_valence_unrecognised :
  (forall (df : list row) i r,
      df !! i = Some r ->
      word_1_valence r ∉ categories \/ word_2_valence r ∉ categories ->
      edge_valence df !! i = Some (ERow r "0"))
  /\ ("0" ∉ values)
  /\ (forall df0 valence_data df i w1 w2,
        attach_sentiment df0 valence_data = Ok df ->
        df0 !! i = Some (w1, w2) ->
        valence_absent valence_data w1 \/ valence_absent valence_data w2 ->
        exists r, df !! i = Some r
          /\ (word_1_valence r = "nan" \/ word_2_valence r = "nan")
          /\ edge_valence df !! i = Some (ERow r "0")).
Proof.
  assert (Hrow : forall (df : list row) i r,
      df !! i = Some r ->
      word_1_valence r ∉ categories \/ word_2_valence r ∉ categories ->
      edge_valence df !! i = Some (ERow r "0")).
  { intros df i r Hi Hv. rewrite (edge_valence_lookup _ _ _ Hi).
    by rewrite select_row_default. }
  split; [exact Hrow|]. split; [by_compute|].
  intros df0 vd df i w1 w2 Hdf Hi Habs.
  destruct (attach_sentiment_lookup _ _ _ _ _ _ Hdf Hi) as (r & Hr & H1 & H2).
  exists r. split; [done|].
  assert (Hnan : "nan" ∉ categories) by by_compute.
  destruct Habs as [Habs|Habs].
  - split; [left; auto|]. apply Hrow; [done|]. left. by rewrite H1.
  - split; [right; auto|]. apply Hrow; [done|]. right. by rewrite H2.
Qed.

Lemma edge_valence_unrecognised_witness :
  edge_valence [Row "cat" "yeti" "positive" "nan"] !! 0
  = Some (ERow (Row "cat" "yeti" "positive" "nan") "0").
Proof.
  apply (proj1 edge_valence_unrecognised); [reflexivity|].
  right. by_compute.
Defined.

(** ** Path types (C1) *)

Lemma existsb_elem_of {A} `{EqDecision A} (a : A) (l : list A) :
  existsb (fun v => bool_decide (v = a)) l = bool_decide (a ∈ l).
Proof.
  induction l as [|x l IH]; cbn [existsb].
  - symmetry. apply bool_decide_eq_false_2. by intros ?%elem_of_nil.
  - rewrite IH. destruct (decide (x = a)) as [->|Hne].
    + rewrite bool_decide_eq_true_2 by done. simpl.
      symmetry. apply bool_decide_eq_true_2. by left.
    + rewrite (bool_decide_eq_false_2 (x = a)) by done. simpl.
      apply bool_decide_ext. rewrite elem_of_cons. naive_solver.
Qed.

Lemma path_type_label (path : list string) (subgraph : nx.Graph)
    (path_valences : list (option string)) :
  map_result (node_valence subgraph) path = Ok path_valences ->
  path_type path subgraph = Ok (path_label path path_valences).
Proof.
  intros Hv. unfold path_type, path_label. rewrite Hv. simpl.
  rewrite !existsb_elem_of.
  repeat (match goal with |- context [if ?b then _ else _] => destruct b end; try done).
Qed.

(** C1, at the input where the code leaves the specification: a path through a
    positive and a negative word is a mixed path for [path_type], because
    its fourth test looks for the node ["positive"] and not for the valence;
    and a path with no positive word is a conflicting path when one of its
    words is spelled ["positive"]. *)
Theorem path_type_conflicting_divergence :
  map_result (node_valence joy_grief) ["joy"; "grief"] = Ok [Some "positive"; Some "negative"]
  /\ path_type ["joy"; "grief"] joy_grief = Ok "mixed path"
  /\ map_result (node_valence positive_thinking) ["positive"; "thinking"]
     = Ok [Some "negative"; Some "neutral"]
  /\ path_type ["positive"; "thinking"] positive_thinking = Ok "conflicting path".
Proof. repeat split; vm_compute; reflexivity. Qed.

(** ** The order of a set *)

Section set_order.
Context `{SetOrder}.

Lemma set_list_nil : set_list [] = [].
Proof.
  destruct (set_list []) as [|x l] eqn:E; [done|].
  assert (x ∈ set_list []) as Hx by (rewrite E; left).
  apply (proj1 (set_list_elem _ _)) in Hx. by apply elem_of_nil in Hx.
Qed.

Lemma set_list_constant (x : string) (l : list string) :
  l <> [] -> (forall y, y ∈ l -> y = x) -> set_list l = [x].
Proof.
  intros Hne Hall.
  assert (Hx : x ∈ l).
  { destruct l as [|a l]; [done|]. rewrite <- (Hall a) by left. left. }
  pose proof (set_list_NoDup l) as Hnd.
  assert (Hin : forall y, y ∈ set_list l -> y = x).
  { intros y Hy. apply Hall. by apply set_list_elem. }
  apply (proj2 (set_list_elem _ _)) in Hx.
  destruct (set_list l) as [|a [|b k]].
  - by apply elem_of_nil in Hx.
  - f_equal. apply Hin. left.
  - exfalso. apply NoDup_cons in Hnd as [Hnot _]. apply Hnot.
    rewrite (Hin a) by left. rewrite <- (Hin b) by (right; left). left.
Qed.

Lemma set_list_singleton (x : string) : set_list [x] = [x].
Proof. apply set_list_constant; [done|]. by intros y ->%list_elem_of_singleton. Qed.

Lemma set_list_length_le (l : list string) : length (set_list l) <= length l.
Proof.
  apply submseteq_length, NoDup_submseteq; [apply set_list_NoDup|].
  intros x. apply set_list_elem.
Qed.

End set_order.

(** ** Path betweenness (C7, C10) *)

Lemma tuple_pairs_consecutive (path : list string) :
  tuple_pairs path = consecutive_pairs path.
Proof.
  unfold tuple_pairs, consecutive_pairs. destruct path as [|a p]; [done|].
  change (drop 1 (a :: p)) with p. change (take 1 (a :: p)) with [a].
  rewrite length_zip_with, length_app. simpl length.
  replace (S (length p) `min` (length p + 1) - 1) with (length p) by lia.
  rewrite zip_with_take, take_app_length. apply zip_with_take_l.
Qed.

Lemma consecutive_pairs_cons (a b : string) (p : list string) :
  consecutive_pairs (a :: b :: p) = (a, b) :: consecutive_pairs (b :: p).
Proof. done. Qed.

Lemma consecutive_pairs_split (pre : list string) (u v : string) (post : list string) :
  consecutive_pairs (pre ++ u :: v :: post)
  = consecutive_pairs (pre ++ [u]) ++ (u, v) :: consecutive_pairs (v :: post).
Proof.
  induction pre as [|a pre IH]; [done|].
  destruct pre as [|b pre]; simpl app in *.
  - by rewrite !consecutive_pairs_cons.
  - by rewrite !consecutive_pairs_cons, IH.
Qed.

Lemma betweenness_step_score (d : gmap (string * string) Q) (l : list Q) (e : string * string) :
  betweenness_step d l e = Ok (l ++ option_list (edge_score d e)).
Proof.
  unfold betweenness_step, edge_score, dict_contains, dict_getitem.
  destruct e as [u v]; simpl.
  destruct (d !! (u, v)) as [x|] eqn:E1.
  - rewrite bool_decide_eq_true_2 by eauto. done.
  - rewrite bool_decide_eq_false_2 by (by intros [? ?]).
    destruct (d !! (v, u)) as [y|] eqn:E2.
    + rewrite bool_decide_eq_true_2 by eauto. done.
    + rewrite bool_decide_eq_false_2 by (by intros [? ?]). simpl.
      by rewrite app_nil_r.
Qed.

Lemma betweenness_loop (d : gmap (string * string) Q) (pairs : list (string * string))
    (l : list Q) :
  for_each (betweenness_step d) pairs l = Ok (l ++ omap (edge_score d) pairs).
Proof.
  revert l. induction pairs as [|e pairs IH]; intros l; simpl.
  - by rewrite app_nil_r.
  - rewrite betweenness_step_score. simpl. rewrite IH, <- app_assoc.
    do 2 f_equal. by destruct (edge_score d e).
Qed.

Lemma path_betweenness_sum `{EdgeBetweenness} (path : list string) (base_graph : nx.Graph) :
  path_betweenness path base_graph
  = Ok (py_sum (omap (edge_score (edge_betweenness_centrality base_graph))
                     (consecutive_pairs path))).
Proof.
  unfold path_betweenness. by rewrite betweenness_loop, tuple_pairs_consecutive.
Qed.

Lemma foldl_Qplus_proper (l : list Q) (a b : Q) :
  (a == b)%Q -> (foldl Qplus a l == foldl Qplus b l)%Q.
Proof.
  revert a b. induction l as [|x l IH]; intros a b Hab; simpl; [exact Hab|].
  apply IH. rewrite Hab. reflexivity.
Qed.

Lemma foldl_Qplus_skipped (f : string * string -> option Q) (pairs : list (string * string))
    (a : Q) :
  (foldl Qplus a (omap f pairs) == foldl Qplus a ((fun e => default 0%Q (f e)) <$> pairs))%Q.
Proof.
  revert a. induction pairs as [|e pairs IH]; intros a; simpl; [reflexivity|].
  destruct (f e) as [x|]; simpl; [apply IH|].
  rewrite IH. apply foldl_Qplus_proper. lra.
Qed.

Lemma py_sum_skipped (f : string * string -> option Q) (pairs : list (string * string)) :
  (py_sum (omap f pairs) == py_sum ((fun e => default 0%Q (f e)) <$> pairs))%Q.
Proof. apply foldl_Qplus_skipped. Qed.

Lemma map_result_Ok_Forall2 {A B} (f : A -> result B) (l : list A) (k : list B) :
  map_result f l = Ok k -> Forall2 (fun x y => f x = Ok y) l k.
Proof.
  revert k. induction l as [|a l IH]; intros k; simpl.
  - intros [= <-]. constructor.
  - destruct (f a) as [y|e] eqn:Hy; simpl; [|done].
    destruct (map_result f l) as [ys|e]; simpl; [|done].
    intros [= <-]. constructor; [done|]. by apply IH.
Qed.

(** The rows of the table of [stream_graph] are made from the shortest paths
    of the subgraph, one row a path, with the betweenness taken over the
    base graph and rounded. *)
Lemma stream_graph_stats `{SetOrder} `{EdgeBetweenness} (df : list erow)
    (source_node target_node : string) (st : stream) :
  stream_graph df source_node target_node = Ok st ->
  exists sub_paths,
    shortest_paths (stream_subgraph st) source_node target_node = Ok sub_paths
    /\ Forall2 (fun path r =>
                  path_structure r = path
                  /\ path_type path (stream_subgraph st) = Ok (path_type_of r)
                  /\ exists b, path_betweenness path (create_base_graph df) = Ok b
                               /\ betweenness_sum r = py_round b 4)
               sub_paths (path_stats st).
Proof.
  unfold stream_graph. intros Hst.
  apply bind_Ok in Hst as (base_paths & _ & Hst).
  apply bind_Ok in Hst as (bridge & _ & Hst).
  apply bind_Ok in Hst as (sub_paths & Hsub & Hst).
  apply bind_Ok in Hst as (node_dict & _ & Hst).
  apply bind_Ok in Hst as (edge_colour_dict & _ & Hst).
  apply bind_Ok in Hst as (stats_list & Hstats & [= <-]). simpl.
  exists sub_paths. split; [done|].
  apply map_result_Ok_Forall2 in Hstats.
  eapply Forall2_impl; [exact Hstats|]. simpl. intros path r Hr.
  apply bind_Ok in Hr as (type_ & Htype & Hr).
  apply bind_Ok in Hr as (b & Hb & [= <-]). simpl. eauto.
Qed.

(** C10. [path_betweenness] returns for every path: a pair of consecutive
    nodes that the betweenness dictionary has in neither order is skipped,
    which is to add 0 for it. *)
Theorem path_betweenness_total `{EdgeBetweenness} :
  forall (path : list string) (base_graph : nx.Graph),
    let d := edge_betweenness_centrality base_graph in
    (exists b,
        path_betweenness path base_graph = Ok b
        /\ (b == py_sum ((fun e => default 0%Q (edge_score d e)) <$> consecutive_pairs path))%Q)
    /\ (forall u v, d !! (u, v) = None -> d !! (v, u) = None ->
                    edge_score d (u, v) = None)
    /\ (forall pre u v post,
          path = pre ++ u :: v :: post ->
          d !! (u, v) = None -> d !! (v, u) = None ->
          path_betweenness path base_graph
          = Ok (py_sum (omap (edge_score d) (consecutive_pairs (pre ++ [u]))
                        ++ omap (edge_score d) (consecutive_pairs (v :: post))))).
Proof.
  intros path base_graph d. split; [|split].
  - eexists. split; [apply path_betweenness_sum|]. apply py_sum_skipped.
  - intros u v Huv Hvu. unfold edge_score. by rewrite Huv.
  - intros pre u v post -> Huv Hvu.
    rewrite path_betweenness_sum, consecutive_pairs_split, omap_app. fold d.
    simpl. unfold edge_score at 2. simpl. by rewrite Huv, Hvu.
Qed.

(** ** The end-to-end scenario (C5) *)

Lemma scenario_load :
  file_to_df scenario_associations = Ok (Table [("cat", "dog"); ("dog", "wolf")]).
Proof. vm_compute. reflexivity. Qed.

Lemma scenario_attach :
  edge_valence <$> attach_sentiment [("cat", "dog"); ("dog", "wolf")] scenario_valences
  = Ok scenario_df.
Proof. vm_compute. reflexivity. Qed.

Lemma scenario_base_paths :
  shortest_paths (create_base_graph scenario_df) "cat" "wolf" = Ok [scenario_path].
Proof. vm_compute. reflexivity. Qed.

Lemma scenario_sub_paths :
  shortest_paths scenario_subgraph "cat" "wolf" = Ok [scenario_path].
Proof. vm_compute. reflexivity. Qed.

Lemma scenario_positions `{SetOrder} :
  exists node_dict, node_positions [scenario_path] = Ok node_dict.
Proof.
  unfold node_positions.
  change (getitem [scenario_path] 0) with (Ok scenario_path). cbn [mbind result_bind].
  change (fill_buckets (Z.of_nat (length scenario_path) - 2) [scenario_path])
    with (Buckets ["cat"] ["wolf"] [["dog"]]).
  cbn [source_nodes target_nodes layer_nodes fmap list_fmap].
  rewrite !set_list_singleton.
  eexists. vm_compute. reflexivity.
Qed.

Lemma scenario_edge_colours :
  exists edge_colour_dict, edge_colours scenario_subgraph = Ok edge_colour_dict.
Proof. eexists. vm_compute. reflexivity. Qed.

Lemma scenario_path_type : path_type scenario_path scenario_subgraph = Ok "mixed path".
Proof. vm_compute. reflexivity. Qed.

(** C5. With the associations cat-dog and dog-wolf and the valences cat
    positive, dog neutral and wolf negative, the pipeline run from cat to
    wolf finds one shortest path, cat, dog, wolf, and [path_type] calls it a
    mixed path. *)
Theorem scenario_cat_wolf `{SetOrder} `{EdgeBetweenness} :
  exists st,
    pipeline scenario_associations scenario_valences "cat" "wolf" = Ok st
    /\ shortest_paths (stream_subgraph st) "cat" "wolf" = Ok [["cat"; "dog"; "wolf"]]
    /\ (fun r => (path_structure r, path_type_of r)) <$> path_stats st
       = [(["cat"; "dog"; "wolf"], "mixed path")]
    /\ path_type ["cat"; "dog"; "wolf"] (stream_subgraph st) = Ok "mixed path".
Proof.
  unfold pipeline. rewrite scenario_load. cbn [mbind result_bind].
  pose proof scenario_attach as Hattach.
  destruct (attach_sentiment _ scenario_valences) as [df|e]; [|done].
  cbn [mbind result_bind]. injection Hattach as ->. unfold stream_graph.
  rewrite scenario_base_paths. cbn [mbind result_bind].
  change (bridge_graph (create_base_graph scenario_df) [scenario_path])
    with (Ok (nx.subgraph (create_base_graph scenario_df) scenario_path)).
  cbn [mbind result_bind]. fold scenario_subgraph.
  rewrite scenario_sub_paths. cbn [mbind result_bind].
  destruct scenario_positions as [node_dict ->]. cbn [mbind result_bind].
  destruct scenario_edge_colours as [edge_colour_dict ->]. cbn [mbind result_bind].
  cbn [map_result]. rewrite scenario_path_type. cbn [mbind result_bind].
  rewrite path_betweenness_sum. cbn [mbind result_bind].
  eexists. split; [reflexivity|]. cbn [stream_subgraph path_stats].
  split; [apply scenario_sub_paths|]. split; [reflexivity|]. apply scenario_path_type.
Qed.

(** ** Edge colours (C9) *)

Lemma edge_colour_step_recognised st (e : string * string * attr_dict) :
  recognised (e.2 !! "edge valence") ->
  exists c, edge_colour_step st e = Ok (Some c, <[edge_key e := c]> st.2).
Proof.
  unfold edge_colour_step, edge_key. intros [->|[->| ->]]; simpl; eauto.
Qed.

Lemma edge_colour_step_unrecognised st (e : string * string * attr_dict) :
  ~ recognised (e.2 !! "edge valence") ->
  edge_colour_step st e
  = match st.1 with
    | None => Raise UnboundLocalError
    | Some c => Ok (Some c, <[edge_key e := c]> st.2)
    end.
Proof.
  unfold edge_colour_step, edge_key, recognised. intros Hv.
  repeat case_decide; try naive_solver. by destruct (st.1).
Qed.

Lemma edge_colour_step_bound c d (e : string * string * attr_dict) :
  exists c', edge_colour_step (Some c, d) e = Ok (Some c', <[edge_key e := c']> d).
Proof.
  unfold edge_colour_step, edge_key. simpl. repeat case_decide; eauto.
Qed.

Lemma edge_colour_loop_bound (es : list (string * string * attr_dict)) c d :
  exists c' d', for_each edge_colour_step es (Some c, d) = Ok (Some c', d').
Proof.
  revert c d. induction es as [|e es IH]; intros c d; simpl; [eauto|].
  destruct (edge_colour_step_bound c d e) as [c' ->]. simpl. apply IH.
Qed.

Lemma edge_colour_step_keeps st st' (e : string * string * attr_dict) k :
  edge_colour_step st e = Ok st' -> k <> edge_key e -> st'.2 !! k = st.2 !! k.
Proof.
  unfold edge_colour_step. intros Hst Hk.
  destruct (if decide (_ = Some "positive") then _ else _) as [c|]; [|done].
  injection Hst as <-. simpl. by apply lookup_insert_ne.
Qed.

Lemma edge_colour_loop_keeps (es : list (string * string * attr_dict)) st st' k :
  for_each edge_colour_step es st = Ok st' -> k ∉ edge_key <$> es -> st'.2 !! k = st.2 !! k.
Proof.
  revert st. induction es as [|e es IH]; intros st; simpl.
  - by intros [= ->].
  - intros Hst Hk. apply bind_Ok in Hst as (st1 & H1 & Hst).
    apply not_elem_of_cons in Hk as [Hk1 Hk2].
    rewrite (IH _ Hst Hk2). by eapply edge_colour_step_keeps.
Qed.

Lemma edge_colour_step_stores st st' (e : string * string * attr_dict) :
  edge_colour_step st e = Ok st' ->
  exists c, st'.1 = Some c /\ st'.2 !! edge_key e = Some c.
Proof.
  unfold edge_colour_step. intros Hst.
  destruct (if decide (_ = Some "positive") then _ else _) as [c|]; [|done].
  injection Hst as <-. simpl. exists c. split; [done|]. apply lookup_insert_eq.
Qed.

(** C9. [edge_colours] has a colour for the edge valences positive, neutral
    and negative only. When the first edge it enumerates has another one, as
    the valence conflicting that the graph builder gives to an edge between
    a positive and a negative word, the variable [colour] is read unbound
    and the function fails; a later edge with such a valence gets the
    colour of the edge before it; and the function returns for every graph
    whose edge valences are all among the three. *)
Theorem edge_colours_partial :
  (forall graph e es,
      nx.edges graph = e :: es ->
      ~ recognised (e.2 !! "edge valence") ->
      edge_colours graph = Raise UnboundLocalError)
  /\ ((fun e => e.2 !! "edge valence") <$> nx.edges joy_grief = [Some "conflicting"]
      /\ edge_colours joy_grief = Raise UnboundLocalError)
  /\ (forall graph es1 e1 e2 es2 d,
        nx.edges graph = es1 ++ e1 :: e2 :: es2 ->
        NoDup (edge_key <$> nx.edges graph) ->
        ~ recognised (e2.2 !! "edge valence") ->
        edge_colours graph = Ok d ->
        exists c, d !! edge_key e1 = Some c /\ d !! edge_key e2 = Some c)
  /\ (forall graph,
        Forall (fun e => recognised (e.2 !! "edge valence")) (nx.edges graph) ->
        exists d, edge_colours graph = Ok d).
Proof.
  split; [|split; [|split]].
  - intros graph e es He Hv. unfold edge_colours. rewrite He. simpl.
    by rewrite edge_colour_step_unrecognised.
  - split; vm_compute; reflexivity.
  - intros graph es1 e1 e2 es2 d He Hnd Hv Hd. unfold edge_colours in Hd.
    rewrite He in Hd, Hnd.
    apply bind_Ok in Hd as (st & Hst & [= <-]).
    rewrite for_each_app in Hst. apply bind_Ok in Hst as (st0 & _ & Hst).
    simpl in Hst. apply bind_Ok in Hst as (st1 & H1 & Hst).
    apply bind_Ok in Hst as (st2 & H2 & Hst).
    destruct (edge_colour_step_stores _ _ _ H1) as (c & Hc & Hk1).
    rewrite edge_colour_step_unrecognised, Hc in H2 by done. injection H2 as <-.
    rewrite fmap_app in Hnd. apply NoDup_app in Hnd as (_ & _ & Hnd).
    simpl in Hnd. apply NoDup_cons in Hnd as [Hn1 Hnd].
    apply NoDup_cons in Hnd as [Hn2 _]. apply not_elem_of_cons in Hn1 as [Hne Hn1].
    exists c. split.
    + rewrite (edge_colour_loop_keeps _ _ _ _ Hst Hn1). simpl.
      by rewrite lookup_insert_ne.
    + rewrite (edge_colour_loop_keeps _ _ _ _ Hst Hn2). simpl.
      apply lookup_insert_eq.
  - intros graph Hall. unfold edge_colours.
    destruct (nx.edges graph) as [|e es]; [by eexists|].
    apply Forall_cons in Hall as [He _]. simpl.
    destruct (edge_colour_step_recognised (None, ∅) e He) as [c ->]. simpl.
    destruct (edge_colour_loop_bound es c (<[edge_key e := c]> ∅)) as (c' & d' & ->).
    by eexists.
Qed.

(** ** Loading the associations (C6) *)

Lemma append_cons (c : ascii) (s t : string) :
  (String c s +:+ t = String c (s +:+ t))%string.
Proof. reflexivity. Qed.

Lemma append_empty (t : string) : (EmptyString +:+ t = t)%string.
Proof. reflexivity. Qed.

(** What the two patterns of the schema accept: a string of the class, with
    or without one line feed after it. *)
Lemma search_anchored_star_spec (cls : ascii -> bool) (s : string) :
  search_anchored_star cls s = true <->
  str_forall cls s = true
  \/ exists s', s = (s' +:+ String "010" EmptyString)%string /\ str_forall cls s' = true.
Proof.
  induction s as [|c s IH]; cbn [search_anchored_star str_forall].
  - split; [by left|done].
  - destruct (cls c) eqn:Hc; cbn [andb].
    + rewrite IH. split.
      * intros [?|(s' & -> & ?)]; [by left|]. right. exists (String c s').
        cbn [str_forall]. by rewrite Hc, append_cons.
      * intros [?|(s' & Hs & Hs')]; [by left|].
        destruct s' as [|c' s'].
        -- rewrite append_empty in Hs. injection Hs as -> ->. by left.
        -- rewrite append_cons in Hs. injection Hs as -> ->.
           cbn [str_forall] in Hs'. rewrite Hc in Hs'. eauto.
    + split.
      * intros [Hnl ->%bool_decide_eq_true]%andb_true_iff. right. exists EmptyString.
        split; [|done]. rewrite append_empty. f_equal. unfold is_newline in Hnl.
        apply Nat.eqb_eq in Hnl. rewrite <- (ascii_nat_embedding c), Hnl. done.
      * intros [?|(s' & Hs & Hs')]; [done|].
        destruct s' as [|c' s'].
        -- rewrite append_empty in Hs. injection Hs as -> ->. done.
        -- rewrite append_cons in Hs. injection Hs as -> ->.
           cbn [str_forall] in Hs'. by rewrite Hc in Hs'.
Qed.

Lemma forallb_Forall {A} (f : A -> bool) (l : list A) :
  forallb f l = true <-> Forall (fun x => f x = true) l.
Proof.
  induction l as [|x l IH]; simpl.
  - split; [constructor|done].
  - rewrite andb_true_iff, IH, Forall_cons. done.
Qed.

Lemma validate_json_spec (json_data : json) :
  validate_json json_data = true <->
  exists kvs, json_data = JObj kvs
    /\ Forall (fun kv => property_matches kv.1 = true
                         /\ exists s, kv.2 = JStr s
                              /\ search_anchored_star (fun c => negb (is_space c)) s = true) kvs.
Proof.
  split.
  - destruct json_data as [| | | | |kvs]; try done. simpl. intros Hall.
    exists kvs. split; [done|]. apply forallb_Forall in Hall.
    eapply Forall_impl; [exact Hall|]. intros [k v] [Hk Hv]%andb_true_iff.
    split; [done|]. simpl in *. destruct v; try done. eauto.
  - intros (kvs & -> & Hall). simpl. apply forallb_Forall.
    eapply Forall_impl; [exact Hall|]. intros [k v] (Hk & s & -> & Hs). simpl in *.
    by rewrite Hk.
Qed.

(** The values of a validated object are strings, so that the list of
    strings [str_values] is the list of its values. *)
Lemma validate_json_values (kvs : list (string * json)) :
  validate_json (JObj kvs) = true -> JStr <$> str_values (JObj kvs) = dict_values kvs.
Proof.
  intros (kvs' & [= <-] & Hall)%validate_json_spec. unfold str_values, dict_values.
  induction Hall as [|[k v] kvs (_ & s & Hv & _) _ IH]; [done|].
  simpl in Hv. subst v. cbn. by rewrite IH.
Qed.

Lemma collect_rows_valid (json_objects : list json) (data : list (list string)) :
  Forall (fun o => validate_json o = true) json_objects ->
  collect_rows json_objects data = inl (data ++ (str_values <$> json_objects)).
Proof.
  intros Hall. revert data.
  induction Hall as [|o os Ho _ IH]; intros data; simpl.
  - by rewrite app_nil_r.
  - by rewrite Ho, IH, <- app_assoc.
Qed.

Lemma collect_rows_invalid (pre : list json) (bad : json) (post : list json)
    (data : list (list string)) :
  Forall (fun o => validate_json o = true) pre ->
  validate_json bad = false ->
  collect_rows (pre ++ bad :: post) data = inr bad.
Proof.
  intros Hall Hbad. revert data.
  induction Hall as [|o os Ho _ IH]; intros data; simpl.
  - by rewrite Hbad.
  - by rewrite Ho, IH.
Qed.

Lemma first_invalid (json_objects : list json) :
  Exists (fun o => validate_json o = false) json_objects ->
  exists pre bad post,
    json_objects = pre ++ bad :: post
    /\ Forall (fun o => validate_json o = true) pre
    /\ validate_json bad = false.
Proof.
  induction json_objects as [|o os IH]; intros Hex; [by apply Exists_nil in Hex|].
  destruct (validate_json o) eqn:Ho.
  - apply Exists_cons in Hex as [Hex|Hex]; [congruence|].
    destruct (IH Hex) as (pre & bad & post & -> & Hpre & Hbad).
    exists (o :: pre), bad, post. split; [done|]. split; [by constructor|done].
  - exists [], o, os. split; [done|]. split; [constructor|done].
Qed.

Lemma record_words_values (o : json) (w : string * string) :
  record_words o = Some w -> str_values o = [w.1; w.2].
Proof.
  destruct o as [| | | | |[|[k1 [| | |s1| |]] [|[k2 [| | |s2| |]] [|]]]]; try done.
  by intros [= <-].
Qed.

Lemma DataFrame_two_columns (json_objects : list json) (words : list (string * string)) :
  mapM record_words json_objects = Some words ->
  pd.DataFrame (str_values <$> json_objects)
  = Ok ((fun w => (Some w.1, Some w.2)) <$> words).
Proof.
  intros Hw. apply mapM_Some in Hw.
  assert (Hdata : str_values <$> json_objects = (fun w => [w.1; w.2]) <$> words).
  { induction Hw as [|o w os ws Ho _ IH]; [done|].
    cbn. by rewrite IH, (record_words_values _ _ Ho). }
  rewrite Hdata. clear. destruct words as [|w ws]; [done|].
  unfold pd.DataFrame. cbn [fmap list_fmap].
  rewrite decide_True.
  - f_equal. rewrite <- list_fmap_compose. done.
  - cbn. induction ws as [|w' ws IH]; [done|]. cbn in *. lia.
Qed.




(** ** The layout (C4) *)

Lemma column_cons (i : nat) (p : list string) (paths : list (list string)) :
  column i (p :: paths) = option_list (p !! i) ++ column i paths.
Proof. unfold column. simpl. by destruct (p !! i). Qed.

Lemma elem_of_column (i : nat) (paths : list (list string)) (node : string) :
  node ∈ column i paths <-> exists p, p ∈ paths /\ p !! i = Some node.
Proof. unfold column. by rewrite list_elem_of_omap. Qed.

(** [for node in path], entered at position [c] with the nodes [rest] still
    to come, on a path of [n + 2] nodes. *)
Lemma bucket_path_from (n : nat) (rest : list string) (c : nat) (b : buckets) :
  1 <= c <= n + 1 ->
  length rest + c = n + 2 ->
  length (layer_nodes b) = n ->
  bucket_path (Z.of_nat n) rest c b
  = Buckets (source_nodes b)
            (target_nodes b ++ option_list (rest !! (n + 1 - c)))
            (imap (fun j l => l ++ if decide (c <= S j) then option_list (rest !! (S j - c)) else [])
                  (layer_nodes b)).
Proof.
  revert c b. induction rest as [|x rest IH]; intros c b Hc Hlen Hb; simpl in Hlen; [lia|].
  cbn [bucket_path]. rewrite decide_False by lia.
  destruct (decide (c = n + 1)) as [->|Hne].
  - rewrite decide_False by lia. replace (n + 1 - (n + 1)) with 0 by lia. cbn.
    f_equal. apply list_eq. intros j. rewrite list_lookup_imap.
    destruct (layer_nodes b !! j) as [l|] eqn:Hj; [|done]. cbn.
    apply lookup_lt_Some in Hj. rewrite decide_False by lia. by rewrite app_nil_r.
  - rewrite decide_True by lia. rewrite IH; [|lia|simpl; lia|simpl; by rewrite length_alter].
    cbn [source_nodes target_nodes layer_nodes]. f_equal.
    + do 2 f_equal. replace (n + 1 - c) with (S (n + 1 - S c)) by lia. done.
    + apply list_eq. intros j. rewrite !list_lookup_imap, list_lookup_alter.
      destruct (decide (c - 1 = j)) as [<-|Hj].
      * destruct (layer_nodes b !! (c - 1)) as [l|]; [|done]. cbn.
        rewrite decide_False by lia. rewrite decide_True by lia.
        replace (S (c - 1) - c) with 0 by lia. cbn. by rewrite app_nil_r.
      * destruct (layer_nodes b !! j) as [l|]; [|done]. cbn. do 2 f_equal.
        destruct (decide (c <= S j)).
        -- rewrite decide_True by lia. replace (S j - c) with (S (S j - S c)) by lia. done.
        -- by rewrite decide_False by lia.
Qed.

Lemma bucket_path_whole (n : nat) (path : list string) (b : buckets) :
  length path = n + 2 ->
  length (layer_nodes b) = n ->
  bucket_path (Z.of_nat n) path 0 b
  = Buckets (source_nodes b ++ option_list (path !! 0))
            (target_nodes b ++ option_list (path !! (n + 1)))
            (imap (fun j l => l ++ option_list (path !! S j)) (layer_nodes b)).
Proof.
  intros Hlen Hb. destruct path as [|x rest]; [simpl in Hlen; lia|].
  cbn [bucket_path]. rewrite decide_True by done.
  rewrite bucket_path_from; [|lia|simpl in *; lia|done].
  cbn [source_nodes target_nodes layer_nodes]. f_equal.
  - do 2 f_equal. replace (n + 1) with (S n) by lia. cbn. f_equal. lia.
  - apply imap_ext. intros j l _. rewrite decide_True by lia. cbn.
    by rewrite Nat.sub_0_r.
Qed.

Lemma fill_buckets_from (n : nat) (paths : list (list string)) (b : buckets) :
  (forall p, p ∈ paths -> length p = n + 2) ->
  length (layer_nodes b) = n ->
  foldl (fun b path => bucket_path (Z.of_nat n) path 0 b) b paths
  = Buckets (source_nodes b ++ column 0 paths)
            (target_nodes b ++ column (n + 1) paths)
            (imap (fun j l => l ++ column (S j) paths) (layer_nodes b)).
Proof.
  revert b. induction paths as [|p paths IH]; intros b Hlen Hb.
  - cbn. destruct b as [src tgt layers]. cbn. rewrite !app_nil_r. f_equal.
    rewrite <- (list_fmap_id layers) at 1. rewrite <- (imap_const id).
    apply imap_ext. intros j l _. by rewrite app_nil_r.
  - cbn [foldl]. rewrite bucket_path_whole; [|apply Hlen; left|done].
    rewrite IH; [|intros q Hq; apply Hlen; by right|cbn; by rewrite length_imap].
    cbn [source_nodes target_nodes layer_nodes].
    rewrite !column_cons, <- !app_assoc. f_equal.
    apply list_eq. intros j. rewrite !list_lookup_imap.
    destruct (layer_nodes b !! j) as [l|]; [|done]. cbn.
    rewrite <- app_assoc. unfold column. by destruct (p !! S j).
Qed.

Lemma fill_buckets_spec (n : nat) (paths : list (list string)) :
  (forall p, p ∈ paths -> length p = n + 2) ->
  fill_buckets (Z.of_nat n) paths
  = Buckets (column 0 paths) (column (n + 1) paths)
            ((fun j => column (S j) paths) <$> seq 0 n).
Proof.
  intros Hlen. unfold fill_buckets. rewrite Nat2Z.id.
  rewrite fill_buckets_from; [|done|cbn; by rewrite length_replicate].
  cbn [source_nodes target_nodes layer_nodes]. f_equal.
  apply list_eq. intros j. rewrite list_lookup_imap, list_lookup_fmap.
  destruct (decide (j < n)).
  - by rewrite lookup_replicate_2, lookup_seq_lt by done.
  - rewrite lookup_seq_ge by lia.
    by rewrite (proj1 (lookup_replicate_None _ _ _)) by lia.
Qed.

Lemma place_fold (x : Q) (len : nat) (l : list string) (d : gmap string (Q * Q)) (c : nat) :
  let r := foldl (fun dn node => (<[node := (x, y_position len dn.2)]> dn.1, S dn.2)) (d, c) l in
  (forall node, node ∉ l -> r.1 !! node = d !! node)
  /\ (NoDup l -> forall rank node,
        l !! rank = Some node -> r.1 !! node = Some (x, y_position len (c + rank))).
Proof.
  revert d c. induction l as [|a l IH]; intros d c; cbn [foldl].
  - split; [done|]. by intros _ rank node.
  - destruct (IH (<[a := (x, y_position len c)]> d) (S c)) as [IH1 IH2].
    cbn [fst snd]. split.
    + intros node [Hne Hnode]%not_elem_of_cons. rewrite IH1 by done.
      by apply lookup_insert_ne.
    + intros [Ha Hl]%NoDup_cons [|rank] node; cbn.
      * intros [= <-]. rewrite IH1 by done. rewrite lookup_insert_eq.
        by rewrite Nat.add_0_r.
      * intros Hrank. rewrite (IH2 Hl _ _ Hrank). do 3 f_equal. lia.
Qed.

Lemma place_layer_other (x : Q) (layer : list string) (d : gmap string (Q * Q)) (node : string) :
  node ∉ layer -> place_layer x layer d !! node = d !! node.
Proof. intros Hn. by apply (place_fold x (length layer) layer d 0). Qed.

Lemma place_layer_rank (x : Q) (layer : list string) (d : gmap string (Q * Q))
    (rank : nat) (node : string) :
  NoDup layer -> layer !! rank = Some node ->
  place_layer x layer d !! node = Some (x, y_position (length layer) rank).
Proof.
  intros Hnd Hr.
  by apply (proj2 (place_fold x (length layer) layer d 0) Hnd rank node).
Qed.

Lemma place_layers_from (xs : list Q) (layers : list (list string))
    (d : gmap string (Q * Q)) (c : nat) :
  length layers + c <= length xs ->
  exists d',
    for_each (fun dn layer =>
                layer_x_position ← getitem xs dn.2;
                Ok (place_layer layer_x_position layer dn.1, S dn.2))
             layers (d, c) = Ok (d', c + length layers)
    /\ (forall node, (forall layer, layer ∈ layers -> node ∉ layer) -> d' !! node = d !! node)
    /\ (Forall NoDup layers -> disjoint_layers layers ->
        forall j layer rank node,
          layers !! j = Some layer -> layer !! rank = Some node ->
          exists x, xs !! (c + j) = Some x
                    /\ d' !! node = Some (x, y_position (length layer) rank)).
Proof.
  revert d c. induction layers as [|l layers IH]; intros d c Hlen; cbn [for_each].
  - exists d. rewrite Nat.add_0_r. split; [done|]. split; [done|].
    by intros _ _ j layer rank node.
  - cbn [length] in Hlen. cbn [fst snd].
    destruct (lookup_lt_is_Some_2 xs c) as [x Hx]; [lia|].
    assert (Hg : getitem xs c = Ok x) by (unfold getitem; by rewrite Hx).
    rewrite Hg. cbn [mbind result_bind].
    destruct (IH (place_layer x l d) (S c)) as (d' & Hd' & Hother & Hrank); [lia|].
    exists d'. split; [rewrite Hd'; do 2 f_equal; cbn; lia|]. split.
    + intros node Hnode. rewrite Hother by (intros ??; apply Hnode; by right).
      apply place_layer_other, Hnode. left.
    + intros [Hl Hnd]%Forall_cons Hdis [|j] layer rank node; cbn.
      * intros [= <-] Hr. exists x. rewrite Nat.add_0_r. split; [done|].
        rewrite Hother; [by apply place_layer_rank|].
        intros layer [j Hj]%list_elem_of_lookup Hin.
        assert (0 = S j); [|done].
        eapply (Hdis 0 (S j) l layer node); [done|done| |done].
        apply list_elem_of_lookup. eauto.
      * intros Hj Hr.
        destruct (Hrank Hnd) with (j := j) (layer := layer) (rank := rank) (node := node)
          as (x' & Hx' & Hd); [|done|done|].
        { intros j1 j2 l1 l2 n1 H1 H2 Hn1 Hn2.
          assert (S j1 = S j2) by (by eapply Hdis). lia. }
        exists x'. split; [|done]. rewrite <- Hx'. f_equal. lia.
Qed.

Lemma place_layers_spec (xs : list Q) (layers : list (list string)) (d : gmap string (Q * Q)) :
  length layers <= length xs ->
  exists d',
    place_layers xs layers d = Ok d'
    /\ (forall node, (forall layer, layer ∈ layers -> node ∉ layer) -> d' !! node = d !! node)
    /\ (Forall NoDup layers -> disjoint_layers layers ->
        forall j layer rank node,
          layers !! j = Some layer -> layer !! rank = Some node ->
          exists x, xs !! j = Some x
                    /\ d' !! node = Some (x, y_position (length layer) rank)).
Proof.
  intros Hlen. destruct (place_layers_from xs layers d 0) as (d' & Hd' & H1 & H2); [lia|].
  exists d'. unfold place_layers. rewrite Hd'. done.
Qed.

Lemma set_list_pair `{SetOrder} (a b : string) :
  a <> b -> set_list [a; b] = [a; b] \/ set_list [a; b] = [b; a].
Proof.
  intros Hab. pose proof (set_list_NoDup [a; b]) as Hnd.
  pose proof (set_list_elem [a; b]) as Hel.
  assert (Ha : a ∈ set_list [a; b]) by (apply Hel; set_solver).
  assert (Hb : b ∈ set_list [a; b]) by (apply Hel; set_solver).
  assert (Hin : forall x, x ∈ set_list [a; b] -> x = a \/ x = b).
  { intros x Hx%Hel. set_solver. }
  destruct (set_list [a; b]) as [|x [|y [|z l]]].
  - by apply elem_of_nil in Ha.
  - apply list_elem_of_singleton in Ha, Hb. congruence.
  - apply NoDup_cons in Hnd as [[Hxy _]%not_elem_of_cons _].
    destruct (Hin x ltac:(left)) as [->| ->], (Hin y ltac:(right; left)) as [->| ->];
      by auto.
  - exfalso. apply NoDup_cons in Hnd as [Hx Hnd]. apply NoDup_cons in Hnd as [Hy _].
    apply not_elem_of_cons in Hx as [Hxy Hx]. apply not_elem_of_cons in Hx as [Hxz _].
    apply not_elem_of_cons in Hy as [Hyz _].
    destruct (Hin x ltac:(left)) as [->| ->], (Hin y ltac:(right; left)) as [->| ->],
      (Hin z ltac:(right; right; left)) as [->| ->]; congruence.
Qed.

Lemma node_positions_layers `{SetOrder} (paths : list (list string)) (s t : string) (n : nat) :
  paths <> [] ->
  (forall p, p ∈ paths -> length p = n + 2 /\ p !! 0 = Some s /\ p !! (n + 1) = Some t) ->
  one_position paths ->
  exists d,
    node_positions paths = Ok d
    /\ d !! s = Some (1 # 10, 1 # 2)%Q
    /\ d !! t = Some (9 # 10, 1 # 2)%Q
    /\ forall i rank node,
         0 < i < n + 1 ->
         set_list (column i paths) !! rank = Some node ->
         d !! node = Some (x_position (Z.of_nat n) (i - 1),
                           y_position (length (set_list (column i paths))) rank).
Proof.
  intros Hne Hpaths Hone. destruct paths as [|p0 rest] eqn:Epaths; [done|].
  rewrite <- Epaths in *. assert (Hp0 : p0 ∈ paths) by (rewrite Epaths; left).
  destruct (Hpaths p0 Hp0) as (Hlen0 & Hs0 & Ht0).
  assert (Hst : s <> t).
  { intros ->. assert (0 = n + 1); [|lia]. by eapply (Hone p0 p0). }
  unfold node_positions.
  replace (getitem paths 0) with (Ok p0) by (by rewrite Epaths).
  cbn [mbind result_bind]. rewrite Hlen0.
  replace (Z.of_nat (n + 2) - 2)%Z with (Z.of_nat n) by lia.
  rewrite fill_buckets_spec by (intros p Hp; by apply Hpaths).
  cbn [source_nodes target_nodes layer_nodes]. rewrite Nat2Z.id.
  assert (Hsrc : set_list (column 0 paths) = [s]).
  { apply set_list_constant.
    - by rewrite Epaths, column_cons, Hs0.
    - intros y (p & Hp & Hy)%elem_of_column.
      destruct (Hpaths p Hp) as (_ & Hps & _). congruence. }
  assert (Htgt : set_list (column (n + 1) paths) = [t]).
  { apply set_list_constant.
    - by rewrite Epaths, column_cons, Ht0.
    - intros y (p & Hp & Hy)%elem_of_column.
      destruct (Hpaths p Hp) as (_ & _ & Hpt). congruence. }
  rewrite Hsrc, Htgt.
  change (getitem [s] 0) with (Ok s). change (getitem [t] 0) with (Ok t).
  cbn [mbind result_bind].
  set (layers := set_list <$> ((fun j => column (S j) paths) <$> seq 0 n)).
  set (xs := x_position (Z.of_nat n) <$> seq 0 n).
  assert (Hlayer : forall j layer, layers !! j = Some layer ->
                                   j < n /\ layer = set_list (column (S j) paths)).
  { intros j layer Hj. unfold layers in Hj. rewrite !list_lookup_fmap in Hj.
    destruct (seq 0 n !! j) as [k|] eqn:Hk; [|done].
    apply lookup_seq in Hk as [-> Hk]. by injection Hj as <-. }
  destruct (place_layers_spec xs layers
              (<[t := (9 # 10, 1 # 2)%Q]> (<[s := (1 # 10, 1 # 2)%Q]> ∅)))
    as (d & Hd & Hother & Hrank).
  { unfold layers, xs. by rewrite !length_fmap. }
  exists d. split; [done|].
  assert (Hnot : forall node i0, (forall p, p ∈ paths -> p !! i0 = Some node) ->
                   (i0 = 0 \/ i0 = n + 1) ->
                   forall layer, layer ∈ layers -> node ∉ layer).
  { intros node i0 Hnode Hi0 layer [j Hj]%list_elem_of_lookup Hin.
    apply Hlayer in Hj as [Hj ->]. apply set_list_elem, elem_of_column in Hin as (p & Hp & Hin).
    assert (S j = i0) by (eapply (Hone p p); [done|done|done|by apply Hnode]). lia. }
  split; [|split].
  - rewrite Hother by (apply (Hnot s 0); [intros p Hp; by apply Hpaths|by left]).
    rewrite lookup_insert_ne by done. apply lookup_insert_eq.
  - rewrite Hother by (apply (Hnot t (n + 1)); [intros p Hp; by apply Hpaths|by right]).
    apply lookup_insert_eq.
  - intros i rank node Hi Hnode.
    destruct (Hrank) with (j := i - 1) (layer := set_list (column i paths))
                          (rank := rank) (node := node) as (x & Hx & Hdn); [| | |done|].
    + unfold layers. rewrite <- list_fmap_compose. apply Forall_fmap, Forall_true.
      intros j. apply set_list_NoDup.
    + intros j1 j2 l1 l2 node' [_ ->]%Hlayer [_ ->]%Hlayer.
      intros (p & Hp & H1)%set_list_elem%elem_of_column (q & Hq & H2)%set_list_elem%elem_of_column.
      assert (S j1 = S j2) by (by eapply (Hone p q)). lia.
    + unfold layers. rewrite !list_lookup_fmap, lookup_seq_lt by lia. cbn.
      do 3 f_equal. lia.
    + rewrite Hdn. do 2 f_equal. unfold xs in Hx.
      rewrite list_lookup_fmap, lookup_seq_lt in Hx by lia. by injection Hx as <-.
Qed.

Lemma one_position_two_mids (s a b t : string) :
  s <> a -> s <> b -> s <> t -> a <> b -> a <> t -> b <> t ->
  one_position [[s; a; t]; [s; b; t]].
Proof.
  intros Hsa Hsb Hst Hab Hat Hbt p q i j node Hp Hq Hi Hj.
  apply elem_of_cons in Hp as [->|Hp%list_elem_of_singleton];
    apply elem_of_cons in Hq as [->|Hq%list_elem_of_singleton]; subst;
    destruct i as [|[|[|i]]]; destruct j as [|[|[|j]]];
    cbn in Hi, Hj; try (by destruct i); try (by destruct j); congruence.
Qed.

(** C4, as the code has it. For a non-empty set of paths of one length, at
    least 2, that share their source and their target and in which no node
    is at two positions, [node_positions] pins the source at (0.1, 0.5) and
    the target at (0.9, 0.5); the nodes at position [i] of the paths, for
    [i] from 1 to [num_layers], get the x-coordinate that the code computes
    for the layer, [(1/(num_layers + 1)) * i], where [num_layers] is the
    length less 2; and the [k] distinct nodes of a layer get the
    y-coordinates that the code computes, [1 - (1/(k + 1)) * (rank + 1)],
    their rank being their place in the order of the set. The coordinates
    are given by the expressions of the code, whose value in floating point
    is the quotient [i / (num_layers + 1)], and [1 - (rank + 1)/(k + 1)], up
    to rounding. With two distinct nodes between a source and a target, the
    two get one x-coordinate, [(1/2) * 1], and the y-coordinates
    [1 - (1/3) * 1] and [1 - (1/3) * 2], one each. *)
Theorem node_positions_layout `{SetOrder} :
  (forall (paths : list (list string)) (s t : string) (num_layers : nat),
      paths <> [] ->
      (forall p, p ∈ paths ->
                 length p = num_layers + 2 /\ p !! 0 = Some s /\ p !! (num_layers + 1) = Some t) ->
      one_position paths ->
      exists d,
        node_positions paths = Ok d
        /\ d !! s = Some (1 # 10, 1 # 2)%Q
        /\ d !! t = Some (9 # 10, 1 # 2)%Q
        /\ forall i, 0 < i < num_layers + 1 ->
             let layer := set_list (column i paths) in
             NoDup layer
             /\ (forall node, node ∈ layer <-> exists p, p ∈ paths /\ p !! i = Some node)
             /\ forall rank node,
                  layer !! rank = Some node ->
                  d !! node
                  = Some ((1 / inject_Z (Z.of_nat num_layers + 1)) * inject_Z (Z.of_nat i),
                          1 - (1 / inject_Z (Z.of_nat (length layer) + 1))
                              * inject_Z (Z.of_nat rank + 1))%Q)
  /\ (forall s a b t : string,
        s <> a -> s <> b -> s <> t -> a <> b -> a <> t -> b <> t ->
        exists d,
          node_positions [[s; a; t]; [s; b; t]] = Ok d
          /\ d !! s = Some (1 # 10, 1 # 2)%Q
          /\ d !! t = Some (9 # 10, 1 # 2)%Q
          /\ ((d !! a = Some ((1 / inject_Z (1 + 1)) * inject_Z 1,
                              1 - (1 / inject_Z (2 + 1)) * inject_Z 1)%Q
               /\ d !! b = Some ((1 / inject_Z (1 + 1)) * inject_Z 1,
                                 1 - (1 / inject_Z (2 + 1)) * inject_Z 2)%Q)
              \/ (d !! a = Some ((1 / inject_Z (1 + 1)) * inject_Z 1,
                                 1 - (1 / inject_Z (2 + 1)) * inject_Z 2)%Q
                  /\ d !! b = Some ((1 / inject_Z (1 + 1)) * inject_Z 1,
                                    1 - (1 / inject_Z (2 + 1)) * inject_Z 1)%Q))).
Proof.
  split.
  - intros paths s t n Hne Hpaths Hone.
    destruct (node_positions_layers paths s t n Hne Hpaths Hone) as (d & Hd & Hs & Ht & Hl).
    exists d. do 3 (split; [done|]). intros i Hi layer.
    split; [apply set_list_NoDup|]. split.
    { intros node. unfold layer. by rewrite set_list_elem, elem_of_column. }
    intros rank node Hrank. rewrite (Hl i rank node Hi Hrank).
    unfold x_position, y_position.
    by replace (Z.of_nat (i - 1) + 1)%Z with (Z.of_nat i) by lia.
  - intros s a b t Hsa Hsb Hst Hab Hat Hbt.
    destruct (node_positions_layers [[s; a; t]; [s; b; t]] s t 1) as (d & Hd & Hs & Ht & Hl).
    { done. }
    { intros p [->|Hp%list_elem_of_singleton]%elem_of_cons; subst; done. }
    { by apply one_position_two_mids. }
    pose proof (Hl 1) as Hl1. change (column 1 [[s; a; t]; [s; b; t]]) with [a; b] in Hl1.
    exists d. split; [done|]. do 2 (split; [done|]).
    destruct (set_list_pair a b Hab) as [E|E]; rewrite E in Hl1.
    + left. split; [apply (Hl1 0 a); [lia|done]|apply (Hl1 1 b); [lia|done]].
    + right. split; [apply (Hl1 1 a); [lia|done]|apply (Hl1 0 b); [lia|done]].
Qed.

Lemma node_positions_layout_witness :
  exists d,
    node_positions [["cat"; "dog"; "wolf"]; ["cat"; "fox"; "wolf"]] = Ok d
    /\ d !! "cat" = Some (1 # 10, 1 # 2)%Q
    /\ d !! "wolf" = Some (9 # 10, 1 # 2)%Q
    /\ ((d !! "dog" = Some ((1 / inject_Z (1 + 1)) * inject_Z 1,
                            1 - (1 / inject_Z (2 + 1)) * inject_Z 1)%Q
         /\ d !! "fox" = Some ((1 / inject_Z (1 + 1)) * inject_Z 1,
                               1 - (1 / inject_Z (2 + 1)) * inject_Z 2)%Q)
        \/ (d !! "dog" = Some ((1 / inject_Z (1 + 1)) * inject_Z 1,
                               1 - (1 / inject_Z (2 + 1)) * inject_Z 2)%Q
            /\ d !! "fox" = Some ((1 / inject_Z (1 + 1)) * inject_Z 1,
                                  1 - (1 / inject_Z (2 + 1)) * inject_Z 1)%Q)).
Proof. by apply (proj2 node_positions_layout "cat" "dog" "fox" "wolf"). Defined.

(** Where the layout leaves the specification as it is stated. A single path of one
    node, which is what the shortest paths from a node to itself are, has no
    target for [node_positions], which fails; and when a node is at
    position 1 of one path and at position 2 of another, it is drawn in the
    second layer only. *)
Lemma node_positions_counterexample :
  (forall O : SetOrder, @node_positions O [["cat"]] = Raise IndexError)
  /\ (forall O : SetOrder,
        exists d y,
          @node_positions O [["s"; "a"; "b"; "t"]; ["s"; "b"; "a"; "t"]] = Ok d
          /\ d !! "a" = Some (x_position 2 1, y)
          /\ (x_position 2 1 == 2 # 3)%Q
          /\ ~ (x_position 2 1 == 1 # 3)%Q).
Proof.
  split.
  - intros O. unfold node_positions.
    change (getitem [["cat"]] 0) with (Ok ["cat"]). cbn [mbind result_bind].
    change (fill_buckets (Z.of_nat (length ["cat"]) - 2) [["cat"]])
      with (Buckets ["cat"] [] []).
    cbn [source_nodes target_nodes]. by rewrite set_list_singleton, set_list_nil.
  - intros O. unfold node_positions.
    change (getitem [["s"; "a"; "b"; "t"]; ["s"; "b"; "a"; "t"]] 0)
      with (Ok ["s"; "a"; "b"; "t"]).
    cbn [mbind result_bind].
    change (fill_buckets _ _)
      with (Buckets ["s"; "s"] ["t"; "t"] [["a"; "b"]; ["b"; "a"]]).
    cbn [source_nodes target_nodes layer_nodes fmap list_fmap].
    assert (Hsrc : set_list ["s"; "s"] = ["s"]).
    { apply set_list_constant; [done|]. intros y Hy. set_solver. }
    assert (Htgt : set_list ["t"; "t"] = ["t"]).
    { apply set_list_constant; [done|]. intros y Hy. set_solver. }
    rewrite Hsrc, Htgt.
    destruct (set_list_pair "a" "b") as [-> | ->]; [done|..];
      (destruct (set_list_pair "b" "a") as [-> | ->]; [done|..]);
      do 2 eexists; (split; [vm_compute; reflexivity|]);
      (split; [vm_compute; reflexivity|]); (split; [reflexivity|done]).
Qed.

(** ** Shortest paths (C3) *)

Lemma is_walk_snoc (G : nx.Graph) (p : list string) (w : string) :
  is_walk G (p ++ [w]) <->
  is_walk G p /\ forall v, last p = Some v -> w ∈ nx.neighbors G v.
Proof.
  induction p as [|u [|u' r] IH].
  - cbn. split; [|done]. intros _. split; [done|]. by intros v.
  - cbn. split.
    + intros [Hw _]. split; [done|]. by intros v [= <-].
    + intros [_ Hw]. split; [|done]. by apply Hw.
  - change (is_walk G ((u :: u' :: r) ++ [w]))
      with (u' ∈ nx.neighbors G u /\ is_walk G ((u' :: r) ++ [w])).
    change (is_walk G (u :: u' :: r)) with (u' ∈ nx.neighbors G u /\ is_walk G (u' :: r)).
    change (last (u :: u' :: r)) with (last (u' :: r)).
    rewrite IH. tauto.
Qed.

Lemma reach_0 (G : nx.Graph) (s v : string) : reach G s 0 v <-> v = s.
Proof.
  split.
  - intros (p & (Hh & Hl & _) & Hlen).
    destruct p as [|x [|y p]]; try done. cbn in Hh, Hl. congruence.
  - intros ->. exists [s]. by repeat split.
Qed.

Lemma reach_S (G : nx.Graph) (s : string) (k : nat) (w : string) :
  reach G s (S k) w <-> exists v, reach G s k v /\ w ∈ nx.neighbors G v.
Proof.
  split.
  - intros (p & (Hh & Hl & Hw) & Hlen).
    destruct p as [|w' p' _] using rev_ind; [done|].
    rewrite last_snoc in Hl. injection Hl as ->.
    rewrite length_app in Hlen. cbn in Hlen.
    apply is_walk_snoc in Hw as [Hw Hadj].
    destruct (last p') as [v|] eqn:Hv.
    + exists v. split; [|by apply Hadj]. exists p'. split; [|lia].
      split; [|done]. destruct p'; [done|]. done.
    + apply last_None in Hv as ->. cbn in Hlen. lia.
  - intros (v & (p & (Hh & Hl & Hw) & Hlen) & Hadj).
    exists (p ++ [w]). split; [|rewrite length_app; cbn; lia].
    split; [by destruct p|]. split; [by rewrite last_snoc|].
    apply is_walk_snoc. split; [done|]. intros v' Hv'. congruence.
Qed.

Lemma path_between_reach (G : nx.Graph) (s t : string) (p : list string) :
  path_between G s t p -> exists k, length p = S k /\ reach G s k t.
Proof.
  intros Hp. destruct p as [|x r]; [by destruct Hp|].
  exists (length r). split; [done|]. by exists (x :: r).
Qed.

Lemma elem_of_level_pairs (G : nx.Graph) (thislevel : list string) (v w : string) :
  (v, w) ∈ level_pairs G thislevel <-> v ∈ thislevel /\ w ∈ nx.neighbors G v.
Proof.
  unfold level_pairs. rewrite list_elem_of_bind. split.
  - intros (v' & Hvw & Hv'). apply list_elem_of_fmap in Hvw as (w' & [= -> ->] & Hw'). done.
  - intros [Hv Hw]. exists v. split; [|done]. apply list_elem_of_fmap. eauto.
Qed.

Lemma scan_level_pairs (G : nx.Graph) (level : nat) (st : nx.bfs_state) :
  nx.scan_level G level st
  = foldl (fun st p => nx.visit level p.1 st p.2)
          (nx.BfsState (nx.seen st) (nx.pred st) []) (level_pairs G (nx.nextlevel st)).
Proof.
  unfold nx.scan_level, level_pairs.
  generalize (nx.BfsState (nx.seen st) (nx.pred st) []) as st0.
  induction (nx.nextlevel st) as [|v l IH]; intros st0; [done|].
  cbn [foldl mbind list_bind]. rewrite foldl_app, foldl_fmap. apply IH.
Qed.

Lemma elem_of_snd_snoc (ps : list (string * string)) (v w w' : string) :
  w' ∈ (ps ++ [(v, w)]).*2 <-> w' ∈ ps.*2 \/ w' = w.
Proof. rewrite fmap_app, elem_of_app. cbn. by rewrite list_elem_of_singleton. Qed.

Lemma not_elem_of_snd_snoc (ps : list (string * string)) (v w w' : string) :
  w' ∉ (ps ++ [(v, w)]).*2 <-> (w' ∉ ps.*2) /\ w' <> w.
Proof. rewrite elem_of_snd_snoc. tauto. Qed.

Lemma elem_of_pair_snoc (ps : list (string * string)) (v w v' w' : string) :
  (v', w') ∈ ps ++ [(v, w)] <-> (v', w') ∈ ps \/ (v' = v /\ w' = w).
Proof. rewrite elem_of_app, list_elem_of_singleton. naive_solver. Qed.

Lemma elem_of_snd (ps : list (string * string)) (v w : string) :
  (v, w) ∈ ps -> w ∈ ps.*2.
Proof. intros H. apply list_elem_of_fmap. by exists (v, w). Qed.

Lemma scan_fold (level : nat) (st0 : nx.bfs_state) (ps : list (string * string)) :
  (forall w k, nx.seen st0 !! w = Some k -> k <> level) ->
  scanned level st0 (foldl (fun st p => nx.visit level p.1 st p.2) st0 ps) ps.
Proof.
  intros Hlevel. induction ps as [|[v w] ps IH] using rev_ind.
  - cbn. split; try done.
    + by intros w _ ?%elem_of_nil.
    + intros w. split; [by left|]. by intros [?|[_ ?%elem_of_nil]].
    + by intros w _ ?%elem_of_nil.
  - rewrite foldl_snoc. cbn [fst snd].
    set (st := foldl _ st0 ps) in *. destruct IH as [Ho Hn Hx Hnl Hpo Hpx Hpn].
    unfold nx.visit. destruct (nx.seen st0 !! w) as [k|] eqn:Hw0.
    + (* [w] was seen at a level before: nothing changes *)
      rewrite (Ho _ _ Hw0). rewrite decide_False by by eapply Hlevel.
      split.
      * exact Ho.
      * intros w' Hw' [?| ->]%elem_of_snd_snoc; [by apply Hn|congruence].
      * intros w' Hw' Hnot. apply Hx; [done|]. rewrite elem_of_snd_snoc in Hnot. tauto.
      * intros w'. rewrite Hnl, elem_of_snd_snoc.
        split; [tauto|]. intros [?|[? [?| ->]]]; [tauto|tauto|congruence].
      * exact Hpo.
      * intros w' Hw' Hnot. apply Hpx; [done|]. rewrite elem_of_snd_snoc in Hnot. tauto.
      * intros w' Hw' [Hin| ->]%elem_of_snd_snoc; [|congruence].
        destruct (Hpn w' Hw' Hin) as (l & Hl & Hmem). exists l. split; [done|].
        intros v'. rewrite Hmem, elem_of_pair_snoc.
        split; [tauto|]. intros [?|[_ ->]]; [done|congruence].
    + destruct (decide (w ∈ ps.*2)) as [Hin|Hnin].
      * (* [w] was seen at this level: one more predecessor *)
        rewrite (Hn _ Hw0 Hin). rewrite decide_True by done.
        split; cbn [nx.seen nx.pred nx.nextlevel].
        -- exact Ho.
        -- intros w' Hw' Hin'. apply elem_of_snd_snoc in Hin' as [?| ->]; by apply Hn.
        -- intros w' Hw' [Hnot _]%not_elem_of_snd_snoc. by apply Hx.
        -- intros w'. rewrite Hnl, elem_of_snd_snoc.
           split; [tauto|]. intros [?|[? [?| ->]]]; tauto.
        -- intros w' k Hw'. rewrite lookup_alter_ne by congruence. by eapply Hpo.
        -- intros w' Hw' [Hnot Hne]%not_elem_of_snd_snoc.
           rewrite lookup_alter_ne by congruence. by apply Hpx.
        -- intros w' Hw' Hin'. destruct (decide (w' = w)) as [->|Hne].
           ++ destruct (Hpn w Hw0 Hin) as (l & Hl & Hmem).
              exists (l ++ [v]). rewrite lookup_alter_eq, Hl. split; [done|].
              intros v'. rewrite elem_of_app, list_elem_of_singleton, Hmem, elem_of_pair_snoc.
              tauto.
           ++ apply elem_of_snd_snoc in Hin' as [Hin'|?]; [|done].
              destruct (Hpn w' Hw' Hin') as (l & Hl & Hmem).
              exists l. rewrite lookup_alter_ne by done. split; [done|].
              intros v'. rewrite Hmem, elem_of_pair_snoc. naive_solver.
      * (* [w] is new *)
        rewrite (Hx _ Hw0 Hnin).
        split; cbn [nx.seen nx.pred nx.nextlevel].
        -- intros w' k Hw'. rewrite lookup_insert_ne by congruence. by apply Ho.
        -- intros w' Hw' [Hin'| ->]%elem_of_snd_snoc; [|apply lookup_insert_eq].
           rewrite lookup_insert_ne by (intros ->; done). by apply Hn.
        -- intros w' Hw' [Hnot Hne]%not_elem_of_snd_snoc.
           rewrite lookup_insert_ne by congruence. by apply Hx.
        -- intros w'. rewrite elem_of_app, list_elem_of_singleton, Hnl, elem_of_snd_snoc.
           split; [naive_solver|]. intros [?|[? [?| ->]]]; tauto.
        -- intros w' k Hw'. rewrite lookup_insert_ne by congruence. by eapply Hpo.
        -- intros w' Hw' [Hnot Hne]%not_elem_of_snd_snoc.
           rewrite lookup_insert_ne by congruence. by apply Hpx.
        -- intros w' Hw' Hin'. destruct (decide (w' = w)) as [->|Hne].
           ++ exists [v]. rewrite lookup_insert_eq. split; [done|].
              intros v'. rewrite list_elem_of_singleton, elem_of_pair_snoc.
              split; [tauto|]. intros [?%elem_of_snd|[? _]]; done.
           ++ apply elem_of_snd_snoc in Hin' as [Hin'|?]; [|done].
              destruct (Hpn w' Hw' Hin') as (l & Hl & Hmem).
              exists l. rewrite lookup_insert_ne by done. split; [done|].
              intros v'. rewrite Hmem, elem_of_pair_snoc. naive_solver.
Qed.

Lemma od_get_elem {K V} `{EqDecision K} (d : list (K * V)) (k : K) (v : V) :
  od_get d k = Some v -> (k, v) ∈ d.
Proof.
  induction d as [|[k' v'] d IH]; cbn; [done|].
  case_decide as Hk; [intros [= <-]; subst; left|intros ?%IH; by right].
Qed.

Lemma size_list_to_set_le (l : list string) : size (list_to_set l : gset string) <= length l.
Proof.
  induction l as [|x l IH]; cbn; [by rewrite size_empty|].
  rewrite size_union_alt, size_singleton.
  pose proof (subseteq_size (list_to_set l ∖ {[x]}) (list_to_set l : gset string)) as Hle.
  assert (size (list_to_set l ∖ {[x]} : gset string) <= size (list_to_set l : gset string))
    by (apply Hle; set_solver).
  lia.
Qed.

Lemma size_names (G : nx.Graph) : size (names G) <= nx.size_bound G.
Proof.
  unfold names, nx.size_bound. etrans; [apply size_list_to_set_le|].
  unfold nx.nodes. by rewrite length_app, !length_fmap.
Qed.

Lemma has_node_names (G : nx.Graph) (n : string) : nx.has_node G n = true -> n ∈ names G.
Proof.
  unfold nx.has_node, od_mem, names. intros [a Ha]%bool_decide_eq_true.
  apply elem_of_list_to_set, elem_of_app. left.
  apply od_get_elem in Ha. unfold nx.nodes. apply list_elem_of_fmap. by exists (n, a).
Qed.

Lemma neighbors_names (G : nx.Graph) (v w : string) :
  w ∈ nx.neighbors G v -> w ∈ names G.
Proof.
  unfold nx.neighbors, names. intros Hw.
  apply elem_of_list_to_set, elem_of_app. right.
  destruct (od_get (nx._adj G) v) as [nbrs|] eqn:Hv; [|by apply elem_of_nil in Hw].
  cbn in Hw. apply list_elem_of_fmap in Hw as ([w' a] & -> & Hw).
  apply od_get_elem in Hv. apply list_elem_of_fmap. exists (v, w', a). split; [done|].
  unfold nx.adjacency_entries. apply list_elem_of_In, in_flat_map.
  exists (v, nbrs). split; [by apply list_elem_of_In|].
  apply list_elem_of_In, list_elem_of_fmap. by exists (w', a).
Qed.

Section bfs.
Variable G : nx.Graph.
Variable source : string.

Lemma bfs_inv_init :
  nx.has_node G source = true ->
  bfs_inv G source 0 (nx.BfsState {[ source := 0 ]} {[ source := [] ]} [source]).
Proof.
  intros Hs. split; cbn [nx.seen nx.pred nx.nextlevel].
  - intros w k [<- <-]%lookup_singleton_Some. split; [done|].
    split; [by apply reach_0|]. intros j _. lia.
  - intros w j Hj Hle. assert (j = 0) as -> by lia. apply reach_0 in Hj as ->.
    by rewrite lookup_singleton_eq.
  - intros w. rewrite list_elem_of_singleton, lookup_singleton_Some. naive_solver.
  - by rewrite !dom_singleton_L.
  - apply lookup_singleton_eq.
  - intros w k l [_ [=]]%lookup_singleton_Some.
  - by rewrite map_size_singleton.
  - rewrite dom_singleton_L. apply singleton_subseteq_l. by apply has_node_names.
Qed.

Lemma bfs_inv_step (L : nat) (st : nx.bfs_state) :
  bfs_inv G source L st -> nx.nextlevel st <> [] ->
  bfs_inv G source (S L) (nx.scan_level G (S L) st).
Proof.
  intros [Hsound Hcomplete Hnext Hdom Hsource Hpred Hcount Hnames] Hnonempty.
  rewrite scan_level_pairs.
  set (st0 := nx.BfsState (nx.seen st) (nx.pred st) []).
  set (ps := level_pairs G (nx.nextlevel st)).
  destruct (scan_fold (S L) st0 ps) as [Ho Hn Hx Hnl Hpo Hpx Hpn].
  { intros w k Hw. apply Hsound in Hw as [Hk _]. lia. }
  cbn [nx.seen nx.pred nx.nextlevel st0] in Ho, Hn, Hx, Hnl, Hpo, Hpx, Hpn.
  set (st' := foldl _ st0 ps) in *.
  assert (Hps : forall w, w ∈ ps.*2 <->
                          exists v, nx.seen st !! v = Some L /\ w ∈ nx.neighbors G v).
  { intros w. rewrite list_elem_of_fmap. split.
    - intros ([v w'] & -> & [Hv Hw]%elem_of_level_pairs). exists v. by rewrite <- Hnext.
    - intros (v & Hv & Hw). exists (v, w). split; [done|].
      apply elem_of_level_pairs. by rewrite Hnext. }
  assert (Hpair : forall v w, (v, w) ∈ ps <->
                              nx.seen st !! v = Some L /\ w ∈ nx.neighbors G v).
  { intros v w. unfold ps. by rewrite elem_of_level_pairs, Hnext. }
  assert (Hcases : forall w,
      (exists k, nx.seen st !! w = Some k /\ nx.seen st' !! w = Some k /\ k <= L)
      \/ (nx.seen st !! w = None /\ w ∈ ps.*2 /\ nx.seen st' !! w = Some (S L))
      \/ (nx.seen st !! w = None /\ (w ∉ ps.*2) /\ nx.seen st' !! w = None)).
  { intros w. destruct (nx.seen st !! w) as [k|] eqn:Hw.
    - left. exists k. split; [done|]. split; [by apply Ho|]. by apply Hsound in Hw as [? _].
    - right. destruct (decide (w ∈ ps.*2)); [left|right]; auto. }
  assert (Hkeep : forall v k, k <= L -> nx.seen st' !! v = Some k <-> nx.seen st !! v = Some k).
  { intros v k Hk. destruct (Hcases v) as [(k0 & H0 & H1 & _)|[(H0 & _ & H1)|(H0 & _ & H1)]];
      rewrite H0, H1; split; try done. intros [= <-]. lia. }
  split.
  - intros w k Hw.
    destruct (Hcases w) as [(k0 & H0 & H1 & Hk0)|[(H0 & Hin & H1)|(H0 & _ & H1)]];
      rewrite H1 in Hw; [| |done].
    + injection Hw as <-. apply Hsound in H0 as (_ & Hr & Hmin). split; [lia|done].
    + injection Hw as <-. split; [done|]. apply Hps in Hin as (v & Hv & Hw).
      apply Hsound in Hv as (_ & Hr & _). split; [apply reach_S; eauto|].
      intros j Hj. destruct (decide (j <= L)) as [Hle|]; [|lia].
      destruct (Hcomplete w j Hj Hle) as [? ?]. congruence.
  - intros w j Hj Hle.
    assert (Hold : is_Some (nx.seen st !! w) -> is_Some (nx.seen st' !! w)).
    { intros [k Hk]. exists k. by apply Ho. }
    destruct (decide (j <= L)) as [Hj'|Hj']; [by apply Hold, (Hcomplete w j)|].
    assert (j = S L) as -> by lia. apply reach_S in Hj as (v & Hv & Hw).
    destruct (Hcomplete v L Hv) as [k Hk]; [done|].
    destruct (Hsound v k Hk) as (HkL & Hrk & _).
    destruct (decide (k = L)) as [->|Hne].
    + destruct (Hcases w) as [(k0 & _ & H1 & _)|[(_ & _ & H1)|(_ & Hnot & _)]];
        [by rewrite H1|by rewrite H1|].
      exfalso. apply Hnot, Hps. eauto.
    + apply Hold, (Hcomplete w (S k)); [|lia]. apply reach_S. eauto.
  - intros w. rewrite Hnl.
    destruct (Hcases w) as [(k0 & H0 & H1 & Hk0)|[(H0 & Hin & H1)|(H0 & Hnot & H1)]];
      rewrite H1.
    + split; [intros [[]%elem_of_nil|[? _]]; congruence|intros [= ->]; lia].
    + split; [done|]. intros _. by right.
    + split; [|done]. intros [[]%elem_of_nil|[_ ?]]. done.
  - apply set_eq. intros w. rewrite !elem_of_dom.
    destruct (Hcases w) as [(k0 & H0 & H1 & Hk0)|[(H0 & Hin & H1)|(H0 & Hnot & H1)]];
      rewrite H1.
    + rewrite (Hpo _ _ H0). rewrite <- !elem_of_dom, Hdom, elem_of_dom, H0. naive_solver.
    + destruct (Hpn w H0 Hin) as (l & -> & _). naive_solver.
    + rewrite (Hpx _ H0 Hnot). rewrite <- !elem_of_dom, Hdom, !elem_of_dom, H0.
      split; intros [? ?]; done.
  - assert (is_Some (nx.seen st !! source)) as [k Hk].
    { apply elem_of_dom. rewrite <- Hdom. apply elem_of_dom. by rewrite Hsource. }
    by rewrite (Hpo _ _ Hk).
  - intros w k l Hw Hl v.
    destruct (Hcases w) as [(k0 & H0 & H1 & Hk0)|[(H0 & Hin & H1)|(H0 & Hnot & H1)]];
      rewrite H1 in Hw; [| |done].
    + injection Hw as ->. rewrite (Hpo _ _ H0) in Hl.
      rewrite (Hpred w k l H0 Hl v), (Hkeep v k) by lia. done.
    + injection Hw as <-. destruct (Hpn w H0 Hin) as (l' & Hl' & Hmem).
      rewrite Hl' in Hl. injection Hl as ->. by rewrite Hmem, Hpair, Hkeep.
  - assert (Hsub : dom (nx.seen st) ⊆ dom (nx.seen st')).
    { intros w [k Hk]%elem_of_dom. apply elem_of_dom. exists k. by apply Ho. }
    destruct (nx.nextlevel st') as [|w nl] eqn:Hnl'.
    + etrans; [|rewrite <- size_dom; apply subseteq_size, Hsub; by rewrite size_dom].
      rewrite size_dom. destruct (nx.nextlevel st); [done|lia].
    + assert (Hw : w ∈ w :: nl) by left.
      apply Hnl in Hw as [[]%elem_of_nil|[H0 Hin]].
      assert (Hlt : size (dom (nx.seen st)) < size (dom (nx.seen st'))).
      { apply subset_size. split; [done|]. intros Hsup.
        assert (w ∈ dom (nx.seen st)) as [? ?]%elem_of_dom; [|congruence].
        apply Hsup, elem_of_dom. rewrite (Hn _ H0 Hin). done. }
      rewrite !size_dom in Hlt. destruct (nx.nextlevel st); [done|lia].
  - intros w [k Hk]%elem_of_dom.
    destruct (Hcases w) as [(k0 & H0 & H1 & Hk0)|[(H0 & Hin & H1)|(H0 & Hnot & H1)]].
    + apply Hnames, elem_of_dom. eauto.
    + apply Hps in Hin as (v & _ & Hw). by eapply neighbors_names.
    + congruence.
Qed.

Lemma bfs_inv_final (L : nat) (st : nx.bfs_state) :
  bfs_inv G source L st -> nx.nextlevel st = [] -> bfs_final G source (nx.pred st) (nx.seen st).
Proof.
  intros [Hsound Hcomplete Hnext Hdom Hsource Hpred Hcount Hnames] Hnil.
  rewrite Hnil in Hcount, Hnext.
  assert (Hlt : forall w k, nx.seen st !! w = Some k -> k < L).
  { intros w k Hw. destruct (Hsound w k Hw) as [Hle _].
    destruct (decide (k = L)) as [->|]; [|lia].
    apply Hnext in Hw. by apply elem_of_nil in Hw. }
  split; [| |done|done|done].
  - intros w k Hw. destruct (Hsound w k Hw) as (_ & Hr & Hmin).
    do 2 (split; [done|]). rewrite <- size_dom, Hdom, size_dom.
    specialize (Hlt w k Hw). lia.
  - intros w j. revert w. induction j as [|j IH]; intros w Hw.
    + apply reach_0 in Hw as ->. apply elem_of_dom. rewrite <- Hdom.
      apply elem_of_dom. by rewrite Hsource.
    + apply reach_S in Hw as (v & Hv & Hw). destruct (IH v Hv) as [k Hk].
      destruct (Hsound v k Hk) as (_ & Hr & _). specialize (Hlt v k Hk).
      apply (Hcomplete w (S k)); [|lia]. apply reach_S. eauto.
Qed.

Lemma predecessor_loop_spec (fuel L : nat) (st : nx.bfs_state) :
  bfs_inv G source L st ->
  S (nx.size_bound G) <= L + fuel ->
  exists P S_, nx.predecessor_loop fuel G L st = Ok P /\ bfs_final G source P S_.
Proof.
  revert L st. induction fuel as [|fuel IH]; intros L st Hinv Hfuel.
  - destruct (nx.nextlevel st) as [|v nl] eqn:Hnl.
    + exists (nx.pred st), (nx.seen st). cbn. rewrite Hnl.
      split; [done|]. by eapply bfs_inv_final.
    + exfalso. pose proof (inv_count _ _ _ _ Hinv) as Hc. rewrite Hnl in Hc.
      pose proof (subseteq_size _ _ (inv_names _ _ _ _ Hinv)) as Hn.
      rewrite size_dom in Hn. pose proof (size_names G). lia.
  - cbn. destruct (nx.nextlevel st) as [|v nl] eqn:Hnl.
    + exists (nx.pred st), (nx.seen st). split; [done|]. by eapply bfs_inv_final.
    + apply IH; [|lia]. apply bfs_inv_step; [done|]. by rewrite Hnl.
Qed.

Lemma predecessor_spec :
  nx.has_node G source = true ->
  exists P S_, nx.predecessor G source = Ok P /\ bfs_final G source P S_.
Proof.
  intros Hs. unfold nx.predecessor. rewrite Hs.
  apply predecessor_loop_spec; [by apply bfs_inv_init|lia].
Qed.

Lemma map_result_concat {A B} (f : A -> result (list B)) (l : list A) (rs : list (list B)) (q : B) :
  map_result f l = Ok rs ->
  q ∈ concat rs <-> exists x r, x ∈ l /\ f x = Ok r /\ q ∈ r.
Proof.
  revert rs. induction l as [|a l IH]; intros rs; cbn.
  - intros [= <-]. cbn. split; [by intros ?%elem_of_nil|].
    by intros (x & r & ?%elem_of_nil & _).
  - destruct (f a) as [r|e] eqn:Ha; cbn; [|done].
    destruct (map_result f l) as [rs'|e]; cbn; [|done].
    intros [= <-]. cbn. rewrite elem_of_app, (IH rs') by done. split.
    + intros [Hq|(x & r' & Hx & Hr' & Hq)].
      * exists a, r. split; [left|done].
      * exists x, r'. split; [by right|done].
    + intros (x & r' & [->|Hx]%elem_of_cons & Hr' & Hq).
      * left. congruence.
      * right. eauto.
Qed.

Lemma build_paths_spec (P : gmap string (list string)) (S_ : gmap string nat) :
  bfs_final G source P S_ ->
  forall fuel node k seen stack,
    S_ !! node = Some k ->
    k < fuel ->
    (forall x, x ∈ seen -> exists kx, S_ !! x = Some kx /\ k <= kx) ->
    exists R,
      nx.build_paths fuel source P seen node stack = Ok R
      /\ forall q, q ∈ R <->
                   exists p, q = p ++ stack /\ path_between G source node p /\ length p = S k.
Proof.
  intros [Hsound Hcomplete Hdom Hsource Hpred].
  induction fuel as [|fuel IH]; intros node k seen stack Hnode Hk Hseen; [lia|].
  cbn [nx.build_paths].
  assert (is_Some (P !! node)) as [preds Hpreds].
  { apply elem_of_dom. rewrite Hdom. apply elem_of_dom. eauto. }
  unfold dict_getitem. rewrite Hpreds. cbn [mbind result_bind].
  destruct (Hsound node k Hnode) as (Hreach & Hmin & _).
  destruct k as [|k].
  - apply reach_0 in Hreach as ->. rewrite Hsource in Hpreds. injection Hpreds as <-.
    cbn. rewrite decide_True by done. eexists. split; [done|].
    intros q. rewrite app_nil_r, list_elem_of_singleton. split.
    + intros ->. exists [source]. by repeat split.
    + intros (p & -> & (Hh & _ & _) & Hlen).
      destruct p as [|x [|y p]]; try done. cbn in Hh. by injection Hh as ->.
  - assert (Hne : node <> source).
    { intros ->. assert (S k <= 0); [|lia]. by apply Hmin, reach_0. }
    assert (Hcall : forall next, next ∈ preds ->
      exists R,
        (if decide (next ∈ seen) then Ok []
         else nx.build_paths fuel source P (next :: seen) next (node :: stack)) = Ok R
        /\ forall q, q ∈ R <->
             exists p, q = p ++ node :: stack /\ path_between G source next p /\ length p = S k).
    { intros next Hnext. apply (Hpred node k preds Hnode Hpreds) in Hnext as [Hlevel Hadj].
      rewrite decide_False.
      - apply IH; [done|lia|]. intros x [->|Hx]%elem_of_cons; [eauto|].
        destruct (Hseen x Hx) as (kx & Hkx & Hle). exists kx. split; [done|lia].
      - intros Hin. destruct (Hseen next Hin) as (kx & Hkx & Hle).
        rewrite Hlevel in Hkx. injection Hkx as <-. lia. }
    destruct (map_result_total
                (fun next =>
                   if decide (next ∈ seen) then Ok []
                   else nx.build_paths fuel source P (next :: seen) next (node :: stack))
                preds) as [below Hbelow].
    { intros next Hnext. destruct (Hcall next Hnext) as (R & HR & _). eauto. }
    rewrite Hbelow. cbn [mbind result_bind]. rewrite decide_False by done.
    eexists. split; [done|]. intros q. cbn [app].
    rewrite (map_result_concat _ _ _ _ Hbelow). split.
    + intros (next & r & Hnext & Hr & Hq).
      destruct (Hcall next Hnext) as (R & HR & Hspec). rewrite HR in Hr. injection Hr as ->.
      apply Hspec in Hq as (p' & -> & (Hh & Hl & Hw) & Hlen).
      apply (Hpred node k preds Hnode Hpreds) in Hnext as [_ Hadj].
      exists (p' ++ [node]). split; [by rewrite <- app_assoc|]. split.
      * split; [by destruct p'|]. split; [by rewrite last_snoc|].
        apply is_walk_snoc. split; [done|]. intros v Hv. congruence.
      * rewrite length_app. cbn. lia.
    + intros (p & -> & (Hh & Hl & Hw) & Hlen).
      destruct p as [|x p' _] using rev_ind; [done|].
      rewrite last_snoc in Hl. injection Hl as ->.
      rewrite length_app in Hlen. cbn in Hlen.
      apply is_walk_snoc in Hw as [Hw Hadj].
      destruct (last p') as [v|] eqn:Hv; [|apply last_None in Hv as ->; cbn in Hlen; lia].
      specialize (Hadj v eq_refl).
      assert (Hrv : reach G source k v).
      { exists p'. split; [|lia]. split; [by destruct p'|done]. }
      assert (Hlevel : S_ !! v = Some k).
      { destruct (Hcomplete v k Hrv) as [j Hj].
        destruct (Hsound v j Hj) as (Hrj & Hminj & _).
        assert (j <= k) by by apply Hminj.
        assert (S k <= S j) by (apply Hmin, reach_S; eauto).
        assert (j = k) as -> by lia. done. }
      assert (Hin : v ∈ preds) by by apply (Hpred node k preds Hnode Hpreds).
      destruct (Hcall v Hin) as (R & HR & Hspec).
      exists v, R. split; [done|]. split; [done|].
      apply Hspec. exists p'. split; [by rewrite <- app_assoc|].
      split; [|lia]. split; [by destruct p'|done].
Qed.

(** [nx.all_shortest_paths] from a node of the graph: the paths of minimum
    length to a target that can be reached, and the exception
    [NetworkXNoPath] for a target that cannot. *)
Lemma all_shortest_paths_spec (target : string) :
  nx.has_node G source = true ->
  (connected G source target ->
   exists paths,
     nx.all_shortest_paths G source target = Ok paths
     /\ forall p, p ∈ paths <-> shortest_between G source target p)
  /\ (~ connected G source target ->
      nx.all_shortest_paths G source target = Raise NetworkXNoPath).
Proof.
  intros Hs. destruct (predecessor_spec Hs) as (P & S_ & HP & Hfin).
  unfold nx.all_shortest_paths, nx._build_paths_from_predecessors.
  rewrite HP. cbn [mbind result_bind]. unfold dict_contains. split.
  - intros (p0 & Hp0). destruct (path_between_reach _ _ _ _ Hp0) as (k0 & Hlen0 & Hr0).
    destruct (fin_complete _ _ _ _ Hfin target k0 Hr0) as [k Hk].
    rewrite bool_decide_eq_true_2.
    2:{ apply elem_of_dom. rewrite (fin_dom _ _ _ _ Hfin). apply elem_of_dom. eauto. }
    destruct (fin_sound _ _ _ _ Hfin target k Hk) as (Hrk & Hmin & Hsize).
    destruct (build_paths_spec P S_ Hfin (S (size P)) target k [target] [])
      as (R & HR & Hspec); [done|lia| |].
    { intros x ->%list_elem_of_singleton. eauto. }
    exists R. split; [done|]. intros p. rewrite Hspec. split.
    + intros (p' & -> & Hp & Hlen). rewrite app_nil_r. split; [done|].
      intros q Hq. destruct (path_between_reach _ _ _ _ Hq) as (j & -> & Hj).
      rewrite Hlen. apply le_n_S. by apply Hmin.
    + intros [Hp Hshort]. exists p. rewrite app_nil_r. split; [done|]. split; [done|].
      destruct (path_between_reach _ _ _ _ Hp) as (j & Hlen & Hj).
      destruct Hrk as (pk & Hpk & Hlenk). specialize (Hshort pk Hpk).
      specialize (Hmin j Hj). lia.
  - intros Hnot. rewrite bool_decide_eq_false_2; [done|]. intros [l Hl].
    assert (is_Some (S_ !! target)) as [k Hk].
    { apply elem_of_dom. rewrite <- (fin_dom _ _ _ _ Hfin). apply elem_of_dom. eauto. }
    destruct (fin_sound _ _ _ _ Hfin target k Hk) as ((p & Hp & _) & _). apply Hnot. by exists p.
Qed.

(** The two outcomes of [nx.all_shortest_paths] from a node of the graph:
    the bounds on the two loops are never met. *)
Lemma all_shortest_paths_outcome (target : string) :
  nx.has_node G source = true ->
  (exists paths, nx.all_shortest_paths G source target = Ok paths)
  \/ nx.all_shortest_paths G source target = Raise NetworkXNoPath.
Proof.
  intros Hs. destruct (predecessor_spec Hs) as (P & S_ & _ & Hfin).
  destruct (all_shortest_paths_spec target Hs) as [Hyes Hno].
  destruct (S_ !! target) as [k|] eqn:Hk.
  - left. destruct (fin_sound _ _ _ _ Hfin target k Hk) as ((p & Hp & _) & _).
    destruct Hyes as (paths & Hpaths & _); [by exists p|]. eauto.
  - right. apply Hno. intros (p & Hp).
    destruct (path_between_reach _ _ _ _ Hp) as (j & _ & Hj).
    destruct (fin_complete _ _ _ _ Hfin target j Hj) as [? ?]. congruence.
Qed.

End bfs.

(** *** No path is returned twice *)

Lemma level_pairs_NoDup (G : nx.Graph) (thislevel : list string) :
  simple_adjacency G -> NoDup thislevel -> NoDup (level_pairs G thislevel).
Proof.
  intros Hsimple Hnd. unfold level_pairs. apply NoDup_bind; [| |done].
  - intros x1 x2 y _ _ (w1 & -> & _)%list_elem_of_fmap (w2 & [= -> _] & _)%list_elem_of_fmap.
    done.
  - intros x _. apply NoDup_fmap_2_strong; [|apply Hsimple]. by intros w1 w2 _ _ [= ->].
Qed.

Lemma scan_fold_NoDup (level : nat) (st0 : nx.bfs_state) (ps : list (string * string)) :
  (forall w k, nx.seen st0 !! w = Some k -> k <> level) ->
  nx.nextlevel st0 = [] ->
  unique_lists (nx.pred st0) ->
  NoDup ps ->
  NoDup (nx.nextlevel (foldl (fun st p => nx.visit level p.1 st p.2) st0 ps))
  /\ unique_lists (nx.pred (foldl (fun st p => nx.visit level p.1 st p.2) st0 ps)).
Proof.
  intros Hlevel Hnil Hunique. induction ps as [|[v w] ps IH] using rev_ind; intros Hnd.
  - cbn. rewrite Hnil. split; [constructor|done].
  - apply NoDup_app in Hnd as (Hnd & Hfresh & _). destruct (IH Hnd) as [IHnl IHpred].
    destruct (scan_fold level st0 ps Hlevel) as [Ho Hn Hx Hnl Hpo Hpx Hpn].
    rewrite foldl_snoc. cbn [fst snd]. set (st := foldl _ st0 ps) in *.
    unfold nx.visit. destruct (nx.seen st !! w) as [k|] eqn:Hw.
    + destruct (decide (k = level)) as [->|Hne]; [|done].
      cbn [nx.nextlevel nx.pred]. split; [done|].
      intros w' l' Hl'. rewrite lookup_alter in Hl'.
      destruct (decide (w = w')) as [<-|Hww]; [|by eapply IHpred].
      destruct (nx.pred st !! w) as [l|] eqn:Hl; [|done]. injection Hl' as <-.
      assert (Hw0 : nx.seen st0 !! w = None).
      { destruct (nx.seen st0 !! w) as [k0|] eqn:E; [|done].
        rewrite (Ho _ _ E) in Hw. injection Hw as ->. by apply Hlevel in E. }
      assert (Hin : w ∈ ps.*2).
      { destruct (decide (w ∈ ps.*2)); [done|]. rewrite Hx in Hw; done. }
      destruct (Hpn w Hw0 Hin) as (l1 & Hl1 & Hmem). rewrite Hl in Hl1. injection Hl1 as <-.
      apply NoDup_app. split; [by eapply IHpred|]. split; [|apply NoDup_singleton].
      intros v' Hv' ->%list_elem_of_singleton. apply Hmem in Hv'.
      apply (Hfresh _ Hv'). left.
    + cbn [nx.nextlevel nx.pred]. split.
      * apply NoDup_app. split; [done|]. split; [|apply NoDup_singleton].
        intros w' Hw' ->%list_elem_of_singleton. apply Hnl in Hw' as [Hw'|[Hw0 Hin]].
        -- rewrite Hnil in Hw'. by apply elem_of_nil in Hw'.
        -- rewrite (Hn _ Hw0 Hin) in Hw. done.
      * intros w' l' Hl'. rewrite lookup_insert in Hl'.
        destruct (decide (w = w')) as [<-|Hww]; [|by eapply IHpred].
        injection Hl' as <-. apply NoDup_singleton.
Qed.

Lemma map_result_concat_NoDup {A B} (f : A -> result (list B)) (key : B -> A -> Prop)
    (l : list A) (rs : list (list B)) :
  map_result f l = Ok rs ->
  NoDup l ->
  (forall x r, x ∈ l -> f x = Ok r -> NoDup r /\ forall q, q ∈ r -> key q x) ->
  (forall q x y, key q x -> key q y -> x = y) ->
  NoDup (concat rs).
Proof.
  intros Hrs Hnd Hf Hkey. revert rs Hrs.
  induction Hnd as [|a l Ha Hnd IH]; intros rs; cbn.
  - intros [= <-]. constructor.
  - destruct (f a) as [r|e] eqn:Hfa; cbn; [|done].
    destruct (map_result f l) as [rs'|e] eqn:Hrs'; cbn; [|done].
    intros [= <-]. cbn. destruct (Hf a r) as [Hr Hka]; [left|done|].
    apply NoDup_app. split; [done|]. split.
    + intros q Hq Hq'. apply (map_result_concat _ _ _ _ Hrs') in Hq' as (x & r' & Hx & Hr' & Hqx).
      destruct (Hf x r') as [_ Hkx]; [by right|done|].
      apply Ha. by rewrite (Hkey q a x) by auto.
    + apply IH; [|done]. intros x r' Hx. apply Hf. by right.
Qed.

Section bfs_NoDup.
Variable G : nx.Graph.
Variable source : string.
Hypothesis Hsimple : simple_adjacency G.

Lemma predecessor_loop_NoDup (fuel L : nat) (st : nx.bfs_state) (P : gmap string (list string)) :
  bfs_inv G source L st ->
  NoDup (nx.nextlevel st) ->
  unique_lists (nx.pred st) ->
  nx.predecessor_loop fuel G L st = Ok P ->
  unique_lists P.
Proof.
  revert L st. induction fuel as [|fuel IH]; intros L st Hinv Hnl Hpred; cbn.
  - destruct (nx.nextlevel st); [by intros [= <-]|done].
  - destruct (nx.nextlevel st) as [|v nl] eqn:E; [by intros [= <-]|].
    assert (Hstep : NoDup (nx.nextlevel (nx.scan_level G (S L) st))
                    /\ unique_lists (nx.pred (nx.scan_level G (S L) st))).
    { rewrite scan_level_pairs. apply scan_fold_NoDup; [|done|done|].
      - intros w k Hw. apply (inv_sound _ _ _ _ Hinv) in Hw as [Hk _]. cbn in Hk. lia.
      - apply level_pairs_NoDup; [done|]. by rewrite E. }
    destruct Hstep as [Hnl' Hpred']. apply IH; [|done|done].
    apply bfs_inv_step; [done|]. by rewrite E.
Qed.

Lemma build_paths_NoDup (P : gmap string (list string)) (S_ : gmap string nat) :
  bfs_final G source P S_ ->
  unique_lists P ->
  forall fuel node k seen stack R,
    S_ !! node = Some k ->
    k < fuel ->
    (forall x, x ∈ seen -> exists kx, S_ !! x = Some kx /\ k <= kx) ->
    nx.build_paths fuel source P seen node stack = Ok R ->
    NoDup R.
Proof.
  intros Hfin Hunique. induction fuel as [|fuel IH]; intros node k seen stack R Hnode Hk Hseen;
    [lia|].
  cbn [nx.build_paths]. intros HR.
  apply bind_Ok in HR as (preds & Hpreds & HR).
  apply bind_Ok in HR as (below & Hbelow & [= <-]).
  unfold dict_getitem in Hpreds.
  destruct (P !! node) as [preds'|] eqn:HP; [|done]. injection Hpreds as ->.
  destruct (fin_sound _ _ _ _ Hfin node k Hnode) as (Hreach & Hmin & _).
  destruct k as [|k].
  - apply reach_0 in Hreach as ->. rewrite (fin_source _ _ _ _ Hfin) in HP.
    injection HP as <-. cbn in Hbelow. injection Hbelow as <-.
    rewrite decide_True by done. cbn. apply NoDup_singleton.
  - assert (Hne : node <> source).
    { intros ->. assert (S k <= 0); [|lia]. by apply Hmin, reach_0. }
    rewrite decide_False by done. cbn [app].
    apply (map_result_concat_NoDup _
             (fun q next => exists p, q = p ++ node :: stack /\ last p = Some next)
             _ _ Hbelow).
    + by eapply Hunique.
    + intros next r Hnext Hr.
      apply (fin_pred _ _ _ _ Hfin node k preds Hnode HP) in Hnext as [Hlevel Hadj].
      assert (Hfresh : next ∉ seen).
      { intros Hin. destruct (Hseen next Hin) as (kx & Hkx & Hle).
        rewrite Hlevel in Hkx. injection Hkx as <-. lia. }
      rewrite decide_False in Hr by done.
      assert (Hseen' : forall x, x ∈ next :: seen -> exists kx, S_ !! x = Some kx /\ k <= kx).
      { intros x [->|Hx]%elem_of_cons; [eauto|].
        destruct (Hseen x Hx) as (kx & Hkx & Hle). exists kx. split; [done|lia]. }
      split; [eapply (IH next k); [done|lia|done|done]|].
      destruct (build_paths_spec G source P S_ Hfin fuel next k (next :: seen) (node :: stack))
        as (R' & HR' & Hspec); [done|lia|done|].
      rewrite HR' in Hr. injection Hr as <-.
      intros q (p & -> & (_ & Hl & _) & _)%Hspec. by exists p.
    + intros q x y (p1 & -> & H1) (p2 & E & H2).
      apply app_inv_tail in E as ->. congruence.
Qed.

Lemma all_shortest_paths_NoDup (target : string) (paths : list (list string)) :
  nx.has_node G source = true ->
  nx.all_shortest_paths G source target = Ok paths ->
  NoDup paths.
Proof.
  intros Hs. destruct (predecessor_spec G source Hs) as (P & S_ & HP & Hfin).
  unfold nx.all_shortest_paths, nx._build_paths_from_predecessors.
  rewrite HP. cbn [mbind result_bind]. unfold dict_contains.
  case_bool_decide as Ht; [|done].
  assert (is_Some (S_ !! target)) as [k Hk].
  { apply elem_of_dom. rewrite <- (fin_dom _ _ _ _ Hfin). by apply elem_of_dom. }
  destruct (fin_sound _ _ _ _ Hfin target k Hk) as (_ & _ & Hsize).
  apply (build_paths_NoDup P S_ Hfin) with (k := k); [|done|lia|].
  - unfold nx.predecessor in HP. rewrite Hs in HP.
    eapply predecessor_loop_NoDup; [by apply bfs_inv_init| | |exact HP].
    + apply NoDup_singleton.
    + intros w l Hl. cbn [nx.pred] in Hl.
      apply lookup_singleton_Some in Hl as [_ <-]. constructor.
  - intros x ->%list_elem_of_singleton. eauto.
Qed.

End bfs_NoDup.

Lemma closedb_closed (G : nx.Graph) : closedb G = true -> closed G.
Proof.
  unfold closedb, closed, nx.neighbors. intros Hall v w Hw.
  destruct (od_get (nx._adj G) v) as [nbrs|] eqn:Hv; [|by apply elem_of_nil in Hw].
  apply od_get_elem in Hv. cbn in Hw. apply list_elem_of_fmap in Hw as ([w' a] & -> & Hw).
  apply forallb_Forall in Hall. rewrite Forall_forall in Hall.
  specialize (Hall _ Hv). cbn in Hall.
  apply forallb_Forall in Hall. rewrite Forall_forall in Hall.
  by apply (Hall _ Hw).
Qed.

Lemma absent_not_connected (G : nx.Graph) (source target : string) :
  closed G -> nx.has_node G source = true -> nx.has_node G target = false ->
  ~ connected G source target.
Proof.
  intros Hclosed Hs Ht (p & Hp).
  destruct (path_between_reach _ _ _ _ Hp) as ([|k] & _ & Hr).
  - apply reach_0 in Hr as ->. congruence.
  - apply reach_S in Hr as (v & _ & Hadj). apply Hclosed in Hadj. congruence.
Qed.

(** C3, as the library has it. From a source that the graph does not have,
    [shortest_paths] fails with [NodeNotFound]. From a source of the graph
    it returns, for a target connected to it, the list of the paths from
    the source to the target of minimum length, every one of them and no
    other list of nodes, each once when no adjacency names a neighbour
    twice; for a target not connected to it, and so for a
    target that the graph does not have, it fails with [NetworkXNoPath].
    The bounds that the embedding puts on the loops of the library are
    never met. *)
Theorem shortest_paths_all (G : nx.Graph) (source target : string) :
  (nx.has_node G source = false ->
   shortest_paths G source target = Raise NodeNotFound)
  /\ (nx.has_node G source = true -> connected G source target ->
      exists paths,
        shortest_paths G source target = Ok paths
        /\ (forall p, p ∈ paths <-> shortest_between G source target p)
        /\ (simple_adjacency G -> NoDup paths))
  /\ (nx.has_node G source = true -> ~ connected G source target ->
      shortest_paths G source target = Raise NetworkXNoPath)
  /\ (closed G -> nx.has_node G source = true -> nx.has_node G target = false ->
      shortest_paths G source target = Raise NetworkXNoPath)
  /\ shortest_paths G source target <> Raise OutOfFuel.
Proof.
  unfold shortest_paths.
  assert (Habsent : nx.has_node G source = false ->
                    nx.all_shortest_paths G source target = Raise NodeNotFound).
  { intros Hs. unfold nx.all_shortest_paths, nx.predecessor. by rewrite Hs. }
  split; [done|]. split; [|split; [|split]].
  - intros Hs Hconn.
    destruct (proj1 (all_shortest_paths_spec G source target Hs) Hconn) as (paths & Hp & Hmem).
    exists paths. do 2 (split; [done|]). intros Hsimple.
    by eapply all_shortest_paths_NoDup.
  - intros Hs. by apply all_shortest_paths_spec.
  - intros Hclosed Hs Ht. apply all_shortest_paths_spec; [done|].
    by apply absent_not_connected.
  - destruct (nx.has_node G source) eqn:Hs.
    + destruct (all_shortest_paths_outcome G source target Hs) as [[paths ->]| ->]; done.
    + by rewrite Habsent.
Qed.

Lemma shortest_paths_all_witness :
  exists paths,
    shortest_paths (create_base_graph scenario_df) "cat" "wolf" = Ok paths
    /\ (forall p, p ∈ paths <-> shortest_between (create_base_graph scenario_df) "cat" "wolf" p)
    /\ (simple_adjacency (create_base_graph scenario_df) -> NoDup paths).
Proof.
  apply (proj1 (proj2 (shortest_paths_all (create_base_graph scenario_df) "cat" "wolf"))).
  - reflexivity.
  - exists ["cat"; "dog"; "wolf"]. split; [reflexivity|]. split; [reflexivity|].
    cbn [is_walk]. split; [by_compute|]. split; [by_compute|exact I].
Defined.

(** The target that the graph does not have: the failure is the one of a
    target that cannot be reached, not [NodeNotFound]. *)
Lemma shortest_paths_absent_target :
  nx.has_node (create_base_graph scenario_df) "cat" = true
  /\ nx.has_node (create_base_graph scenario_df) "yeti" = false
  /\ shortest_paths (create_base_graph scenario_df) "cat" "yeti" = Raise NetworkXNoPath
  /\ shortest_paths (create_base_graph scenario_df) "cat" "yeti" <> Raise NodeNotFound.
Proof.
  assert (H : shortest_paths (create_base_graph scenario_df) "cat" "yeti"
              = Raise NetworkXNoPath) by (vm_compute; reflexivity).
  split; [reflexivity|]. split; [reflexivity|]. split; [exact H|]. by rewrite H.
Qed.

(** ** The base graph *)

Lemma od_get_set {K V} `{EqDecision K} (d : list (K * V)) (k k' : K) (v : V) :
  od_get (od_set d k v) k' = if decide (k = k') then Some v else od_get d k'.
Proof.
  induction d as [|[k0 v0] d IH]; cbn; [done|].
  destruct (decide (k0 = k)) as [->|Hne]; cbn.
  - by destruct (decide (k = k')).
  - rewrite IH. destruct (decide (k0 = k')), (decide (k = k')); congruence.
Qed.

Lemma od_get_alter {K V} `{EqDecision K} (f : V -> V) (d : list (K * V)) (k k' : K) :
  od_get (od_alter f d k) k' = if decide (k = k') then f <$> od_get d k else od_get d k'.
Proof.
  induction d as [|[k0 v0] d IH]; cbn; [by destruct (decide (k = k'))|].
  destruct (decide (k0 = k)) as [->|Hne]; cbn.
  - by destruct (decide (k = k')).
  - rewrite IH. destruct (decide (k0 = k')), (decide (k = k')); congruence.
Qed.

Lemma has_node_is_Some (G : nx.Graph) (n : string) :
  nx.has_node G n = true <-> is_Some (od_get (nx._node G) n).
Proof. unfold nx.has_node, od_mem. apply bool_decide_eq_true. Qed.

Lemma ensure_node_node (G : nx.Graph) (n n' : string) :
  is_Some (od_get (nx._node (nx.ensure_node G n)) n')
  <-> n' = n \/ is_Some (od_get (nx._node G) n').
Proof.
  unfold nx.ensure_node, od_mem. case_bool_decide as Hn; cbn.
  - split; [by right|]. by intros [->|?].
  - rewrite od_get_set. case_decide; subst; naive_solver.
Qed.

Lemma ensure_node_adj (G : nx.Graph) (n n' : string) :
  (is_Some (od_get (nx._node G) n) <-> is_Some (od_get (nx._adj G) n)) ->
  od_get (nx._adj (nx.ensure_node G n)) n'
  = if decide (n' = n) then Some (default [] (od_get (nx._adj G) n)) else od_get (nx._adj G) n'.
Proof.
  intros Hkeys. unfold nx.ensure_node, od_mem. case_bool_decide as Hn; cbn.
  - case_decide; [subst|done]. apply Hkeys in Hn as [nbrs ->]. done.
  - rewrite od_get_set. case_decide; subst.
    + rewrite decide_True by done. f_equal.
      destruct (od_get (nx._adj G) n') eqn:E; [|done]. exfalso. apply Hn, Hkeys. eauto.
    + by rewrite decide_False by done.
Qed.

Lemma od_set_keys {K V} `{EqDecision K} (d : list (K * V)) (k w : K) (v : V) :
  w ∈ (od_set d k v).*1 <-> w = k \/ w ∈ d.*1.
Proof.
  induction d as [|[k0 v0] d IH]; cbn.
  - rewrite list_elem_of_singleton. split; [by left|]. by intros [?|?%elem_of_nil].
  - destruct (decide (k0 = k)) as [->|Hne]; cbn; rewrite !elem_of_cons; [tauto|].
    rewrite IH. tauto.
Qed.

Lemma ensure_node_neighbors (G : nx.Graph) (n x : string) :
  (is_Some (od_get (nx._node G) n) <-> is_Some (od_get (nx._adj G) n)) ->
  nx.neighbors (nx.ensure_node G n) x = nx.neighbors G x.
Proof.
  intros Hkeys. unfold nx.neighbors. rewrite ensure_node_adj by done.
  by case_decide; subst.
Qed.

Lemma ensure_node_keys (G : nx.Graph) (n : string) :
  (forall m, is_Some (od_get (nx._node G) m) <-> is_Some (od_get (nx._adj G) m)) ->
  forall m, is_Some (od_get (nx._node (nx.ensure_node G n)) m)
            <-> is_Some (od_get (nx._adj (nx.ensure_node G n)) m).
Proof.
  intros Hkeys m. rewrite ensure_node_node, ensure_node_adj by apply Hkeys.
  case_decide; subst; [naive_solver|]. rewrite Hkeys. naive_solver.
Qed.

Lemma add_edge_node (G : nx.Graph) (u v : string) (attr : attr_dict) (n : string) :
  is_Some (od_get (nx._node (nx.add_edge G u v attr)) n)
  <-> n = u \/ n = v \/ is_Some (od_get (nx._node G) n).
Proof. unfold nx.add_edge. cbn. rewrite !ensure_node_node. tauto. Qed.

Lemma add_edge_adj (G : nx.Graph) (u v : string) (attr : attr_dict) (n : string) :
  (forall m, is_Some (od_get (nx._node G) m) <-> is_Some (od_get (nx._adj G) m)) ->
  is_Some (od_get (nx._adj (nx.add_edge G u v attr)) n)
  <-> n = u \/ n = v \/ is_Some (od_get (nx._adj G) n).
Proof.
  intros Hkeys. unfold nx.add_edge. cbn. rewrite !od_get_alter.
  pose proof (ensure_node_keys G u Hkeys) as Hkeys1.
  pose proof (ensure_node_keys _ v Hkeys1) as Hkeys2.
  assert (Hn : forall m, is_Some (od_get (nx._adj (nx.ensure_node (nx.ensure_node G u) v)) m)
                         <-> m = u \/ m = v \/ is_Some (od_get (nx._adj G) m)).
  { intros m. rewrite <- Hkeys2, !ensure_node_node, Hkeys. tauto. }
  repeat case_decide; subst; rewrite ?fmap_is_Some, ?Hn; tauto.
Qed.

Lemma add_edge_neighbors (G : nx.Graph) (u v : string) (attr : attr_dict) (x w : string) :
  (forall m, is_Some (od_get (nx._node G) m) <-> is_Some (od_get (nx._adj G) m)) ->
  w ∈ nx.neighbors (nx.add_edge G u v attr) x
  <-> w ∈ nx.neighbors G x \/ (x = u /\ w = v) \/ (x = v /\ w = u).
Proof.
  intros Hkeys.
  pose proof (ensure_node_keys G u Hkeys) as Hkeys1.
  pose proof (ensure_node_keys _ v Hkeys1) as Hkeys2.
  set (G2 := nx.ensure_node (nx.ensure_node G u) v) in *.
  assert (Hnb : forall y, nx.neighbors G2 y = nx.neighbors G y).
  { intros y. unfold G2. rewrite !ensure_node_neighbors; [done|apply Hkeys|apply Hkeys1]. }
  assert (Hsome : forall y, y = u \/ y = v -> is_Some (od_get (nx._adj G2) y)).
  { intros y Hy. apply Hkeys2. unfold G2. rewrite !ensure_node_node. tauto. }
  rewrite <- (Hnb x). unfold nx.neighbors, nx.add_edge. fold G2. cbn [nx._adj].
  rewrite !od_get_alter.
  destruct (decide (v = x)) as [->|Hvx]; destruct (decide (u = x)) as [->|Hux].
  - destruct (Hsome x) as [nbrs ->]; [by left|]. cbn. rewrite !od_set_keys. naive_solver.
  - destruct (Hsome x) as [nbrs ->]; [by right|]. cbn. rewrite !od_set_keys. naive_solver.
  - destruct (Hsome x) as [nbrs ->]; [by left|]. cbn. rewrite !od_set_keys. naive_solver.
  - naive_solver.
Qed.

Lemma add_edges_spec (df : list erow) (G0 : nx.Graph) :
  (forall m, is_Some (od_get (nx._node G0) m) <-> is_Some (od_get (nx._adj G0) m)) ->
  let G := foldl (fun g (r : erow) =>
                    nx.add_edge g (word_1 r) (word_2 r) {[ "edge valence" := edge_valence_of r ]})
                 G0 df in
  (forall m, is_Some (od_get (nx._node G) m) <-> is_Some (od_get (nx._adj G) m))
  /\ (forall n, is_Some (od_get (nx._node G) n)
                <-> is_Some (od_get (nx._node G0) n) \/ is_word df n)
  /\ (forall x w, w ∈ nx.neighbors G x <-> w ∈ nx.neighbors G0 x \/ associated df x w).
Proof.
  revert G0. induction df as [|r df IH]; intros G0 Hkeys; cbn [foldl].
  - split; [done|]. split.
    + intros n. split; [by left|]. by intros [?|(r & ?%elem_of_nil & _)].
    + intros x w. split; [by left|]. by intros [?|(r & ?%elem_of_nil & _)].
  - set (G1 := nx.add_edge G0 (word_1 r) (word_2 r) _).
    assert (Hkeys1 : forall m, is_Some (od_get (nx._node G1) m)
                               <-> is_Some (od_get (nx._adj G1) m)).
    { intros m. unfold G1. rewrite add_edge_node, add_edge_adj, Hkeys by done. tauto. }
    destruct (IH G1 Hkeys1) as (Hk & Hn & He). split; [done|]. split.
    + intros n. rewrite Hn. unfold G1. rewrite add_edge_node. unfold is_word. split.
      * intros [[->|[->|?]]|(r' & Hr' & Hw)]; [right|right|by left|right].
        -- exists r. split; [left|by left].
        -- exists r. split; [left|by right].
        -- exists r'. split; [by right|done].
      * intros [?|(r' & [->|Hr']%elem_of_cons & Hw)]; [tauto|tauto|].
        right. by exists r'.
    + intros x w. rewrite He. unfold G1. rewrite add_edge_neighbors by done.
      unfold associated. split.
      * intros [[?|Hnew]|(r' & Hr' & Hw)]; [by left|right|right].
        -- exists r. split; [left|done].
        -- exists r'. split; [by right|done].
      * intros [?|(r' & [->|Hr']%elem_of_cons & Hw)]; [tauto|tauto|].
        right. by exists r'.
Qed.

Lemma set_node_attr_node (G : nx.Graph) (n key value m : string) :
  is_Some (od_get (nx._node (nx.set_node_attr G n key value)) m)
  <-> is_Some (od_get (nx._node G) m).
Proof.
  unfold nx.set_node_attr. cbn. rewrite od_get_alter.
  case_decide; subst; by rewrite ?fmap_is_Some.
Qed.

Lemma set_valences_spec (df : list erow) (G0 : nx.Graph) :
  let G := foldl (fun G (r : erow) =>
                    nx.set_node_attr
                      (nx.set_node_attr G (word_1 r) "valence" (word_1_valence r))
                      (word_2 r) "valence" (word_2_valence r))
                 G0 df in
  nx._adj G = nx._adj G0
  /\ forall m, is_Some (od_get (nx._node G) m) <-> is_Some (od_get (nx._node G0) m).
Proof.
  revert G0. induction df as [|r df IH]; intros G0; cbn [foldl]; [done|].
  destruct (IH (nx.set_node_attr (nx.set_node_attr G0 (word_1 r) "valence" (word_1_valence r))
                  (word_2 r) "valence" (word_2_valence r))) as [Hadj Hnode].
  split; [by rewrite Hadj|]. intros m. by rewrite Hnode, !set_node_attr_node.
Qed.

(** The nodes of the base graph are the words of the table, its edges join
    the two words of each association, so that every neighbour is a node,
    and every node has a neighbour. *)
Lemma create_base_graph_spec (df : list erow) :
  (forall n, nx.has_node (create_base_graph df) n = true <-> is_word df n)
  /\ (forall x w, w ∈ nx.neighbors (create_base_graph df) x <-> associated df x w)
  /\ graph_ok (create_base_graph df).
Proof.
  unfold create_base_graph, nx.from_pandas_edgelist.
  destruct (add_edges_spec df nx.empty_graph) as (Hk & Hn & He); [intros m; by cbn|].
  set (G1 := foldl _ nx.empty_graph df) in *.
  destruct (set_valences_spec df G1) as [Hadj Hnode].
  set (G := foldl _ G1 df) in *.
  assert (Hnodes : forall n, nx.has_node G n = true <-> is_word df n).
  { intros n. rewrite has_node_is_Some, Hnode, Hn. split; [|by right].
    intros [[? [=]]|?]; done. }
  assert (Hedges : forall x w, w ∈ nx.neighbors G x <-> associated df x w).
  { intros x w. unfold nx.neighbors. rewrite Hadj. fold (nx.neighbors G1 x).
    rewrite He. split; [|by right]. intros [[]%elem_of_nil|?]; done. }
  split; [done|]. split; [done|]. split.
  - intros m. by rewrite Hnode, Hk, Hadj.
  - intros v w (r & Hr & Hvw)%Hedges. apply Hnodes. exists r. split; [done|]. tauto.
  - intros n (r & Hr & [->| ->])%Hnodes Hnil.
    + assert (word_2 r ∈ nx.neighbors G (word_1 r)) as Hin; [|rewrite Hnil in Hin; by apply elem_of_nil in Hin].
      apply Hedges. exists r. split; [done|]. by left.
    + assert (word_1 r ∈ nx.neighbors G (word_2 r)) as Hin; [|rewrite Hnil in Hin; by apply elem_of_nil in Hin].
      apply Hedges. exists r. split; [done|]. by right.
Qed.

Lemma od_set_NoDup {K V} `{EqDecision K} (d : list (K * V)) (k : K) (v : V) :
  NoDup d.*1 -> NoDup (od_set d k v).*1.
Proof.
  induction d as [|[k0 v0] d IH]; cbn.
  - intros _. apply NoDup_singleton.
  - intros [Hk0 Hd]%NoDup_cons. destruct (decide (k0 = k)) as [->|Hne]; cbn.
    + by apply NoDup_cons.
    + apply NoDup_cons. split; [|by apply IH]. rewrite od_set_keys. naive_solver.
Qed.

Lemma add_edge_simple (G : nx.Graph) (u v : string) (attr : attr_dict) :
  (forall m, is_Some (od_get (nx._node G) m) <-> is_Some (od_get (nx._adj G) m)) ->
  simple_adjacency G -> simple_adjacency (nx.add_edge G u v attr).
Proof.
  intros Hkeys Hsimple x.
  pose proof (ensure_node_keys G u Hkeys) as Hkeys1.
  pose proof (ensure_node_keys _ v Hkeys1) as Hkeys2.
  set (G2 := nx.ensure_node (nx.ensure_node G u) v) in *.
  assert (Hnb : NoDup (default [] (od_get (nx._adj G2) x)).*1).
  { fold (nx.neighbors G2 x). unfold G2.
    rewrite !ensure_node_neighbors; [apply Hsimple|apply Hkeys|apply Hkeys1]. }
  unfold nx.neighbors, nx.add_edge. fold G2. cbn [nx._adj]. rewrite !od_get_alter.
  destruct (decide (v = x)) as [->|Hvx]; destruct (decide (u = x)) as [->|Hux];
    [| | |done];
    (destruct (od_get (nx._adj G2) x) as [nbrs|]; cbn in *; [|constructor]);
    by repeat apply od_set_NoDup.
Qed.

Lemma add_edges_simple (df : list erow) (G0 : nx.Graph) :
  (forall m, is_Some (od_get (nx._node G0) m) <-> is_Some (od_get (nx._adj G0) m)) ->
  simple_adjacency G0 ->
  simple_adjacency
    (foldl (fun g (r : erow) =>
              nx.add_edge g (word_1 r) (word_2 r) {[ "edge valence" := edge_valence_of r ]})
           G0 df).
Proof.
  revert G0. induction df as [|r df IH]; intros G0 Hkeys Hsimple; cbn [foldl]; [done|].
  apply IH; [|by apply add_edge_simple].
  intros m. rewrite add_edge_node, add_edge_adj, Hkeys by done. tauto.
Qed.

Lemma create_base_graph_simple (df : list erow) : simple_adjacency (create_base_graph df).
Proof.
  unfold create_base_graph, nx.from_pandas_edgelist. intros x. unfold nx.neighbors.
  rewrite (proj1 (set_valences_spec df _)).
  apply (add_edges_simple df nx.empty_graph); [intros m; by cbn|].
  intros y. constructor.
Qed.

(** X1. The nodes of the base graph are the words of the table and its
    edges are the associations of the table, in both directions; both ends
    of every edge are nodes, every node has at least one edge, and no node
    is twice a neighbour of the same node. *)
Theorem base_graph_well_formed (df : list erow) :
  (forall n, nx.has_node (create_base_graph df) n = true <-> is_word df n)
  /\ (forall x w, w ∈ nx.neighbors (create_base_graph df) x <-> associated df x w)
  /\ closed (create_base_graph df)
  /\ (forall n, nx.has_node (create_base_graph df) n = true ->
                nx.neighbors (create_base_graph df) n <> [])
  /\ simple_adjacency (create_base_graph df).
Proof.
  destruct (create_base_graph_spec df) as (Hn & He & [_ Hc Hd]).
  do 4 (split; [done|]). apply create_base_graph_simple.
Qed.

(** X2. On a path whose nodes are nodes of the subgraph, [path_type]
    returns, and what it returns is one of the five labels, chosen as
    [path_label] says. *)
Theorem path_type_total (path : list string) (subgraph : nx.Graph) :
  (forall n, n ∈ path -> nx.has_node subgraph n = true) ->
  exists path_valences,
    map_result (node_valence subgraph) path = Ok path_valences
    /\ path_type path subgraph = Ok (path_label path path_valences)
    /\ path_label path path_valences ∈ path_labels.
Proof.
  intros Hnodes.
  destruct (map_result_total (node_valence subgraph) path) as [vs Hvs].
  { intros n Hn. apply Hnodes, has_node_is_Some in Hn as [dd Hdd].
    unfold node_valence. rewrite Hdd. eauto. }
  exists vs. split; [done|]. split; [by apply path_type_label|].
  unfold path_label, path_labels.
  repeat (match goal with |- context [if ?b then _ else _] => destruct b end);
    set_solver.
Qed.

Lemma path_type_total_witness :
  exists path_valences,
    map_result (node_valence joy_grief) ["joy"; "grief"] = Ok path_valences
    /\ path_type ["joy"; "grief"] joy_grief = Ok (path_label ["joy"; "grief"] path_valences)
    /\ path_label ["joy"; "grief"] path_valences ∈ path_labels.
Proof.
  apply path_type_total.
  intros n Hn. apply elem_of_cons in Hn as [->|Hn]; [reflexivity|].
  apply list_elem_of_singleton in Hn as ->. reflexivity.
Defined.

(** ** The loading functions *)

Lemma lower_ascii_idemp (c : ascii) : lower_ascii (lower_ascii c) = lower_ascii c.
Proof. by destruct c as [[] [] [] [] [] [] [] []]. Qed.

Lemma str_lower_idemp (s : string) : str_lower (str_lower s) = str_lower s.
Proof. induction s as [|c s IH]; [done|]. cbn. by rewrite lower_ascii_idemp, IH. Qed.



Lemma str_values_valid (o : json) :
  validate_json o = true ->
  length (str_values o) = num_values o /\ forall i, str_values o !! i = value_at o i.
Proof.
  intros Hv. destruct o as [| | | | |kvs]; try done.
  pose proof (validate_json_values _ Hv) as Hvals. unfold dict_values in Hvals. split.
  - cbn [num_values]. by rewrite <- (length_fmap snd kvs), <- Hvals, length_fmap.
  - intros i. cbn [value_at]. rewrite <- Hvals, list_lookup_fmap.
    by destruct (str_values (JObj kvs) !! i).
Qed.

Lemma str_values_widths (json_objects : list json) :
  Forall (fun o => validate_json o = true) json_objects ->
  length <$> (str_values <$> json_objects) = num_values <$> json_objects.
Proof.
  induction 1 as [|o os Ho _ IH]; [done|]. cbn. f_equal; [|done].
  by apply str_values_valid.
Qed.



Lemma valence_entry_short (m : gmap string string) (d : list (string * string)) :
  length d < 2 -> valence_entry m d = Raise IndexError.
Proof. intros Hd. by destruct d as [|[k0 v0] [|[k1 v1] d]]; [| |cbn in Hd; lia]. Qed.

Lemma valence_entry_long (m : gmap string string) (d : list (string * string)) :
  2 <= length d ->
  exists k v, d.*2 !! 0 = Some k /\ d.*2 !! 1 = Some v /\ valence_entry m d = Ok (<[k := v]> m).
Proof.
  intros Hd. destruct d as [|[k0 v0] [|[k1 v1] d]]; [cbn in Hd; lia..|].
  by exists v0, v1.
Qed.

Lemma valence_loop_short (valence_data : list (list (string * string)))
    (m : gmap string string) :
  Exists (fun d => length d < 2) valence_data ->
  for_each valence_entry valence_data m = Raise IndexError.
Proof.
  intros Hex. revert m. induction Hex as [d ds Hd|d ds _ IH]; intros m; cbn [for_each].
  - by rewrite valence_entry_short.
  - destruct (decide (length d < 2)) as [Hd|Hd].
    + by rewrite valence_entry_short.
    + destruct (valence_entry_long m d) as (k & v & _ & _ & ->); [lia|]. apply IH.
Qed.

Lemma valence_loop_long (valence_data : list (list (string * string)))
    (m : gmap string string) :
  Forall (fun d => 2 <= length d) valence_data ->
  exists m',
    for_each valence_entry valence_data m = Ok m'
    /\ forall w, m' !! w = match last_valence valence_data w with
                           | Some v => Some v
                           | None => m !! w
                           end.
Proof.
  intros Hall. revert m. induction Hall as [|d ds Hd _ IH]; intros m; cbn [for_each].
  - by exists m.
  - destruct (valence_entry_long m d) as (k & v & Hk & Hv & ->); [done|].
    destruct (IH (<[k := v]> m)) as (m' & Hm' & Hlook). exists m'. split; [exact Hm'|].
    intros w. rewrite Hlook. unfold last_valence. cbn [omap list_omap].
    rewrite Hk, Hv. destruct (decide (Some k = Some w)) as [[= ->]|Hkw].
    + cbn [option_bind]. rewrite last_cons, lookup_insert_eq.
      by destruct (last _).
    + rewrite lookup_insert_ne by congruence. done.
Qed.



(** X6. [edge_valence] keeps the rows and their order, gives every row one of
    five values, and the value of a row depends on nothing but the two
    valences of the row. *)
Theorem edge_valence_rows (df : list row) :
  erow_row <$> edge_valence df = df
  /\ Forall (fun r : erow => edge_valence_of r ∈ edge_valences) (edge_valence df)
  /\ (forall i (r : erow) df' j (r' : erow),
        edge_valence df !! i = Some r -> edge_valence df' !! j = Some r' ->
        word_1_valence r = word_1_valence r' -> word_2_valence r = word_2_valence r' ->
        edge_valence_of r = edge_valence_of r').
Proof.
  assert (Hrow : forall (df : list row) i (r : erow),
             edge_valence df !! i = Some r ->
             r = ERow r (select_row (word_1_valence r) (word_2_valence r))).
  { intros df0 i r Hr.
    destruct (df0 !! i) as [r0|] eqn:E.
    - rewrite (edge_valence_lookup _ _ _ E) in Hr. by injection Hr as <-.
    - apply lookup_ge_None in E. rewrite <- edge_valence_length in E.
      apply lookup_ge_None in E. congruence. }
  split; [|split].
  - apply list_eq. intros i. rewrite list_lookup_fmap.
    destruct (df !! i) as [r|] eqn:E.
    + by rewrite (edge_valence_lookup _ _ _ E).
    + apply lookup_ge_None in E. rewrite <- edge_valence_length in E.
      apply lookup_ge_None in E. by rewrite E.
  - apply Forall_forall. intros r Hr. apply list_elem_of_lookup in Hr as [i Hi].
    rewrite (Hrow _ _ _ Hi). cbn. unfold select_row, edge_valences.
    repeat case_match; set_solver.
  - intros i r df' j r' Hr Hr' H1 H2.
    rewrite (Hrow _ _ _ Hr), (Hrow _ _ _ Hr'). cbn. by rewrite H1, H2.
Qed.

(** ** Insertion-ordered dictionaries *)

Lemma od_get_is_Some {K V} `{EqDecision K} (d : list (K * V)) (k : K) :
  is_Some (od_get d k) <-> k ∈ d.*1.
Proof.
  induction d as [|[k' v] d IH]; cbn.
  - split; [by intros [? ?]|by intros ?%elem_of_nil].
  - rewrite elem_of_cons. destruct (decide (k' = k)) as [->|Hne].
    + split; [by left|by eexists].
    + rewrite IH. naive_solver.
Qed.

Lemma od_get_None {K V} `{EqDecision K} (d : list (K * V)) (k : K) :
  od_get d k = None <-> k ∉ d.*1.
Proof. rewrite <- od_get_is_Some, eq_None_not_Some. done. Qed.

Lemma od_get_NoDup {K V} `{EqDecision K} (d : list (K * V)) (k : K) (v : V) :
  NoDup d.*1 -> (k, v) ∈ d <-> od_get d k = Some v.
Proof.
  intros Hnd. split; [|apply od_get_elem].
  induction d as [|[k' v'] d IH]; [by intros ?%elem_of_nil|].
  cbn in Hnd. apply NoDup_cons in Hnd as [Hk' Hnd]. cbn.
  intros [[= -> ->]|Hin]%elem_of_cons.
  - by rewrite decide_True.
  - destruct (decide (k' = k)) as [->|Hne]; [|by apply IH].
    destruct Hk'. apply list_elem_of_fmap. by exists (k, v).
Qed.

Lemma od_alter_keys {K V} `{EqDecision K} (f : V -> V) (d : list (K * V)) (k : K) :
  (od_alter f d k).*1 = d.*1.
Proof.
  induction d as [|[k' v] d IH]; [done|]. cbn.
  destruct (decide (k' = k)); cbn; by rewrite ?IH.
Qed.

Lemma od_get_filter {K V} `{EqDecision K} (keys : list K) (d : list (K * V)) (k : K) :
  od_get (filter (fun kv => kv.1 ∈ keys) d) k
  = if decide (k ∈ keys) then od_get d k else None.
Proof.
  induction d as [|[k' v] d IH]; [by destruct (decide (k ∈ keys))|].
  rewrite filter_cons. cbn. destruct (decide (k' ∈ keys)) as [Hk'|Hk']; cbn;
    destruct (decide (k' = k)) as [->|Hne]; try done.
  - by destruct (decide (k ∈ keys)).
  - rewrite IH. by destruct (decide (k ∈ keys)).
Qed.

Lemma od_get_fmap {K V W} `{EqDecision K} (f : K -> V -> W) (d : list (K * V)) (k : K) :
  od_get ((fun kv => (kv.1, f kv.1 kv.2)) <$> d) k = f k <$> od_get d k.
Proof.
  induction d as [|[k' v] d IH]; [done|]. cbn.
  by destruct (decide (k' = k)) as [->|Hne].
Qed.

Lemma od_keys_fmap {K V W} (f : K -> V -> W) (d : list (K * V)) :
  ((fun kv => (kv.1, f kv.1 kv.2)) <$> d).*1 = d.*1.
Proof. induction d as [|[k' v] d IH]; [done|]. cbn. by f_equal. Qed.

Lemma od_keys_filter {K V} `{EqDecision K} (keys : list K) (d : list (K * V)) :
  (filter (fun kv => kv.1 ∈ keys) d).*1 = filter (.∈ keys) d.*1.
Proof.
  induction d as [|[k' v] d IH]; [done|].
  rewrite fmap_cons, !filter_cons. cbn [fst].
  destruct (decide (k' ∈ keys)); cbn; by rewrite IH.
Qed.

Lemma od_get_del {K V} `{EqDecision K} (d : list (K * V)) (k k' : K) :
  NoDup d.*1 ->
  od_get (od_del d k) k' = if decide (k = k') then None else od_get d k'.
Proof.
  intros Hnd. induction d as [|[k0 v] d IH]; [by destruct (decide (k = k'))|].
  cbn in Hnd. apply NoDup_cons in Hnd as [Hk0 Hnd]. cbn.
  destruct (decide (k0 = k)) as [->|Hne].
  - destruct (decide (k = k')) as [->|Hne']; [|done]. by apply od_get_None.
  - cbn. destruct (decide (k0 = k')) as [->|Hne'].
    + by rewrite decide_False by congruence.
    + by apply IH.
Qed.

Lemma od_del_keys {K V} `{EqDecision K} (d : list (K * V)) (k : K) :
  (od_del d k).*1 `sublist_of` d.*1.
Proof.
  induction d as [|[k0 v] d IH]; [done|]. cbn.
  destruct (decide (k0 = k)); cbn.
  - by apply sublist_cons.
  - by apply sublist_skip.
Qed.

(** ** The graph operations, by the attributes of the nodes and of the edges *)

Lemma neighbors_edge_data (G : nx.Graph) (x w : string) :
  w ∈ nx.neighbors G x <-> is_Some (edge_data G x w).
Proof. unfold nx.neighbors, edge_data. by rewrite od_get_is_Some. Qed.

Lemma edge_data_adj (G : nx.Graph) (u v : string) :
  is_Some (edge_data G u v) -> is_Some (od_get (nx._adj G) u).
Proof.
  unfold edge_data. destruct (od_get (nx._adj G) u); [by eexists|]. by intros [? ?].
Qed.

Lemma graph_wf_empty : graph_wf nx.empty_graph.
Proof.
  split; try done; try (by constructor); try (by intros u v [? ?]).
  intros n. by cbn.
Qed.

Lemma ensure_node_attr (G : nx.Graph) (n m : string) :
  node_attr (nx.ensure_node G n) m
  = match node_attr G m with
    | Some dd => Some dd
    | None => if decide (m = n) then Some ∅ else None
    end.
Proof.
  unfold nx.ensure_node, od_mem, node_attr. case_bool_decide as Hn; cbn.
  - destruct (od_get (nx._node G) m) eqn:E; [done|].
    destruct (decide (m = n)) as [->|]; [|done]. rewrite E in Hn. by destruct Hn.
  - rewrite od_get_set. destruct (decide (n = m)) as [->|Hne].
    + rewrite decide_True by done.
      destruct (od_get (nx._node G) m) eqn:E; [|done]. destruct Hn. by eexists.
    + rewrite decide_False by done. by destruct (od_get (nx._node G) m).
Qed.

Lemma ensure_node_edge_data (G : nx.Graph) (n u v : string) :
  (is_Some (od_get (nx._node G) n) <-> is_Some (od_get (nx._adj G) n)) ->
  edge_data (nx.ensure_node G n) u v = edge_data G u v.
Proof.
  intros Hk. unfold edge_data. rewrite ensure_node_adj by done.
  destruct (decide (u = n)) as [->|]; [|done]. cbn. by destruct (od_get (nx._adj G) n).
Qed.

Lemma ensure_node_wf (G : nx.Graph) (n : string) :
  graph_wf G -> graph_wf (nx.ensure_node G n).
Proof.
  intros [Hk Hn Ha Hnb Hs Hc].
  assert (Hadj : forall m, od_get (nx._adj (nx.ensure_node G n)) m
                 = if decide (m = n) then Some (default [] (od_get (nx._adj G) n))
                   else od_get (nx._adj G) m)
    by (intros m; apply ensure_node_adj, Hk).
  split.
  - apply ensure_node_keys. exact Hk.
  - unfold nx.ensure_node. destruct (od_mem _ _); [done|]. by apply od_set_NoDup.
  - unfold nx.ensure_node. destruct (od_mem _ _); [done|]. by apply od_set_NoDup.
  - intros m nbrs. rewrite Hadj. destruct (decide (m = n)) as [->|]; [|apply Hnb].
    intros [= <-]. destruct (od_get (nx._adj G) n) eqn:E; cbn; [by eapply Hnb|constructor].
  - intros u v. rewrite !ensure_node_edge_data by apply Hk. apply Hs.
  - intros u v. rewrite ensure_node_edge_data by apply Hk. intros Hd%Hc.
    rewrite ensure_node_attr. destruct Hd as [dd Hd]. rewrite Hd. by eexists.
Qed.

Lemma add_edge_attr (G : nx.Graph) (u v : string) (attr : attr_dict) (m : string) :
  node_attr (nx.add_edge G u v attr) m
  = match node_attr G m with
    | Some dd => Some dd
    | None => if decide (m = u \/ m = v) then Some ∅ else None
    end.
Proof.
  unfold nx.add_edge.
  change (node_attr (nx.MkGraph ?n ?a) m) with (od_get n m).
  change (od_get (nx._node ?G) m) with (node_attr G m).
  rewrite !ensure_node_attr. destruct (node_attr G m); [done|].
  destruct (decide (m = u)) as [->|Hu].
  - by rewrite decide_True by by left.
  - destruct (decide (m = v)) as [->|Hv].
    + by rewrite decide_True by by right.
    + by rewrite decide_False by naive_solver.
Qed.

Lemma add_edge_data (G : nx.Graph) (u v : string) (attr : attr_dict) (x y : string) :
  graph_wf G ->
  edge_data (nx.add_edge G u v attr) x y
  = if decide ((x = u /\ y = v) \/ (x = v /\ y = u))
    then Some (attr ∪ default ∅ (edge_data G u v))
    else edge_data G x y.
Proof.
  intros Hwf.
  pose proof (ensure_node_wf _ u Hwf) as Hwf1.
  pose proof (ensure_node_wf _ v Hwf1) as Hwf2.
  set (G' := nx.ensure_node (nx.ensure_node G u) v) in *.
  assert (Hd : forall a b, edge_data G' a b = edge_data G a b).
  { intros a b. unfold G'.
    rewrite !ensure_node_edge_data; [done|apply Hwf|apply Hwf1]. }
  assert (Hsome : forall n, n = u \/ n = v -> is_Some (od_get (nx._adj G') n)).
  { intros n Hn. apply (wf_keys _ Hwf2). unfold G'. rewrite !ensure_node_attr.
    destruct (node_attr G n); [by eexists|].
    destruct Hn as [->| ->].
    - rewrite decide_True by done. destruct (decide (u = v)); by eexists.
    - rewrite (decide_True (P := v = v)) by done. destruct (decide (v = u)); by eexists. }
  unfold nx.add_edge. fold G'.
  change (od_get (default [] (od_get (nx._adj G') u)) v) with (edge_data G' u v).
  rewrite Hd. set (dd := attr ∪ default ∅ (edge_data G u v)).
  unfold edge_data at 1. cbn [nx._adj]. rewrite !od_get_alter.
  destruct (Hsome u (or_introl eq_refl)) as [nu Hnu].
  destruct (Hsome v (or_intror eq_refl)) as [nv Hnv].
  destruct (decide (v = x)) as [<-|Hvx]; destruct (decide (u = v)) as [->|Huv].
  - rewrite Hnv. cbn. rewrite !od_get_set.
    destruct (decide (v = y)) as [<-|Hvy].
    + by rewrite decide_True by by left.
    + rewrite decide_False by naive_solver. rewrite <- Hd. unfold edge_data. by rewrite Hnv.
  - rewrite Hnv. cbn. rewrite !od_get_set.
    destruct (decide (u = y)) as [<-|Huy].
    + by rewrite decide_True by by right.
    + rewrite decide_False by naive_solver. rewrite <- Hd. unfold edge_data. by rewrite Hnv.
  - rewrite !decide_False by naive_solver. apply Hd.
  - destruct (decide (u = x)) as [<-|Hux].
    + rewrite Hnu. cbn. rewrite od_get_set.
      destruct (decide (v = y)) as [<-|Hvy].
      * by rewrite decide_True by by left.
      * rewrite decide_False by naive_solver. rewrite <- Hd. unfold edge_data. by rewrite Hnu.
    + rewrite !decide_False by naive_solver. apply Hd.
Qed.

Lemma add_edge_wf (G : nx.Graph) (u v : string) (attr : attr_dict) :
  graph_wf G -> graph_wf (nx.add_edge G u v attr).
Proof.
  intros Hwf.
  pose proof (ensure_node_wf _ u Hwf) as Hwf1.
  pose proof (ensure_node_wf _ v Hwf1) as Hwf2.
  split.
  - intros n. unfold node_attr. rewrite add_edge_node, add_edge_adj by apply Hwf.
    by rewrite (wf_keys _ Hwf n).
  - apply Hwf2.
  - unfold nx.add_edge. cbn [nx._adj]. rewrite !od_alter_keys. apply Hwf2.
  - intros n nbrs. unfold nx.add_edge. cbn [nx._adj]. rewrite !od_get_alter.
    set (G' := nx.ensure_node (nx.ensure_node G u) v) in *.
    assert (Hset : forall (o : option (list (string * attr_dict))) w dd nbrs,
               (forall l, o = Some l -> NoDup l.*1) ->
               (fun nbrs => od_set nbrs w dd) <$> o = Some nbrs -> NoDup nbrs.*1).
    { intros [l|] w dd nbrs' Hl; [|done]. intros [= <-]. apply od_set_NoDup. by apply Hl. }
    destruct (decide (v = n)) as [<-|Hvn].
    + apply Hset. intros l. destruct (decide (u = v)) as [->|Huv].
      * apply Hset. intros l'. apply (wf_nbrs _ Hwf2).
      * apply (wf_nbrs _ Hwf2).
    + destruct (decide (u = n)) as [<-|Hun]; [|apply (wf_nbrs _ Hwf2)].
      apply Hset. intros l'. apply (wf_nbrs _ Hwf2).
  - intros x y. rewrite !add_edge_data by done.
    destruct (decide ((x = u /\ y = v) \/ (x = v /\ y = u))) as [Hxy|Hxy].
    + by rewrite decide_True by naive_solver.
    + rewrite decide_False by naive_solver. apply Hwf.
  - intros x y. rewrite add_edge_data by done. rewrite add_edge_attr.
    destruct (decide ((x = u /\ y = v) \/ (x = v /\ y = u))) as [Hxy|Hxy].
    + intros _. destruct (node_attr G x); [by eexists|].
      rewrite decide_True by naive_solver. by eexists.
    + intros [dd Hdd]%(wf_closed _ Hwf). rewrite Hdd. by eexists.
Qed.

Lemma add_node_attr (G : nx.Graph) (n : string) (attr : attr_dict) (m : string) :
  node_attr (nx.add_node G n attr) m
  = if decide (m = n) then Some (attr ∪ default ∅ (node_attr G n)) else node_attr G m.
Proof.
  unfold nx.add_node, node_attr. cbn [nx._node]. rewrite od_get_alter.
  change (od_get (nx._node ?G) ?m) with (node_attr G m). rewrite !ensure_node_attr.
  destruct (decide (n = m)) as [->|Hne].
  - rewrite !decide_True by done. by destruct (node_attr G m).
  - rewrite !decide_False by done. by destruct (node_attr G m).
Qed.

Lemma add_node_edge_data (G : nx.Graph) (n : string) (attr : attr_dict) (u v : string) :
  graph_wf G -> edge_data (nx.add_node G n attr) u v = edge_data G u v.
Proof.
  intros Hwf. unfold nx.add_node.
  change (edge_data (nx.MkGraph ?a ?b) u v) with (od_get (default [] (od_get b u)) v).
  change (od_get (default [] (od_get (nx._adj ?G) u)) v) with (edge_data G u v).
  apply ensure_node_edge_data, Hwf.
Qed.

Lemma add_node_wf (G : nx.Graph) (n : string) (attr : attr_dict) :
  graph_wf G -> graph_wf (nx.add_node G n attr).
Proof.
  intros Hwf. pose proof (ensure_node_wf _ n Hwf) as Hwf1.
  assert (Hsome : forall m, is_Some (node_attr (nx.add_node G n attr) m)
                            <-> is_Some (node_attr (nx.ensure_node G n) m)).
  { intros m. rewrite add_node_attr, ensure_node_attr.
    destruct (decide (m = n)) as [->|]; [|by destruct (node_attr G m)].
    destruct (node_attr G n); split; by eexists. }
  split.
  - intros m. rewrite Hsome. apply Hwf1.
  - unfold nx.add_node. cbn [nx._node]. rewrite od_alter_keys. apply Hwf1.
  - apply Hwf1.
  - apply Hwf1.
  - intros u v. rewrite !add_node_edge_data by done. apply Hwf.
  - intros u v. rewrite add_node_edge_data by done. rewrite Hsome.
    rewrite <- (ensure_node_edge_data G n u v) by apply Hwf. apply Hwf1.
Qed.

Lemma set_node_attr_attr (G : nx.Graph) (n key value m : string) :
  node_attr (nx.set_node_attr G n key value) m
  = if decide (m = n) then <[key := value]> <$> node_attr G n else node_attr G m.
Proof.
  unfold nx.set_node_attr, node_attr. cbn [nx._node]. rewrite od_get_alter.
  destruct (decide (n = m)) as [->|Hne].
  - by rewrite decide_True.
  - by rewrite decide_False.
Qed.

Lemma set_node_attr_wf (G : nx.Graph) (n key value : string) :
  graph_wf G -> graph_wf (nx.set_node_attr G n key value).
Proof.
  intros Hwf.
  assert (Hsome : forall m, is_Some (node_attr (nx.set_node_attr G n key value) m)
                            <-> is_Some (node_attr G m)).
  { intros m. rewrite set_node_attr_attr. destruct (decide (m = n)) as [->|]; [|done].
    by rewrite fmap_is_Some. }
  split.
  - intros m. rewrite Hsome. apply Hwf.
  - unfold nx.set_node_attr. cbn [nx._node]. rewrite od_alter_keys. apply Hwf.
  - apply Hwf.
  - apply Hwf.
  - apply Hwf.
  - intros u v. rewrite Hsome. apply Hwf.
Qed.

Lemma subgraph_attr (G : nx.Graph) (nbunch : list string) (m : string) :
  node_attr (nx.subgraph G nbunch) m = if decide (m ∈ nbunch) then node_attr G m else None.
Proof. unfold nx.subgraph, node_attr. cbn [nx._node]. apply od_get_filter. Qed.

Lemma subgraph_adj (G : nx.Graph) (nbunch : list string) (m : string) :
  od_get (nx._adj (nx.subgraph G nbunch)) m
  = if decide (m ∈ nbunch)
    then filter (fun vd => vd.1 ∈ nbunch) <$> od_get (nx._adj G) m
    else None.
Proof.
  unfold nx.subgraph. cbn [nx._adj].
  rewrite (od_get_fmap (fun _ nbrs => filter (fun vd => vd.1 ∈ nbunch) nbrs)).
  rewrite od_get_filter. by destruct (decide (m ∈ nbunch)).
Qed.

Lemma subgraph_edge_data (G : nx.Graph) (nbunch : list string) (u v : string) :
  edge_data (nx.subgraph G nbunch) u v
  = if decide (u ∈ nbunch /\ v ∈ nbunch) then edge_data G u v else None.
Proof.
  unfold edge_data. rewrite subgraph_adj.
  destruct (decide (u ∈ nbunch)) as [Hu|Hu].
  - destruct (od_get (nx._adj G) u) as [nbrs|]; cbn.
    + rewrite od_get_filter.
      destruct (decide (v ∈ nbunch)).
      * by rewrite decide_True.
      * by rewrite decide_False by naive_solver.
    + by destruct (decide _).
  - by rewrite decide_False by naive_solver.
Qed.

Lemma subgraph_wf (G : nx.Graph) (nbunch : list string) :
  graph_wf G -> graph_wf (nx.subgraph G nbunch).
Proof.
  intros Hwf. split.
  - intros m. rewrite subgraph_attr, subgraph_adj.
    destruct (decide (m ∈ nbunch)); [|done].
    rewrite fmap_is_Some. apply Hwf.
  - unfold nx.subgraph. cbn [nx._node]. rewrite od_keys_filter.
    apply NoDup_filter, Hwf.
  - unfold nx.subgraph. cbn [nx._adj].
    rewrite (od_keys_fmap (fun _ nbrs => filter (fun vd => vd.1 ∈ nbunch) nbrs)).
    rewrite od_keys_filter. apply NoDup_filter, Hwf.
  - intros m nbrs. rewrite subgraph_adj. destruct (decide (m ∈ nbunch)); [|done].
    destruct (od_get (nx._adj G) m) as [l|] eqn:E; [|done]. intros [= <-].
    rewrite od_keys_filter. apply NoDup_filter. by eapply (wf_nbrs _ Hwf).
  - intros u v. rewrite !subgraph_edge_data.
    destruct (decide (u ∈ nbunch /\ v ∈ nbunch)) as [Huv|Huv].
    + rewrite decide_True by naive_solver. apply Hwf.
    + by rewrite decide_False by naive_solver.
  - intros u v. rewrite subgraph_edge_data, subgraph_attr.
    destruct (decide (u ∈ nbunch /\ v ∈ nbunch)) as [[Hu Hv]|Huv]; [|by intros [? ?]].
    rewrite decide_True by done. apply Hwf.
Qed.

Lemma remove_selfloop_edges_data (G : nx.Graph) (u v : string) :
  graph_wf G ->
  edge_data (nx.remove_selfloop_edges G) u v
  = if decide (u = v) then None else edge_data G u v.
Proof.
  intros Hwf. unfold edge_data, nx.remove_selfloop_edges. cbn [nx._adj].
  rewrite (od_get_fmap (fun n nbrs => od_del nbrs n)).
  destruct (od_get (nx._adj G) u) as [nbrs|] eqn:E; cbn.
  - apply od_get_del. by eapply (wf_nbrs _ Hwf).
  - by destruct (decide (u = v)).
Qed.

Lemma remove_selfloop_edges_wf (G : nx.Graph) :
  graph_wf G -> graph_wf (nx.remove_selfloop_edges G).
Proof.
  intros Hwf.
  assert (Hadj : forall m, od_get (nx._adj (nx.remove_selfloop_edges G)) m
                           = (fun nbrs => od_del nbrs m) <$> od_get (nx._adj G) m).
  { intros m. unfold nx.remove_selfloop_edges. cbn [nx._adj].
    apply (od_get_fmap (fun n nbrs => od_del nbrs n)). }
  split.
  - intros m. rewrite Hadj, fmap_is_Some. apply Hwf.
  - apply Hwf.
  - unfold nx.remove_selfloop_edges. cbn [nx._adj].
    rewrite (od_keys_fmap (fun n nbrs => od_del nbrs n)). apply Hwf.
  - intros m nbrs. rewrite Hadj.
    destruct (od_get (nx._adj G) m) as [l|] eqn:E; [|done]. intros [= <-].
    eapply sublist_NoDup; [|apply od_del_keys]. by eapply (wf_nbrs _ Hwf).
  - intros u v. rewrite !remove_selfloop_edges_data by done.
    destruct (decide (u = v)) as [->|Huv].
    + by rewrite decide_True.
    + rewrite decide_False by done. apply Hwf.
  - intros u v. rewrite remove_selfloop_edges_data by done.
    destruct (decide (u = v)); [by intros [? ?]|]. apply Hwf.
Qed.

Lemma edge_data_elem (G : nx.Graph) (u v : string) (d : attr_dict) :
  graph_wf G ->
  edge_data G u v = Some d <->
  exists nbrs, (u, nbrs) ∈ nx._adj G /\ (v, d) ∈ nbrs.
Proof.
  intros Hwf. unfold edge_data. split.
  - destruct (od_get (nx._adj G) u) as [nbrs|] eqn:E; [|done]. cbn. intros Hd.
    exists nbrs. split; by apply od_get_elem.
  - intros (nbrs & Hu & Hv). apply od_get_NoDup in Hu; [|apply Hwf].
    rewrite Hu. cbn. apply od_get_NoDup; [|done]. by eapply (wf_nbrs _ Hwf).
Qed.

Lemma elem_of_adjacency_entries (G : nx.Graph) (u v : string) (d : attr_dict) :
  graph_wf G -> (u, v, d) ∈ nx.adjacency_entries G <-> edge_data G u v = Some d.
Proof.
  intros Hwf. rewrite edge_data_elem by done.
  unfold nx.adjacency_entries. rewrite list_elem_of_In, in_flat_map. split.
  - intros ([n nbrs] & Hn%list_elem_of_In & Hin%list_elem_of_In).
    apply list_elem_of_fmap in Hin as ([v' d'] & [= -> -> ->] & Hvd). by exists nbrs.
  - intros (nbrs & Hu & Hv). exists (u, nbrs). split; [by apply list_elem_of_In|].
    apply list_elem_of_In, list_elem_of_fmap. by exists (v, d).
Qed.

Lemma elem_of_edges_from (adj : list (string * list (string * attr_dict)))
    (seen : list string) (u v : string) (d : attr_dict) :
  (u, v, d) ∈ nx.edges_from adj seen <->
  exists i nbrs,
    adj !! i = Some (u, nbrs) /\ (v, d) ∈ nbrs /\ (v ∉ seen) /\ (v ∉ (take i adj).*1).
Proof.
  revert seen. induction adj as [|[n nbrs] adj IH]; intros seen; cbn [nx.edges_from].
  - split; [by intros ?%elem_of_nil|]. by intros (i & nbrs & ? & _).
  - rewrite elem_of_app, IH, list_elem_of_fmap. split.
    + intros [([v' d'] & [= -> -> ->] & [Hs Hin]%list_elem_of_filter)
             |(i & nbrs' & Hi & Hin & Hs & Ht)].
      * exists 0, nbrs. repeat split; try done. cbn. apply not_elem_of_nil.
      * exists (S i), nbrs'. apply not_elem_of_cons in Hs as [Hvn Hs].
        repeat split; try done. cbn. by apply not_elem_of_cons.
    + intros ([|i] & nbrs' & Hi & Hin & Hs & Ht).
      * injection Hi as -> ->. left. exists (v, d). split; [done|].
        by apply list_elem_of_filter.
      * right. exists i, nbrs'. cbn in Ht. apply not_elem_of_cons in Ht as [Hvn Ht].
        repeat split; try done. by apply not_elem_of_cons.
Qed.

Lemma edges_data (G : nx.Graph) (u v : string) (d : attr_dict) :
  graph_wf G -> (u, v, d) ∈ nx.edges G -> edge_data G u v = Some d.
Proof.
  intros Hwf (i & nbrs & Hi & Hin & _)%elem_of_edges_from.
  apply edge_data_elem; [done|]. exists nbrs. split; [|done].
  by eapply list_elem_of_lookup_2.
Qed.

Lemma edges_complete (G : nx.Graph) (u v : string) (d : attr_dict) :
  graph_wf G -> edge_data G u v = Some d ->
  (u, v, d) ∈ nx.edges G \/ (v, u, d) ∈ nx.edges G.
Proof.
  intros Hwf Huv. assert (Hvu : edge_data G v u = Some d) by by rewrite (wf_sym _ Hwf).
  apply edge_data_elem in Huv as (nu & [i Hi]%list_elem_of_lookup & Hnu); [|done].
  apply edge_data_elem in Hvu as (nv & [j Hj]%list_elem_of_lookup & Hnv); [|done].
  unfold nx.edges. rewrite !elem_of_edges_from.
  assert (Hkey : forall k n nbrs a,
             nx._adj G !! k = Some (n, nbrs) -> a ∈ (take k (nx._adj G)).*1 ->
             exists k', k' < k /\ (nx._adj G).*1 !! k' = Some a).
  { intros k n nbrs a Hk [k' Hk']%list_elem_of_lookup.
    rewrite fmap_take in Hk'.
    assert (k' < k).
    { apply lookup_lt_Some in Hk'. rewrite length_take in Hk'. lia. }
    exists k'. split; [done|]. by rewrite lookup_take_lt in Hk'. }
  assert (Hi' : (nx._adj G).*1 !! i = Some u) by by rewrite list_lookup_fmap, Hi.
  assert (Hj' : (nx._adj G).*1 !! j = Some v) by by rewrite list_lookup_fmap, Hj.
  destruct (decide (v ∈ (take i (nx._adj G)).*1)) as [Hv|Hv].
  - right. exists j, nv. repeat split; try done; [apply not_elem_of_nil|].
    intros Hu.
    destruct (Hkey _ _ _ _ Hi Hv) as (j' & Hlt & Hj'').
    destruct (Hkey _ _ _ _ Hj Hu) as (i' & Hlt' & Hi'').
    pose proof (NoDup_lookup _ _ _ _ (wf_adj _ Hwf) Hj' Hj'').
    pose proof (NoDup_lookup _ _ _ _ (wf_adj _ Hwf) Hi' Hi''). lia.
  - left. exists i, nu. repeat split; try done. apply not_elem_of_nil.
Qed.

Lemma in_edges_edges (G : nx.Graph) (x y : string) (d : attr_dict) :
  graph_wf G -> in_edges (nx.edges G) x y d <-> edge_data G x y = Some d.
Proof.
  intros Hwf. split.
  - intros [H|H]; apply edges_data in H; try done. by rewrite (wf_sym _ Hwf).
  - by apply edges_complete.
Qed.

Lemma in_edges_adjacency_entries (G : nx.Graph) (x y : string) (d : attr_dict) :
  graph_wf G -> in_edges (nx.adjacency_entries G) x y d <-> edge_data G x y = Some d.
Proof.
  intros Hwf. unfold in_edges. rewrite !elem_of_adjacency_entries by done.
  rewrite (wf_sym _ Hwf y x). tauto.
Qed.

Lemma edges_from_NoDup (adj : list (string * list (string * attr_dict)))
    (seen : list string) :
  NoDup adj.*1 -> (forall n nbrs, (n, nbrs) ∈ adj -> NoDup nbrs.*1) ->
  NoDup (edge_key <$> nx.edges_from adj seen).
Proof.
  revert seen. induction adj as [|[n nbrs] adj IH]; intros seen Hnd Hnbrs;
    cbn [nx.edges_from]; [constructor|].
  cbn in Hnd. apply NoDup_cons in Hnd as [Hn Hnd].
  rewrite fmap_app. apply NoDup_app. split; [|split].
  - rewrite <- list_fmap_compose.
    assert (Hf : NoDup (filter (fun nd : string * attr_dict => nd.1 ∉ seen) nbrs).*1).
    { eapply sublist_NoDup; [apply (Hnbrs n); by left|].
      apply fmap_sublist, sublist_filter. }
    revert Hf. generalize (filter (fun nd : string * attr_dict => nd.1 ∉ seen) nbrs).
    intros l Hl. induction l as [|[v d] l IHl]; [constructor|].
    cbn in Hl. apply NoDup_cons in Hl as [Hv Hl]. cbn. apply NoDup_cons. split; [|by apply IHl].
    intros ([v' d'] & [= <-] & Hin)%list_elem_of_fmap. apply Hv.
    apply list_elem_of_fmap. by exists (v, d').
  - intros k ([[u v] d] & -> & Hin)%list_elem_of_fmap
               ([[u' v'] d'] & Hk & Hin')%list_elem_of_fmap.
    apply list_elem_of_fmap in Hin as ([v0 d0] & [= -> -> ->] & _).
    injection Hk as <- <-. apply elem_of_edges_from in Hin' as (i & nbrs' & Hi & _).
    apply Hn. apply list_elem_of_fmap. exists (n, nbrs'). split; [done|].
    by eapply list_elem_of_lookup_2.
  - apply IH; [done|]. intros m l Hm. apply (Hnbrs m). by right.
Qed.

Lemma edges_NoDup (G : nx.Graph) : graph_wf G -> NoDup (edge_key <$> nx.edges G).
Proof.
  intros Hwf. apply edges_from_NoDup; [apply Hwf|].
  intros n nbrs Hn. apply (wf_nbrs _ Hwf n). apply od_get_NoDup; [apply Hwf|done].
Qed.

Lemma add_nodes_from_spec (ns : list (string * attr_dict)) (G : nx.Graph) :
  graph_wf G -> NoDup ns.*1 ->
  graph_wf (nx.add_nodes_from G ns)
  /\ (forall m, node_attr (nx.add_nodes_from G ns) m
                = match od_get ns m with
                  | Some a => Some (a ∪ default ∅ (node_attr G m))
                  | None => node_attr G m
                  end)
  /\ (forall u v, edge_data (nx.add_nodes_from G ns) u v = edge_data G u v).
Proof.
  revert G. induction ns as [|[n a] ns IH]; intros G Hwf Hnd; [done|].
  cbn in Hnd. apply NoDup_cons in Hnd as [Hn Hnd].
  unfold nx.add_nodes_from. cbn [foldl]. fold (nx.add_nodes_from (nx.add_node G n a) ns).
  destruct (IH (nx.add_node G n a)) as (Hwf' & Hattr & Hdata);
    [by apply add_node_wf|done|].
  split; [done|]. split.
  - intros m. rewrite Hattr, add_node_attr. cbn.
    destruct (decide (n = m)) as [->|Hne].
    + rewrite decide_True by done. apply od_get_None in Hn. by rewrite Hn.
    + by rewrite decide_False by done.
  - intros u v. rewrite Hdata. by apply add_node_edge_data.
Qed.

Lemma in_edges_cons (e : string * string * attr_dict) (es : list (string * string * attr_dict))
    (x y : string) (d : attr_dict) :
  in_edges (e :: es) x y d <-> (joins x y e /\ e.2 = d) \/ in_edges es x y d.
Proof.
  unfold in_edges, joins. rewrite !elem_of_cons. destruct e as [[u v] a]. cbn.
  split.
  - intros [[[= -> -> ->]|H]|[[= -> -> ->]|H]]; tauto.
  - intros [[[[-> ->]|[-> ->]] ->]|[H|H]]; tauto.
Qed.

Lemma in_edges_Exists (es : list (string * string * attr_dict)) (x y : string) :
  Exists (joins x y) es <-> exists d, in_edges es x y d.
Proof.
  induction es as [|e es IH].
  - split; [by intros ?%Exists_nil|]. intros (d & [?%elem_of_nil|?%elem_of_nil]); done.
  - rewrite Exists_cons, IH. split.
    + intros [He|[d Hd]].
      * exists e.2. apply in_edges_cons. by left.
      * exists d. apply in_edges_cons. by right.
    + intros (d & [[He _]|Hd]%in_edges_cons); [by left|]. right. by exists d.
Qed.

Lemma add_edges_from_spec (es : list (string * string * attr_dict)) (G : nx.Graph) :
  graph_wf G -> functional_edges es ->
  (forall x y d, in_edges es x y d -> is_Some (node_attr G x)) ->
  graph_wf (nx.add_edges_from G es)
  /\ (forall m, node_attr (nx.add_edges_from G es) m = node_attr G m)
  /\ (forall x y d, in_edges es x y d ->
        edge_data (nx.add_edges_from G es) x y = Some (d ∪ default ∅ (edge_data G x y)))
  /\ (forall x y, (forall d, ~ in_edges es x y d) ->
        edge_data (nx.add_edges_from G es) x y = edge_data G x y).
Proof.
  revert G. induction es as [|[[u v] a] es IH]; intros G Hwf Hfun Hends.
  { split; [done|]. split; [done|]. split; [|done].
    intros x y d [?%elem_of_nil|?%elem_of_nil]; done. }
  unfold nx.add_edges_from. cbn [foldl fst snd].
  fold (nx.add_edges_from (nx.add_edge G u v a) es).
  assert (Hu : is_Some (node_attr G u)).
  { apply (Hends u v a). apply in_edges_cons. left. split; [by left|done]. }
  assert (Hv : is_Some (node_attr G v)).
  { apply (Hends v u a). apply in_edges_cons. left. split; [by right|done]. }
  assert (Hattr1 : forall m, node_attr (nx.add_edge G u v a) m = node_attr G m).
  { intros m. rewrite add_edge_attr. destruct (node_attr G m) eqn:E; [done|].
    rewrite decide_False; [done|]. intros [-> | ->]; rewrite E in *; by eapply is_Some_None. }
  destruct (IH (nx.add_edge G u v a)) as (Hwf' & Hattr & Hin & Hout).
  { by apply add_edge_wf. }
  { intros x y d d' Hd Hd'. apply (Hfun x y); apply in_edges_cons; by right. }
  { intros x y d Hd. rewrite Hattr1. apply (Hends x y d). apply in_edges_cons. by right. }
  assert (Hjoin : forall x y, joins x y (u, v, a) ->
             edge_data (nx.add_edge G u v a) x y = Some (a ∪ default ∅ (edge_data G x y))).
  { intros x y Hj. rewrite add_edge_data by done. unfold joins in Hj. cbn in Hj.
    rewrite decide_True by naive_solver.
    destruct Hj as [[<- <-]|[<- <-]]; [done|]. by rewrite (wf_sym _ Hwf). }
  assert (Hnojoin : forall x y, ~ joins x y (u, v, a) ->
             edge_data (nx.add_edge G u v a) x y = edge_data G x y).
  { intros x y Hj. rewrite add_edge_data by done. unfold joins in Hj. cbn in Hj.
    rewrite decide_False; [done|]. naive_solver. }
  split; [done|]. split; [by intros m; rewrite Hattr|]. split.
  - intros x y d Hd.
    destruct (decide (Exists (joins x y) es)) as [(d' & Hd')%in_edges_Exists|Hno].
    + assert (d' = d) as ->.
      { apply (Hfun x y); [|done]. apply in_edges_cons. by right. }
      rewrite (Hin _ _ _ Hd'). f_equal.
      destruct (decide (joins x y (u, v, a))) as [Hj|Hj].
      * assert (a = d) as ->.
        { apply (Hfun x y); [|done]. apply in_edges_cons. by left. }
        rewrite (Hjoin _ _ Hj). cbn. by rewrite (assoc_L (∪)), (idemp_L (∪)).
      * by rewrite (Hnojoin _ _ Hj).
    + apply in_edges_cons in Hd as [[Hj Ha]|Hd].
      * cbn in Ha. subst a. rewrite Hout; [by apply Hjoin|].
        intros d' Hd'. apply Hno, in_edges_Exists. by exists d'.
      * destruct Hno. apply in_edges_Exists. by exists d.
  - intros x y Hno. rewrite Hout.
    + apply Hnojoin. intros Hj. apply (Hno a), in_edges_cons. by left.
    + intros d Hd. apply (Hno d), in_edges_cons. by right.
Qed.

Lemma compose_spec (G H : nx.Graph) :
  graph_wf G -> graph_wf H ->
  graph_wf (nx.compose G H)
  /\ (forall m, node_attr (nx.compose G H) m
                = union_with (fun g h => Some (h ∪ g)) (node_attr G m) (node_attr H m))
  /\ (forall x y, edge_data (nx.compose G H) x y
                  = union_with (fun g h => Some (h ∪ g)) (edge_data G x y) (edge_data H x y)).
Proof.
  intros HG HH. unfold nx.compose.
  destruct (add_nodes_from_spec (nx._node G) nx.empty_graph)
    as (Hwf1 & Hattr1 & Hdata1); [apply graph_wf_empty|apply HG|].
  set (R1 := nx.add_nodes_from nx.empty_graph (nx._node G)) in *.
  destruct (add_nodes_from_spec (nx._node H) R1)
    as (Hwf2 & Hattr2 & Hdata2); [done|apply HH|].
  set (R := nx.add_nodes_from R1 (nx._node H)) in *.
  assert (HattrR : forall m, node_attr R m
            = union_with (fun g h => Some (h ∪ g)) (node_attr G m) (node_attr H m)).
  { intros m. rewrite Hattr2, Hattr1. unfold node_attr.
    destruct (od_get (nx._node G) m), (od_get (nx._node H) m); cbn;
      by rewrite ?(right_id_L ∅ (∪)). }
  assert (HdataR : forall x y, edge_data R x y = None).
  { intros x y. by rewrite Hdata2, Hdata1. }
  destruct (add_edges_from_spec (nx.edges G) R) as (Hwf3 & Hattr3 & Hin3 & Hout3).
  { done. }
  { intros x y d d' Hd Hd'. apply in_edges_edges in Hd, Hd'; try done. congruence. }
  { intros x y d Hd%in_edges_edges; [|done]. rewrite HattrR.
    destruct (wf_closed _ HG x y) as [g Hg]; [by eexists|]. rewrite Hg.
    destruct (node_attr H x); by eexists. }
  set (E1 := nx.add_edges_from R (nx.edges G)) in *.
  assert (HdataE1 : forall x y, edge_data E1 x y = edge_data G x y).
  { intros x y. destruct (edge_data G x y) as [d|] eqn:E.
    - rewrite (Hin3 x y d) by by apply in_edges_edges.
      rewrite HdataR. cbn. by rewrite (right_id_L ∅ (∪)).
    - rewrite Hout3, HdataR; [done|].
      intros d Hd%in_edges_edges; [|done]. congruence. }
  destruct (add_edges_from_spec (nx.edges H) E1) as (Hwf4 & Hattr4 & Hin4 & Hout4).
  { done. }
  { intros x y d d' Hd Hd'. apply in_edges_edges in Hd, Hd'; try done. congruence. }
  { intros x y d Hd%in_edges_edges; [|done]. rewrite Hattr3, HattrR.
    destruct (wf_closed _ HH x y) as [h Hh]; [by eexists|]. rewrite Hh.
    destruct (node_attr G x); by eexists. }
  split; [done|]. split.
  - intros m. by rewrite Hattr4, Hattr3.
  - intros x y. destruct (edge_data H x y) as [d|] eqn:E.
    + rewrite (Hin4 x y d) by by apply in_edges_edges.
      rewrite HdataE1. destruct (edge_data G x y); cbn; by rewrite ?(right_id_L ∅ (∪)).
    + rewrite Hout4, HdataE1.
      * by destruct (edge_data G x y).
      * intros d Hd%in_edges_edges; [|done]. congruence.
Qed.

Lemma update_attrs_get (ns nd : list (string * attr_dict)) (m : string) :
  NoDup ns.*1 ->
  od_get (foldl (fun nd (n : string * attr_dict) => od_alter (fun dd => n.2 ∪ dd) nd n.1)
                nd ns) m
  = match od_get ns m with
    | Some a => (fun dd => a ∪ dd) <$> od_get nd m
    | None => od_get nd m
    end.
Proof.
  revert nd. induction ns as [|[n a] ns IH]; intros nd Hnd; [done|].
  cbn in Hnd. apply NoDup_cons in Hnd as [Hn Hnd]. cbn [foldl fst snd].
  rewrite IH by done. rewrite od_get_alter. cbn.
  destruct (decide (n = m)) as [->|Hne]; [|done].
  apply od_get_None in Hn. by rewrite Hn.
Qed.

Lemma update_attrs_keys (ns nd : list (string * attr_dict)) :
  (foldl (fun nd (n : string * attr_dict) => od_alter (fun dd => n.2 ∪ dd) nd n.1) nd ns).*1
  = nd.*1.
Proof.
  revert nd. induction ns as [|[n a] ns IH]; intros nd; [done|].
  cbn [foldl]. by rewrite IH, od_alter_keys.
Qed.

Lemma Graph_of_spec (data : nx.Graph) :
  graph_wf data ->
  graph_wf (nx.Graph_of data)
  /\ (forall m, node_attr (nx.Graph_of data) m = node_attr data m)
  /\ (forall x y, edge_data (nx.Graph_of data) x y = edge_data data x y).
Proof.
  intros Hwf. unfold nx.Graph_of.
  destruct (add_nodes_from_spec ((fun un => (un.1, ∅)) <$> nx._adj data) nx.empty_graph)
    as (Hwf1 & Hattr1 & Hdata1).
  { apply graph_wf_empty. }
  { rewrite (od_keys_fmap (fun _ _ => (∅ : attr_dict))). apply Hwf. }
  set (G1 := nx.add_nodes_from nx.empty_graph _) in *.
  assert (HattrG1 : forall m, node_attr G1 m = (fun _ => ∅) <$> node_attr data m).
  { intros m. rewrite Hattr1. rewrite (od_get_fmap (fun _ _ => (∅ : attr_dict))).
    pose proof (wf_keys _ Hwf m) as Hk.
    destruct (od_get (nx._adj data) m) eqn:E; cbn.
    - destruct (proj2 Hk) as [dd Hdd]; [by eexists|]. rewrite Hdd. cbn.
      by rewrite (right_id_L ∅ (∪)).
    - destruct (node_attr data m) eqn:E'; [|done].
      destruct (proj1 Hk) as [? ?]; [by eexists|done]. }
  destruct (add_edges_from_spec (nx.adjacency_entries data) G1)
    as (Hwf2 & Hattr2 & Hin2 & Hout2).
  { done. }
  { intros x y d d' Hd Hd'. apply in_edges_adjacency_entries in Hd, Hd'; try done.
    congruence. }
  { intros x y d Hd%in_edges_adjacency_entries; [|done]. rewrite HattrG1, fmap_is_Some.
    apply (wf_closed _ Hwf x y). by eexists. }
  set (G2 := nx.add_edges_from G1 _) in *.
  assert (Hdata : forall x y, edge_data G2 x y = edge_data data x y).
  { intros x y. destruct (edge_data data x y) as [d|] eqn:E.
    - rewrite (Hin2 x y d) by by apply in_edges_adjacency_entries.
      rewrite Hdata1. cbn. by rewrite (right_id_L ∅ (∪)).
    - rewrite Hout2, Hdata1; [done|].
      intros d Hd%in_edges_adjacency_entries; [|done]. congruence. }
  assert (Hattr : forall m,
             od_get (foldl (fun nd (n : string * attr_dict) =>
                              od_alter (fun dd => n.2 ∪ dd) nd n.1)
                           (nx._node G2) (nx._node data)) m
             = node_attr data m).
  { intros m. rewrite update_attrs_get by apply Hwf.
    change (od_get (nx._node G2) m) with (node_attr G2 m). rewrite Hattr2, HattrG1.
    unfold node_attr. destruct (od_get (nx._node data) m); [|done]. cbn.
    by rewrite (right_id_L ∅ (∪)). }
  assert (Hsome : forall m, is_Some (node_attr data m) <-> is_Some (node_attr G2 m)).
  { intros m. by rewrite Hattr2, HattrG1, fmap_is_Some. }
  split; [|split; [exact Hattr|exact Hdata]].
  split.
  - intros m. unfold node_attr. cbn [nx._node nx._adj]. rewrite Hattr, Hsome. apply Hwf2.
  - cbn [nx._node]. rewrite update_attrs_keys. apply Hwf2.
  - apply Hwf2.
  - apply Hwf2.
  - apply (wf_sym _ Hwf2).
  - intros u v Hd. unfold node_attr. cbn [nx._node]. rewrite Hattr, Hsome.
    by apply (wf_closed _ Hwf2 u v).
Qed.

(** ** The base graph, by its attributes *)

Lemma singleton_union_twice (k a b : string) (m : attr_dict) :
  ({[ k := a ]} : attr_dict) ∪ ({[ k := b ]} ∪ m) = {[ k := a ]} ∪ m.
Proof.
  rewrite (assoc_L (∪)). f_equal.
  by rewrite <- insert_union_singleton_l, insert_singleton_eq.
Qed.

Lemma last_omap_cons {A B} (f : A -> option B) (x : A) (l : list A) :
  last (omap f (x :: l))
  = match last (omap f l) with Some y => Some y | None => f x end.
Proof.
  cbn [omap list_omap]. destruct (f x) as [y|]; [|by destruct (last _)].
  rewrite last_cons. by destruct (last _).
Qed.

Lemma from_pandas_edgelist_spec (df : list erow) (G0 : nx.Graph) :
  graph_wf G0 ->
  let G := foldl (fun g (r : erow) =>
                    nx.add_edge g (word_1 r) (word_2 r) {[ "edge valence" := edge_valence_of r ]})
                 G0 df in
  graph_wf G
  /\ (forall m, node_attr G m
                = match node_attr G0 m with
                  | Some dd => Some dd
                  | None => (fun _ => ∅) <$> node_attr G m
                  end)
  /\ (forall x y, edge_data G x y
                  = match last_edge_valence df x y with
                    | Some v => Some ({[ "edge valence" := v ]} ∪ default ∅ (edge_data G0 x y))
                    | None => edge_data G0 x y
                    end).
Proof.
  revert G0. induction df as [|r df IH]; intros G0 Hwf; cbn zeta.
  { split; [done|]. split; [|done]. intros m. cbn. by destruct (node_attr G0 m). }
  cbn [foldl].
  set (G1 := nx.add_edge G0 (word_1 r) (word_2 r) {[ "edge valence" := edge_valence_of r ]}).
  destruct (IH G1) as (Hwf' & Hattr & Hdata); [by apply add_edge_wf|].
  split; [done|]. split.
  - intros m. rewrite Hattr at 1. unfold G1 at 1. rewrite add_edge_attr.
    destruct (node_attr G0 m); [done|].
    destruct (decide _); [|done].
    match goal with |- _ = _ <$> ?o => destruct o eqn:E end; [done|].
    rewrite Hattr in E. unfold G1 in E. rewrite add_edge_attr in E.
    destruct (node_attr G0 m); [done|]. by rewrite decide_True in E.
  - intros x y. rewrite Hdata. unfold last_edge_valence. rewrite last_omap_cons.
    fold (last_edge_valence df x y).
    unfold G1. rewrite add_edge_data by done.
    destruct (decide (row_joins x y r)) as [Hj|Hj].
    + rewrite decide_True by (unfold row_joins in Hj; naive_solver).
      assert (Hxy : edge_data G0 (word_1 r) (word_2 r) = edge_data G0 x y).
      { destruct Hj as [[<- <-]|[<- <-]]; [done|]. apply Hwf. }
      rewrite Hxy. destruct (last_edge_valence df x y); [|done]. cbn.
      by rewrite singleton_union_twice.
    + rewrite decide_False by (unfold row_joins in Hj; naive_solver).
      by destruct (last_edge_valence df x y).
Qed.

Lemma set_valences_assignments (df : list erow) (G0 : nx.Graph) :
  foldl (fun G (r : erow) =>
           nx.set_node_attr
             (nx.set_node_attr G (word_1 r) "valence" (word_1_valence r))
             (word_2 r) "valence" (word_2_valence r))
        G0 df
  = foldl (fun G (a : string * string) => nx.set_node_attr G a.1 "valence" a.2)
          G0 (valence_assignments df).
Proof.
  revert G0. induction df as [|r df IH]; intros G0; [done|].
  unfold valence_assignments. cbn [mbind list_bind app foldl fst snd]. apply IH.
Qed.

Lemma assignments_attr (l : list (string * string)) (G0 : nx.Graph) :
  graph_wf G0 ->
  let G := foldl (fun G (a : string * string) => nx.set_node_attr G a.1 "valence" a.2) G0 l in
  graph_wf G
  /\ nx._adj G = nx._adj G0
  /\ forall m, node_attr G m
               = match last (omap (fun a : string * string =>
                                     if decide (a.1 = m) then Some a.2 else None) l) with
                 | Some v => <[ "valence" := v ]> <$> node_attr G0 m
                 | None => node_attr G0 m
                 end.
Proof.
  revert G0. induction l as [|a l IH]; intros G0 Hwf; cbn zeta; [done|].
  cbn [foldl].
  destruct (IH (nx.set_node_attr G0 a.1 "valence" a.2)) as (Hwf' & Hadj & Hattr);
    [by apply set_node_attr_wf|].
  split; [done|]. split; [by rewrite Hadj|].
  intros m. rewrite Hattr, last_omap_cons, set_node_attr_attr.
  destruct (last (omap _ l)) as [v|].
  - destruct (decide (m = a.1)) as [->|Hne]; [|done].
    rewrite <- option_fmap_compose. apply option_fmap_ext. intros dd. cbn.
    by rewrite insert_insert_eq.
  - destruct (decide (m = a.1)) as [->|Hne].
    + by rewrite decide_True.
    + by rewrite decide_False.
Qed.

Lemma set_valences_attr (df : list erow) (G0 : nx.Graph) :
  graph_wf G0 ->
  let G := foldl (fun G (r : erow) =>
                    nx.set_node_attr
                      (nx.set_node_attr G (word_1 r) "valence" (word_1_valence r))
                      (word_2 r) "valence" (word_2_valence r))
                 G0 df in
  graph_wf G
  /\ nx._adj G = nx._adj G0
  /\ forall m, node_attr G m
               = match last_assigned df m with
                 | Some v => <[ "valence" := v ]> <$> node_attr G0 m
                 | None => node_attr G0 m
                 end.
Proof.
  intros Hwf. cbn zeta. rewrite set_valences_assignments. by apply assignments_attr.
Qed.

Lemma last_omap_is_Some {A B} (f : A -> option B) (l : list A) :
  is_Some (last (omap f l)) <-> exists x, x ∈ l /\ is_Some (f x).
Proof.
  induction l as [|x l IH].
  - split; [by intros [? ?]|]. by intros (x & ?%elem_of_nil & _).
  - rewrite last_omap_cons. split.
    + destruct (last (omap f l)) eqn:E.
      * intros _. destruct (proj1 IH) as (x' & Hx' & Hf); [by eexists|].
        exists x'. split; [by right|done].
      * intros Hf. exists x. split; [by left|done].
    + intros (x' & [->|Hx']%elem_of_cons & Hf).
      * by destruct (last (omap f l)).
      * destruct (proj2 IH) as [y Hy]; [by exists x'|]. rewrite Hy. by eexists.
Qed.

Lemma last_omap_elem {A B} (f : A -> option B) (l : list A) (y : B) :
  last (omap f l) = Some y -> exists x, x ∈ l /\ f x = Some y.
Proof.
  intros Hl. apply last_Some_elem_of in Hl. by apply list_elem_of_omap in Hl.
Qed.

Lemma last_assigned_is_word (df : list erow) (n : string) :
  is_Some (last_assigned df n) <-> is_word df n.
Proof.
  unfold last_assigned, is_word. rewrite last_omap_is_Some. split.
  - intros ([w v] & Hin & Hs). cbn in Hs.
    destruct (decide (w = n)) as [->|]; [|by destruct Hs].
    apply list_elem_of_bind in Hin as (r & Hin & Hr). exists r. split; [done|].
    apply elem_of_cons in Hin as [[= -> _]|Hin]; [by left|].
    apply list_elem_of_singleton in Hin as [= -> _]. by right.
  - intros (r & Hr & [-> | ->]).
    + exists (word_1 r, word_1_valence r). split.
      * apply list_elem_of_bind. exists r. split; [by left|done].
      * cbn. by rewrite decide_True.
    + exists (word_2 r, word_2_valence r). split.
      * apply list_elem_of_bind. exists r. split; [by right; left|done].
      * cbn. by rewrite decide_True.
Qed.

Lemma create_base_graph_attrs (df : list erow) :
  graph_wf (create_base_graph df)
  /\ (forall m, node_attr (create_base_graph df) m
                = (fun v => {[ "valence" := v ]}) <$> last_assigned df m)
  /\ (forall x y, edge_data (create_base_graph df) x y
                  = (fun v => {[ "edge valence" := v ]}) <$> last_edge_valence df x y).
Proof.
  unfold create_base_graph, nx.from_pandas_edgelist.
  destruct (from_pandas_edgelist_spec df nx.empty_graph graph_wf_empty)
    as (Hwf1 & Hattr1 & Hdata1).
  set (G1 := foldl _ nx.empty_graph df) in *.
  destruct (set_valences_attr df G1 Hwf1) as (Hwf & Hadj & Hattr).
  set (G := foldl _ G1 df) in *.
  split; [done|]. split.
  - intros m. rewrite Hattr.
    destruct (add_edges_spec df nx.empty_graph) as (_ & Hnode & _); [by intros n; cbn|].
    specialize (Hnode m). specialize (Hattr1 m). cbn in Hattr1.
    fold G1 in Hnode. change (od_get (nx._node G1) m) with (node_attr G1 m) in Hnode.
    pose proof (last_assigned_is_word df m) as Hw.
    destruct (last_assigned df m) as [v|]; cbn.
    + destruct (proj2 Hnode) as [dd Hdd]; [right; apply Hw; by eexists|].
      rewrite Hdd in Hattr1 |- *. cbn in *. injection Hattr1 as ->.
      by rewrite insert_empty.
    + destruct (node_attr G1 m) eqn:E; [|done].
      destruct (proj1 Hnode) as [[? ?]|Hword]; [by eexists|done|].
      apply Hw in Hword. by destruct Hword.
  - intros x y. unfold edge_data. rewrite Hadj. fold (edge_data G1 x y).
    rewrite Hdata1. destruct (last_edge_valence df x y); [|done]. cbn.
    by rewrite (right_id_L ∅ (∪)).
Qed.

Lemma create_base_graph_wf (df : list erow) : graph_wf (create_base_graph df).
Proof. apply create_base_graph_attrs. Qed.

Lemma node_valence_attr (G : nx.Graph) (n : string) :
  node_valence G n
  = match node_attr G n with
    | Some dd => Ok (dd !! "valence")
    | None => Raise AttributeError
    end.
Proof. done. Qed.

Lemma select_row_sym (v1 v2 : string) : select_row v1 v2 = select_row v2 v1.
Proof.
  destruct (decide (v1 ∈ categories)) as [H1|H1];
    [destruct (decide (v2 ∈ categories)) as [H2|H2]|].
  - apply elem_of_categories in H1, H2.
    by destruct H1 as [->|[->| ->]], H2 as [->|[->| ->]].
  - rewrite !select_row_default; auto.
  - rewrite !select_row_default; auto.
Qed.

(** X7. In the base graph the attribute dictionary of a word holds its
    valence and nothing else: the valence of the last assignment of
    [create_base_graph] to the word, the second word of a row after the
    first. When the table gives every word one valence, that is the valence
    of the node. *)
Theorem base_graph_node_valence (df : list erow) :
  (forall n, node_attr (create_base_graph df) n
             = (fun v => {[ "valence" := v ]}) <$> last_assigned df n)
  /\ (forall n, is_word df n ->
        exists v, last_assigned df n = Some v
                  /\ node_valence (create_base_graph df) n = Ok (Some v))
  /\ (forall n, ~ is_word df n ->
        node_valence (create_base_graph df) n = Raise AttributeError)
  /\ (forall f, valences_from f df -> forall n, is_word df n ->
        node_valence (create_base_graph df) n = Ok (Some (f n))).
Proof.
  destruct (create_base_graph_attrs df) as (_ & Hattr & _).
  assert (Hword : forall n, is_word df n ->
             exists v, last_assigned df n = Some v
                       /\ node_valence (create_base_graph df) n = Ok (Some v)).
  { intros n [v Hv]%last_assigned_is_word. exists v. split; [done|].
    rewrite node_valence_attr, Hattr, Hv. cbn. by rewrite lookup_singleton_eq. }
  split; [exact Hattr|]. split; [exact Hword|]. split.
  - intros n Hn. rewrite node_valence_attr, Hattr.
    destruct (last_assigned df n) eqn:E; [|done].
    destruct Hn. apply last_assigned_is_word. by eexists.
  - intros f Hf n Hn. destruct (Hword n Hn) as (v & Hv & ->). do 2 f_equal.
    apply last_omap_elem in Hv as ([w v'] & Hin & Hsel). cbn in Hsel.
    destruct (decide (w = n)) as [->|]; [|done]. injection Hsel as ->.
    apply list_elem_of_bind in Hin as (r & Hin & Hr). destruct (Hf r Hr) as [H1 H2].
    apply elem_of_cons in Hin as [[= -> ->]|Hin]; [done|].
    by apply list_elem_of_singleton in Hin as [= -> ->].
Qed.

(** X8. In the base graph the attribute dictionary of an edge holds the edge
    valence of the last row that joins its two words, in one direction or in
    the other, and nothing else; the two directions of an edge hold the same
    dictionary. When the table gives every word one valence and the edge
    valences are those of [edge_valence], that is the value of the table of
    valences at the valences of the two words. *)
Theorem base_graph_edge_valence (df : list erow) :
  (forall x y, edge_data (create_base_graph df) x y
               = (fun v => {[ "edge valence" := v ]}) <$> last_edge_valence df x y)
  /\ (forall x y, edge_data (create_base_graph df) x y = edge_data (create_base_graph df) y x)
  /\ (forall x y, associated df x y <-> is_Some (edge_data (create_base_graph df) x y))
  /\ (forall f,
        valences_from f df ->
        (forall r : erow, r ∈ df ->
           edge_valence_of r = select_row (word_1_valence r) (word_2_valence r)) ->
        forall x y, associated df x y ->
          edge_data (create_base_graph df) x y
          = Some {[ "edge valence" := select_row (f x) (f y) ]}).
Proof.
  destruct (create_base_graph_attrs df) as (Hwf & _ & Hdata).
  assert (Hassoc : forall x y,
             associated df x y <-> is_Some (edge_data (create_base_graph df) x y)).
  { intros x y. rewrite <- neighbors_edge_data. symmetry. apply create_base_graph_spec. }
  split; [exact Hdata|]. split; [apply Hwf|]. split; [exact Hassoc|].
  intros f Hf Hev x y Hxy. apply Hassoc in Hxy as [d Hd]. rewrite Hd.
  rewrite Hdata in Hd. destruct (last_edge_valence df x y) as [v|] eqn:E; [|done].
  injection Hd as <-. do 2 f_equal.
  apply last_omap_elem in E as (r & Hr & Hsel).
  destruct (decide (row_joins x y r)) as [Hj|]; [|done]. injection Hsel as <-.
  rewrite (Hev r Hr). destruct (Hf r Hr) as [-> ->].
  destruct Hj as [[-> ->]|[-> ->]]; [done|apply select_row_sym].
Qed.

Lemma base_graph_node_valence_witness :
  node_valence (create_base_graph scenario_df) "dog" = Ok (Some "neutral").
Proof.
  destruct (base_graph_node_valence scenario_df) as (_ & _ & _ & Hf).
  apply (Hf scenario_valence_of).
  - intros r Hr. unfold scenario_df in Hr.
    repeat (apply elem_of_cons in Hr as [->|Hr]); [done..|]. by apply elem_of_nil in Hr.
  - exists (ERow (Row "cat" "dog" "positive" "neutral") "neutral").
    split; [by left|by right].
Defined.

Lemma base_graph_edge_valence_witness :
  edge_data (create_base_graph scenario_df) "wolf" "dog"
  = Some {[ "edge valence" := "neutral" ]}.
Proof.
  destruct (base_graph_edge_valence scenario_df) as (_ & _ & _ & Hf).
  apply (Hf scenario_valence_of).
  - intros r Hr. unfold scenario_df in Hr.
    repeat (apply elem_of_cons in Hr as [->|Hr]); [done..|]. by apply elem_of_nil in Hr.
  - intros r Hr. unfold scenario_df in Hr.
    repeat (apply elem_of_cons in Hr as [->|Hr]); [done..|]. by apply elem_of_nil in Hr.
  - exists (ERow (Row "dog" "wolf" "neutral" "negative") "neutral").
    split; [by right; left|]. right. by split.
Defined.

(** ** The colours *)

Lemma node_colour_of_valence (v : string) :
  node_colour_of {[ "valence" := v ]} = colour_of v.
Proof.
  unfold node_colour_of, colour_of.
  assert (Hinj : forall a : string,
             ({[ "valence" := v ]} : attr_dict) = {[ "valence" := a ]} <-> v = a).
  { intros a. split; [|by intros ->]. intros Heq.
    assert (H : ({[ "valence" := v ]} : attr_dict) !! "valence" = Some a)
      by (rewrite Heq; apply lookup_singleton_eq).
    rewrite lookup_singleton_eq in H. congruence. }
  repeat (destruct (decide (_ = _)) as [?%Hinj|?]; [subst v; done|]).
  rewrite !decide_False; [done|by rewrite <- Hinj..].
Qed.

Lemma node_colours_fold (l : list (string * attr_dict)) (acc : gmap string string)
    (n : string) :
  NoDup l.*1 ->
  foldl (fun node_colour_dict (nv : string * attr_dict) =>
           if decide (nv.2 = {[ "valence" := "positive" ]}) then <[nv.1 := "tab:blue"]> node_colour_dict
           else if decide (nv.2 = {[ "valence" := "neutral" ]}) then <[nv.1 := "tab:grey"]> node_colour_dict
           else if decide (nv.2 = {[ "valence" := "negative" ]}) then <[nv.1 := "tab:red"]> node_colour_dict
           else node_colour_dict)
        acc l !! n
  = match od_get l n ≫= node_colour_of with
    | Some c => Some c
    | None => acc !! n
    end.
Proof.
  revert acc. induction l as [|[k dd] l IH]; intros acc Hnd; [done|].
  cbn in Hnd. apply NoDup_cons in Hnd as [Hk Hnd]. cbn [foldl fst snd].
  rewrite IH by done. cbn [od_get]. destruct (decide (k = n)) as [->|Hne].
  - apply od_get_None in Hk. rewrite Hk. cbn. unfold node_colour_of.
    repeat (destruct (decide (dd = _)); [by rewrite lookup_insert_eq|]). done.
  - destruct (od_get l n ≫= node_colour_of); [done|].
    repeat (destruct (decide (dd = _)); [by rewrite lookup_insert_ne|]). done.
Qed.

Lemma node_colours_lookup (G : nx.Graph) (n : string) :
  NoDup (nx.nodes G) -> node_colours G !! n = node_attr G n ≫= node_colour_of.
Proof.
  intros Hnd. unfold node_colours. rewrite node_colours_fold by done.
  rewrite lookup_empty. unfold node_attr. by destruct (od_get (nx._node G) n ≫= _).
Qed.

(** X9. [node_colours], on a graph that lists no node twice, gives a node
    blue, grey or red when its attribute dictionary holds a positive, neutral
    or negative valence and nothing else, and no entry otherwise: none for a
    word whose valence is ["nan"], none for a node with a further attribute.
    On the base graph the colour of a word is that of the last valence
    assigned to it. *)
Theorem node_colours_by_valence :
  (forall G n v,
      NoDup (nx.nodes G) -> node_attr G n = Some {[ "valence" := v ]} ->
      node_colours G !! n = colour_of v)
  /\ (forall G n,
        NoDup (nx.nodes G) ->
        (forall v, v ∈ categories -> node_attr G n <> Some {[ "valence" := v ]}) ->
        node_colours G !! n = None)
  /\ colour_of "nan" = None
  /\ (forall df n, node_colours (create_base_graph df) !! n = last_assigned df n ≫= colour_of).
Proof.
  split; [|split; [|split]].
  - intros G n v Hnd Hn. rewrite node_colours_lookup, Hn by done. cbn.
    apply node_colour_of_valence.
  - intros G n Hnd Hn. rewrite node_colours_lookup by done.
    destruct (node_attr G n) as [dd|]; [|done]. cbn. unfold node_colour_of.
    repeat (destruct (decide (dd = _)) as [->|?];
            [edestruct Hn; [|done]; apply elem_of_categories; tauto|]).
    done.
  - done.
  - intros df n. rewrite node_colours_lookup by apply (wf_nodes _ (create_base_graph_wf df)).
    destruct (create_base_graph_attrs df) as (_ & -> & _).
    destruct (last_assigned df n); [|done]. cbn. apply node_colour_of_valence.
Qed.

Lemma node_colours_by_valence_witness :
  node_colours joy_grief !! "grief" = Some "tab:red".
Proof.
  destruct node_colours_by_valence as (Hcol & _).
  apply (Hcol joy_grief "grief" "negative").
  - by_compute.
  - reflexivity.
Defined.

Lemma edge_colour_step_colour st (e : string * string * attr_dict) :
  recognised (e.2 !! "edge valence") ->
  exists c, e.2 !! "edge valence" ≫= colour_of = Some c
            /\ edge_colour_step st e = Ok (Some c, <[edge_key e := c]> st.2).
Proof.
  unfold edge_colour_step, edge_key.
  intros [H|[H|H]]; rewrite H; cbn; by eexists.
Qed.

Lemma edge_colour_loop_colour (es : list (string * string * attr_dict)) st :
  Forall (fun e => recognised (e.2 !! "edge valence")) es ->
  NoDup (edge_key <$> es) ->
  exists st',
    for_each edge_colour_step es st = Ok st'
    /\ (forall e, e ∈ es ->
          is_Some (st'.2 !! edge_key e)
          /\ st'.2 !! edge_key e = e.2 !! "edge valence" ≫= colour_of)
    /\ (forall k, k ∉ edge_key <$> es -> st'.2 !! k = st.2 !! k).
Proof.
  intros Hall. revert st. induction Hall as [|e es He _ IH]; intros st Hnd.
  - exists st. split; [done|]. split; [by intros e ?%elem_of_nil|done].
  - cbn in Hnd. apply NoDup_cons in Hnd as [Hk Hnd].
    destruct (edge_colour_step_colour st e He) as (c & Hc & Hstep).
    destruct (IH (Some c, <[edge_key e := c]> st.2) Hnd) as (st' & Hloop & Hin & Hout).
    exists st'. cbn [for_each]. rewrite Hstep. cbn [mbind result_bind].
    split; [exact Hloop|]. split.
    + intros e' [->|He']%elem_of_cons; [|by apply Hin].
      rewrite (Hout _ Hk). cbn. rewrite lookup_insert_eq, Hc. by split; [eexists|].
    + intros k [Hne Hk']%not_elem_of_cons. rewrite (Hout _ Hk'). cbn.
      by rewrite lookup_insert_ne.
Qed.

Lemma edges_one_direction (G : nx.Graph) (u v : string) (d d' : attr_dict) :
  graph_wf G -> (u, v, d) ∈ nx.edges G -> (v, u, d') ∈ nx.edges G -> u = v.
Proof.
  intros Hwf (i & nu & Hi & _ & _ & Hv)%elem_of_edges_from
             (j & nv & Hj & _ & _ & Hu)%elem_of_edges_from.
  assert (Hbefore : forall a b (k l : nat) na nb,
             nx._adj G !! k = Some (a, na) -> nx._adj G !! l = Some (b, nb) ->
             a ∉ (take l (nx._adj G)).*1 -> l <= k).
  { intros a b k l na nb Hk Hl Ha. destruct (decide (l <= k)) as [|Hlt]; [done|].
    destruct Ha. apply list_elem_of_fmap. exists (a, na). split; [done|].
    apply list_elem_of_lookup. exists k. rewrite lookup_take_lt by lia. done. }
  pose proof (Hbefore _ _ _ _ _ _ Hi Hj Hu).
  pose proof (Hbefore _ _ _ _ _ _ Hj Hi Hv).
  assert (i = j) as -> by lia. congruence.
Qed.

(** X10. On a graph whose edges all have a positive, neutral or negative
    edge valence, [edge_colours] returns a dictionary that holds every edge
    once, under the pair of its ends in the order in which the graph lists
    them and not under the reversed pair, with the colour of the valence of
    the edge itself, and that holds nothing else. *)
Theorem edge_colours_recognised (G : nx.Graph) :
  graph_wf G ->
  Forall (fun e => recognised (e.2 !! "edge valence")) (nx.edges G) ->
  exists d,
    edge_colours G = Ok d
    /\ (forall u v dd, (u, v, dd) ∈ nx.edges G ->
          is_Some (d !! (u, v)) /\ d !! (u, v) = dd !! "edge valence" ≫= colour_of)
    /\ (forall u v dd, edge_data G u v = Some dd ->
          d !! (u, v) = dd !! "edge valence" ≫= colour_of
          \/ d !! (v, u) = dd !! "edge valence" ≫= colour_of)
    /\ (forall u v, is_Some (d !! (u, v)) -> is_Some (edge_data G u v))
    /\ (forall u v, u <> v -> is_Some (d !! (u, v)) -> d !! (v, u) = None).
Proof.
  intros Hwf Hall.
  destruct (edge_colour_loop_colour (nx.edges G) (None, ∅) Hall (edges_NoDup G Hwf))
    as (st' & Hloop & Hin & Hout).
  exists st'.2. unfold edge_colours. rewrite Hloop. cbn [mbind result_bind].
  assert (Hkey : forall u v, is_Some (st'.2 !! (u, v)) -> exists dd, (u, v, dd) ∈ nx.edges G).
  { intros u v Hs. destruct (decide ((u, v) ∈ edge_key <$> nx.edges G)) as [Hk|Hk].
    - apply list_elem_of_fmap in Hk as ([[u' v'] dd] & [= <- <-] & He). by exists dd.
    - rewrite (Hout _ Hk) in Hs. cbn in Hs. rewrite lookup_empty in Hs. by destruct Hs. }
  split; [done|]. split; [|split; [|split]].
  - intros u v dd He. apply (Hin _ He).
  - intros u v dd Hd. destruct (edges_complete _ _ _ _ Hwf Hd) as [He|He].
    + left. apply (Hin _ He).
    + right. apply (Hin _ He).
  - intros u v [dd He]%Hkey. apply edges_data in He; [|done]. by eexists.
  - intros u v Hne [dd He]%Hkey.
    destruct (st'.2 !! (v, u)) eqn:E; [|done].
    destruct (Hkey v u) as [dd' He']; [by eexists|].
    destruct Hne. by eapply edges_one_direction.
Qed.

Lemma edge_colours_recognised_witness :
  exists d,
    edge_colours (create_base_graph scenario_df) = Ok d
    /\ d !! ("cat", "dog") = Some "tab:grey"
    /\ d !! ("dog", "cat") = None.
Proof.
  destruct (edge_colours_recognised (create_base_graph scenario_df))
    as (d & Hd & Hin & _ & _ & Hone).
  - apply create_base_graph_wf.
  - by_compute.
  - exists d. split; [exact Hd|].
    destruct (Hin "cat" "dog" {[ "edge valence" := "neutral" ]}) as [Hs Hc]; [by_compute|].
    split; [exact Hc|]. by apply Hone.
Defined.

(** ** The structure of the shortest paths *)

Lemma is_walk_app (G : nx.Graph) (p q : list string) :
  is_walk G (p ++ q) <->
  is_walk G p /\ is_walk G q
  /\ forall u v, last p = Some u -> head q = Some v -> v ∈ nx.neighbors G u.
Proof.
  induction p as [|a [|b p] IH].
  - cbn. split; [by intros ?|by intros (_ & ? & _)].
  - destruct q as [|c q]; cbn; [naive_solver|].
    split.
    + intros [Hc Hq]. split; [done|]. split; [done|]. by intros u v [= <-] [= <-].
    + intros (_ & Hq & Hl). split; [by apply Hl|done].
  - change ((a :: b :: p) ++ q) with (a :: (b :: p) ++ q).
    change (is_walk G (a :: (b :: p) ++ q))
      with (b ∈ nx.neighbors G a /\ is_walk G ((b :: p) ++ q)).
    rewrite IH.
    change (is_walk G (a :: b :: p)) with (b ∈ nx.neighbors G a /\ is_walk G (b :: p)).
    rewrite (last_cons_cons a b p). tauto.
Qed.

Lemma is_walk_take (G : nx.Graph) (p : list string) (i : nat) :
  is_walk G p -> is_walk G (take i p).
Proof.
  intros Hp. rewrite <- (take_drop i p) in Hp. by apply is_walk_app in Hp as [? _].
Qed.

Lemma is_walk_drop (G : nx.Graph) (p : list string) (i : nat) :
  is_walk G p -> is_walk G (drop i p).
Proof.
  intros Hp. rewrite <- (take_drop i p) in Hp. by apply is_walk_app in Hp as (_ & ? & _).
Qed.

Lemma last_take_S {A} (l : list A) (i : nat) (x : A) :
  l !! i = Some x -> last (take (S i) l) = Some x.
Proof.
  intros Hi. rewrite last_lookup. rewrite length_take.
  pose proof (lookup_lt_Some _ _ _ Hi).
  replace (Nat.pred (S i `min` length l)) with i by lia.
  by rewrite lookup_take_lt by lia.
Qed.

Lemma head_drop {A} (l : list A) (i : nat) : head (drop i l) = l !! i.
Proof. by rewrite head_lookup, lookup_drop, Nat.add_0_r. Qed.

Lemma last_app_cons {A} (l1 l2 : list A) (x : A) :
  last (l1 ++ x :: l2) = last (x :: l2).
Proof.
  induction l1 as [|a l1 IH]; [done|]. cbn [app]. rewrite last_cons, IH.
  rewrite (last_cons x l2). by destruct (last l2).
Qed.

(** The start of a path, up to one of its nodes, is a path to that node. *)
Lemma path_between_take (G : nx.Graph) (s t x : string) (p : list string) (i : nat) :
  path_between G s t p -> p !! i = Some x ->
  path_between G s x (take (S i) p) /\ length (take (S i) p) = S i.
Proof.
  intros (Hh & Hl & Hw) Hi. pose proof (lookup_lt_Some _ _ _ Hi). split.
  - split; [|split].
    + destruct p; [done|]. done.
    + by apply last_take_S.
    + by apply is_walk_take.
  - rewrite length_take. lia.
Qed.

(** A path to a node of a path, continued by the rest of that path. *)
Lemma path_between_splice (G : nx.Graph) (s t x : string) (p q : list string) (i : nat) :
  path_between G s t p -> p !! i = Some x -> path_between G s x q ->
  path_between G s t (q ++ drop (S i) p).
Proof.
  intros (Hh & Hl & Hw) Hi (Hqh & Hql & Hqw).
  pose proof (lookup_lt_Some _ _ _ Hi) as Hlt.
  destruct q as [|q0 q]; [done|]. split; [|split].
  - done.
  - destruct (drop (S i) p) as [|y r] eqn:E.
    + rewrite (right_id_L [] (++)).
      assert (length p = S i).
      { apply (f_equal length) in E. rewrite length_drop in E. cbn in E. lia. }
      rewrite last_lookup in Hl. replace (Nat.pred (length p)) with i in Hl by lia.
      congruence.
    + rewrite last_app_cons. rewrite <- E.
      rewrite <- (take_drop (S i) p) in Hl. rewrite E in Hl |- *.
      by rewrite last_app_cons in Hl.
  - apply is_walk_app. split; [done|]. split; [by apply is_walk_drop|].
    intros u v Hu Hv. rewrite Hql in Hu. injection Hu as <-.
    rewrite head_drop in Hv.
    rewrite <- (take_drop i p) in Hw. apply is_walk_app in Hw as (_ & Hw & _).
    rewrite (drop_S _ _ _ Hi) in Hw.
    destruct (drop (S i) p) as [|y r] eqn:E.
    + rewrite <- head_drop, E in Hv. done.
    + rewrite <- head_drop, E in Hv. injection Hv as ->. by destruct Hw.
Qed.

(** On a shortest path, no path to a node is shorter than the start of the
    path up to that node. *)
Lemma shortest_prefix (G : nx.Graph) (s t x : string) (p q : list string) (i : nat) :
  shortest_between G s t p -> p !! i = Some x -> path_between G s x q -> S i <= length q.
Proof.
  intros [Hp Hmin] Hi Hq.
  pose proof (Hmin _ (path_between_splice _ _ _ _ _ _ _ Hp Hi Hq)) as Hle.
  rewrite length_app, length_drop in Hle.
  pose proof (lookup_lt_Some _ _ _ Hi). lia.
Qed.

(** Two shortest paths have a node they share at the same position. *)
Lemma shortest_same_position (G : nx.Graph) (s t x : string) (p q : list string) (i j : nat) :
  shortest_between G s t p -> shortest_between G s t q ->
  p !! i = Some x -> q !! j = Some x -> i = j.
Proof.
  intros Hp Hq Hi Hj.
  destruct (path_between_take _ _ _ _ _ _ (proj1 Hp) Hi) as [Hpi Hli].
  destruct (path_between_take _ _ _ _ _ _ (proj1 Hq) Hj) as [Hqj Hlj].
  pose proof (shortest_prefix _ _ _ _ _ _ _ Hp Hi Hqj).
  pose proof (shortest_prefix _ _ _ _ _ _ _ Hq Hj Hpi). lia.
Qed.

Lemma shortest_NoDup (G : nx.Graph) (s t : string) (p : list string) :
  shortest_between G s t p -> NoDup p.
Proof.
  intros Hp. apply NoDup_alt. intros i j x Hi Hj.
  by eapply (shortest_same_position G s t x p p).
Qed.

Lemma shortest_length (G : nx.Graph) (s t : string) (p q : list string) :
  shortest_between G s t p -> shortest_between G s t q -> length p = length q.
Proof.
  intros [Hp Hpmin] [Hq Hqmin]. pose proof (Hpmin _ Hq). pose proof (Hqmin _ Hp). lia.
Qed.

Lemma path_between_ends (G : nx.Graph) (s t : string) (p : list string) :
  path_between G s t p ->
  p !! 0 = Some s /\ p !! (length p - 1) = Some t /\ 1 <= length p.
Proof.
  intros (Hh & Hl & _). destruct p as [|a p]; [done|]. split; [done|].
  rewrite last_lookup in Hl. cbn in *. rewrite Nat.sub_0_r. split; [done|lia].
Qed.

Lemma shortest_self (G : nx.Graph) (s : string) (p : list string) :
  shortest_between G s s p <-> p = [s].
Proof.
  split.
  - intros [Hp Hmin]. assert (Hs : path_between G s s [s]) by done.
    pose proof (Hmin _ Hs) as Hle. destruct Hp as (Hh & _).
    destruct p as [|a [|b p]]; cbn in *; [done|congruence|lia].
  - intros ->. split; [done|]. intros q (Hh & _). destruct q; cbn; [done|lia].
Qed.

Lemma shortest_distinct_ends (G : nx.Graph) (s t : string) (p : list string) :
  s <> t -> shortest_between G s t p -> 2 <= length p.
Proof.
  intros Hne [(Hh & Hl & _) _]. destruct p as [|a [|b p]]; cbn in *; [done| |lia].
  congruence.
Qed.

Lemma shortest_exists (G : nx.Graph) (s t : string) :
  nx.has_node G s = true -> connected G s t -> exists p, shortest_between G s t p.
Proof.
  intros Hs [q Hq].
  destruct (predecessor_spec G s Hs) as (P & S_ & _ & Hfin).
  destruct (path_between_reach _ _ _ _ Hq) as (k & _ & Hk).
  destruct (fin_complete _ _ _ _ Hfin _ _ Hk) as [k' Hk'].
  destruct (fin_sound _ _ _ _ Hfin _ _ Hk') as ((p & Hp & Hlen) & Hmin & _).
  exists p. split; [done|]. intros q' Hq'.
  destruct (path_between_reach _ _ _ _ Hq') as (j & Hj & Hr).
  pose proof (Hmin _ Hr). lia.
Qed.

(** ** The bridge graph *)

Lemma bridge_fold (graph : nx.Graph) (ps ps0 : list (list string)) (S0 : nx.Graph) :
  graph_wf graph ->
  graph_wf S0 ->
  (forall m, node_attr S0 m = if decide (on_paths ps0 m) then node_attr graph m else None) ->
  (forall x y, edge_data S0 x y
               = if decide (together_on_paths ps0 x y) then edge_data graph x y else None) ->
  let B := foldl (fun subgraph path => nx.compose subgraph (nx.subgraph graph path)) S0 ps in
  graph_wf B
  /\ (forall m, node_attr B m
                = if decide (on_paths (ps0 ++ ps) m) then node_attr graph m else None)
  /\ (forall x y, edge_data B x y
                  = if decide (together_on_paths (ps0 ++ ps) x y)
                    then edge_data graph x y else None).
Proof.
  intros Hwf. revert ps0 S0. induction ps as [|p ps IH]; intros ps0 S0 Hwf0 Hattr Hdata;
    cbn zeta.
  { by rewrite (right_id_L [] (++)). }
  cbn [foldl].
  destruct (compose_spec S0 (nx.subgraph graph p) Hwf0 (subgraph_wf _ _ Hwf))
    as (Hwf1 & Hattr1 & Hdata1).
  replace (ps0 ++ p :: ps) with ((ps0 ++ [p]) ++ ps) by by rewrite <- (assoc_L (++)).
  apply IH; [done| |].
  - intros m. rewrite Hattr1, Hattr, subgraph_attr. unfold on_paths.
    destruct (decide (Exists _ ps0)) as [H0|H0], (decide (m ∈ p)) as [Hp|Hp].
    + rewrite decide_True by (apply Exists_app; by left).
      destruct (node_attr graph m); cbn; by rewrite ?(idemp_L (∪)).
    + rewrite decide_True by (apply Exists_app; by left). by destruct (node_attr graph m).
    + rewrite decide_True by (apply Exists_app; right; by apply Exists_cons_hd).
      by destruct (node_attr graph m).
    + rewrite decide_False; [done|].
      intros [?|[?|?%Exists_nil]%Exists_cons]%Exists_app; done.
  - intros x y. rewrite Hdata1, Hdata, subgraph_edge_data. unfold together_on_paths.
    destruct (decide (Exists _ ps0)) as [H0|H0], (decide (x ∈ p /\ y ∈ p)) as [Hp|Hp].
    + rewrite decide_True by (apply Exists_app; by left).
      destruct (edge_data graph x y); cbn; by rewrite ?(idemp_L (∪)).
    + rewrite decide_True by (apply Exists_app; by left). by destruct (edge_data graph x y).
    + rewrite decide_True by (apply Exists_app; right; by apply Exists_cons_hd).
      by destruct (edge_data graph x y).
    + rewrite decide_False; [done|].
      intros [?|[?|?%Exists_nil]%Exists_cons]%Exists_app; done.
Qed.

Lemma bridge_graph_spec (graph : nx.Graph) (paths : list (list string)) :
  graph_wf graph -> paths <> [] ->
  exists B,
    bridge_graph graph paths = Ok B
    /\ graph_wf B
    /\ (forall m, node_attr B m = if decide (on_paths paths m) then node_attr graph m else None)
    /\ (forall x y, edge_data B x y
                    = if decide (together_on_paths paths x y) then edge_data graph x y else None).
Proof.
  intros Hwf Hne. destruct paths as [|p0 ps]; [done|].
  unfold bridge_graph. cbn [getitem lookup list_lookup mbind result_bind drop].
  eexists. split; [done|].
  change (p0 :: ps) with ([p0] ++ ps). apply bridge_fold; [done|by apply subgraph_wf| |].
  - intros m. rewrite subgraph_attr. unfold on_paths.
    destruct (decide (m ∈ p0)) as [Hp|Hp].
    + by rewrite decide_True by by apply Exists_cons_hd.
    + rewrite decide_False; [done|]. by intros [?|?%Exists_nil]%Exists_cons.
  - intros x y. rewrite subgraph_edge_data. unfold together_on_paths.
    destruct (decide (x ∈ p0 /\ y ∈ p0)) as [Hp|Hp].
    + by rewrite decide_True by by apply Exists_cons_hd.
    + rewrite decide_False; [done|]. by intros [?|?%Exists_nil]%Exists_cons.
Qed.

Lemma drawn_graph_spec (bridge : nx.Graph) :
  graph_wf bridge ->
  graph_wf (drawn_graph bridge)
  /\ (forall m, node_attr (drawn_graph bridge) m = node_attr bridge m)
  /\ (forall x y, edge_data (drawn_graph bridge) x y
                  = if decide (x = y) then None else edge_data bridge x y).
Proof.
  intros Hwf. destruct (Graph_of_spec _ Hwf) as (Hwf1 & Hattr1 & Hdata1).
  unfold drawn_graph. split; [by apply remove_selfloop_edges_wf|]. split.
  - intros m. exact (Hattr1 m).
  - intros x y. rewrite remove_selfloop_edges_data by done. by rewrite Hdata1.
Qed.

(** X11. [bridge_graph] raises [IndexError] on an empty list of paths. On a
    well-formed graph and a list of paths that is not empty it returns a
    well-formed graph: its nodes are the nodes of the graph that are on one
    of the paths, with their attributes, and its edges are the edges of the
    graph whose two ends are together on one of the paths, with their
    attributes. An edge between nodes of two different paths that no path
    has together is left out. *)
Theorem bridge_graph_union (graph : nx.Graph) (paths : list (list string)) :
  graph_wf graph ->
  (paths = [] -> bridge_graph graph paths = Raise IndexError)
  /\ (paths <> [] ->
      exists B,
        bridge_graph graph paths = Ok B
        /\ graph_wf B
        /\ (forall m dd, node_attr B m = Some dd
                         <-> node_attr graph m = Some dd /\ exists p, p ∈ paths /\ m ∈ p)
        /\ (forall x y dd, edge_data B x y = Some dd
                           <-> edge_data graph x y = Some dd
                               /\ exists p, p ∈ paths /\ x ∈ p /\ y ∈ p)).
Proof.
  intros Hwf. split; [by intros ->|]. intros Hne.
  destruct (bridge_graph_spec graph paths Hwf Hne) as (B & HB & HwfB & Hattr & Hdata).
  exists B. split; [done|]. split; [done|]. split.
  - intros m dd. rewrite Hattr. unfold on_paths.
    destruct (decide (Exists _ paths)) as [He|He].
    + split; [|by intros [? _]]. intros Hm. split; [done|].
      by apply Exists_exists in He.
    + split; [done|]. intros (_ & Hp). destruct He. by apply Exists_exists.
  - intros x y dd. rewrite Hdata. unfold together_on_paths.
    destruct (decide (Exists _ paths)) as [He|He].
    + split; [|by intros [? _]]. intros Hm. split; [done|].
      by apply Exists_exists in He.
    + split; [done|]. intros (_ & Hp). destruct He. by apply Exists_exists.
Qed.

Lemma bridge_graph_union_witness :
  exists B,
    bridge_graph (create_base_graph scenario_df) [["cat"; "dog"]; ["dog"; "wolf"]] = Ok B
    /\ nx.nodes B = ["cat"; "dog"; "wolf"].
Proof.
  destruct (bridge_graph_union (create_base_graph scenario_df)
              [["cat"; "dog"]; ["dog"; "wolf"]]) as (_ & Hok).
  - apply create_base_graph_wf.
  - destruct Hok as (B & HB & _); [done|]. exists B. split; [exact HB|].
    vm_compute in HB. injection HB as <-. reflexivity.
Defined.

(** ** The graph that is drawn *)

Lemma wf_simple (G : nx.Graph) : graph_wf G -> simple_adjacency G.
Proof.
  intros Hwf v. unfold nx.neighbors.
  destruct (od_get (nx._adj G) v) eqn:E; cbn; [by eapply (wf_nbrs _ Hwf)|constructor].
Qed.

Lemma wf_has_neighbor (G : nx.Graph) (v w : string) :
  graph_wf G -> w ∈ nx.neighbors G v -> nx.has_node G v = true /\ nx.has_node G w = true.
Proof.
  intros Hwf Hw%neighbors_edge_data. rewrite !has_node_is_Some. split.
  - by apply (wf_closed _ Hwf v w).
  - apply (wf_closed _ Hwf w v). by rewrite (wf_sym _ Hwf).
Qed.

Lemma wf_neighbors_sym (G : nx.Graph) (v w : string) :
  graph_wf G -> w ∈ nx.neighbors G v -> v ∈ nx.neighbors G w.
Proof. intros Hwf. rewrite !neighbors_edge_data. by rewrite (wf_sym _ Hwf). Qed.

Lemma elem_of_consecutive_pairs (p : list string) (x y : string) :
  (x, y) ∈ consecutive_pairs p <-> exists i, p !! i = Some x /\ p !! S i = Some y.
Proof.
  unfold consecutive_pairs. rewrite list_elem_of_lookup. split.
  - intros (i & Hi). apply lookup_zip_with_Some in Hi as (a & b & [= <- <-] & Ha & Hb).
    exists i. split; [done|]. by rewrite lookup_drop in Hb.
  - intros (i & Hx & Hy). exists i. apply lookup_zip_with_Some.
    exists x, y. split; [done|]. split; [done|]. by rewrite lookup_drop.
Qed.

Lemma is_walk_lookup (G : nx.Graph) (p : list string) :
  is_walk G p <-> forall i x y, p !! i = Some x -> p !! S i = Some y -> y ∈ nx.neighbors G x.
Proof.
  induction p as [|a [|b p] IH].
  - split; [|done]. by intros _ i x y ?.
  - split; [|done]. intros _ [|i] x y; [done|]. by intros ?.
  - change (is_walk G (a :: b :: p)) with (b ∈ nx.neighbors G a /\ is_walk G (b :: p)).
    rewrite IH. split.
    + intros [Hab Hw] [|i] x y Hx Hy.
      * cbn in Hx, Hy. congruence.
      * by apply (Hw i).
    + intros Hw. split; [by apply (Hw 0)|]. intros i x y Hx Hy. by apply (Hw (S i)).
Qed.

(** On a shortest path of a graph that holds its edges in both directions,
    two different nodes that are neighbours follow one another. *)
Lemma shortest_no_chord (G : nx.Graph) (s t x y : string) (p : list string) :
  graph_wf G -> shortest_between G s t p ->
  x ∈ p -> y ∈ p -> x <> y -> y ∈ nx.neighbors G x -> adjacent_on p x y.
Proof.
  intros Hwf Hp Hx Hy Hne Hxy.
  assert (Hstep : forall a b i j,
             p !! i = Some a -> p !! j = Some b -> b ∈ nx.neighbors G a -> i < j -> j = S i).
  { intros a b i j Hi Hj Hab Hlt.
    destruct (path_between_take _ _ _ _ _ _ (proj1 Hp) Hi) as [(Hh & Hl & Hw) Hlen].
    assert (Hq : path_between G s b (take (S i) p ++ [b])).
    { split; [|split].
      - destruct (take (S i) p); [done|]. done.
      - by rewrite last_snoc.
      - apply is_walk_snoc. split; [done|]. intros v Hv. congruence. }
    pose proof (shortest_prefix _ _ _ _ _ _ _ Hp Hj Hq) as Hle.
    rewrite length_app, Hlen in Hle. cbn in Hle. lia. }
  apply list_elem_of_lookup in Hx as [i Hi]. apply list_elem_of_lookup in Hy as [j Hj].
  destruct (decide (i < j)) as [Hlt|Hge].
  - left. apply elem_of_consecutive_pairs. exists i. split; [done|].
    by rewrite <- (Hstep _ _ _ _ Hi Hj Hxy Hlt).
  - assert (i <> j) by (intros ->; congruence).
    right. apply elem_of_consecutive_pairs. exists j. split; [done|].
    rewrite <- (Hstep _ _ _ _ Hj Hi); [done| |lia]. by apply wf_neighbors_sym.
Qed.

Lemma adjacent_on_elem (p : list string) (x y : string) :
  adjacent_on p x y -> x ∈ p /\ y ∈ p.
Proof.
  intros [(i & Hx & Hy)%elem_of_consecutive_pairs|(i & Hy & Hx)%elem_of_consecutive_pairs];
    split; by eapply list_elem_of_lookup_2.
Qed.

Section drawn.
Variables (base : nx.Graph) (s t : string) (paths : list (list string)) (B : nx.Graph).
Hypothesis Hwf : graph_wf base.
Hypothesis Hs : nx.has_node base s = true.
Hypothesis Hconn : connected base s t.
Hypothesis Hpaths : forall p, p ∈ paths <-> shortest_between base s t p.
Hypothesis HB : bridge_graph base paths = Ok B.

Lemma drawn_paths_nonempty : paths <> [].
Proof.
  destruct (shortest_exists base s t Hs Hconn) as [p Hp]. apply Hpaths in Hp.
  intros E. rewrite E in Hp. by apply elem_of_nil in Hp.
Qed.

Lemma drawn_attrs :
  graph_wf (drawn_graph B)
  /\ (forall m, node_attr (drawn_graph B) m
                = if decide (on_paths paths m) then node_attr base m else None)
  /\ (forall x y, edge_data (drawn_graph B) x y
                  = if decide (x = y) then None
                    else if decide (together_on_paths paths x y) then edge_data base x y
                    else None).
Proof.
  destruct (bridge_graph_spec base paths Hwf drawn_paths_nonempty)
    as (B' & HB' & HwfB & Hattr & Hdata).
  rewrite HB in HB'. injection HB' as <-.
  destruct (drawn_graph_spec B HwfB) as (HwfS & HattrS & HdataS).
  split; [done|]. split.
  - intros m. by rewrite HattrS, Hattr.
  - intros x y. by rewrite HdataS, Hdata.
Qed.

Lemma drawn_neighbors (x y : string) :
  y ∈ nx.neighbors (drawn_graph B) x
  <-> y ∈ nx.neighbors base x /\ exists p, p ∈ paths /\ adjacent_on p x y.
Proof.
  destruct drawn_attrs as (_ & _ & Hdata).
  rewrite !neighbors_edge_data, Hdata. unfold together_on_paths.
  destruct (decide (x = y)) as [->|Hne].
  - split; [by intros [? ?]|]. intros (_ & p & Hp & Hadj).
    apply Hpaths in Hp. pose proof (shortest_NoDup _ _ _ _ Hp) as Hnd.
    destruct Hadj as [(i & Hi & Hj)%elem_of_consecutive_pairs
                     |(i & Hi & Hj)%elem_of_consecutive_pairs];
      pose proof (NoDup_lookup _ _ _ _ Hnd Hi Hj); lia.
  - destruct (decide (Exists _ paths)) as [He|He].
    + split; [|by intros [? _]]. intros Hd. split; [done|].
      apply Exists_exists in He as (p & Hp & Hx & Hy). exists p. split; [done|].
      apply (shortest_no_chord base s t); try done.
      * by apply Hpaths.
      * by apply neighbors_edge_data.
    + split; [by intros [? ?]|]. intros (_ & p & Hp & Hadj). destruct He.
      apply Exists_exists. exists p. split; [done|]. by apply adjacent_on_elem.
Qed.

Lemma drawn_walk_base (q : list string) : is_walk (drawn_graph B) q -> is_walk base q.
Proof.
  rewrite !is_walk_lookup. intros Hw i x y Hx Hy.
  by destruct (proj1 (drawn_neighbors x y) (Hw i x y Hx Hy)).
Qed.

Lemma drawn_walk_shortest (p : list string) :
  shortest_between base s t p -> is_walk (drawn_graph B) p.
Proof.
  intros Hp. apply is_walk_lookup. intros i x y Hx Hy. apply drawn_neighbors. split.
  - destruct Hp as [(_ & _ & Hw) _]. rewrite is_walk_lookup in Hw. by apply (Hw i).
  - exists p. split; [by apply Hpaths|]. left. apply elem_of_consecutive_pairs. by exists i.
Qed.

Lemma drawn_shortest (p : list string) :
  shortest_between (drawn_graph B) s t p <-> shortest_between base s t p.
Proof.
  destruct (shortest_exists base s t Hs Hconn) as [p0 Hp0].
  assert (Hp0' : path_between (drawn_graph B) s t p0).
  { destruct Hp0 as [(Hh & Hl & Hw) Hmin]. split; [done|]. split; [done|].
    by apply drawn_walk_shortest. }
  split.
  - intros [(Hh & Hl & Hw) Hmin].
    assert (Hpb : path_between base s t p) by (repeat split; try done; by apply drawn_walk_base).
    split; [done|]. intros q Hq.
    pose proof (Hmin _ Hp0'). pose proof (proj2 Hp0 _ Hq). lia.
  - intros Hp. split.
    + destruct Hp as [(Hh & Hl & Hw) Hmin]. split; [done|]. split; [done|].
      by apply drawn_walk_shortest.
    + intros q (Hh & Hl & Hw). apply (proj2 Hp). repeat split; try done.
      by apply drawn_walk_base.
Qed.

Lemma drawn_has_node (m : string) :
  nx.has_node (drawn_graph B) m = true
  <-> nx.has_node base m = true /\ exists p, p ∈ paths /\ m ∈ p.
Proof.
  destruct drawn_attrs as (_ & Hattr & _).
  rewrite !has_node_is_Some. change (od_get (nx._node ?G) m) with (node_attr G m).
  rewrite Hattr. unfold on_paths. destruct (decide (Exists _ paths)) as [He|He].
  - split; [|by intros [? _]]. intros Hm. split; [done|]. by apply Exists_exists in He.
  - split; [by intros [? ?]|]. intros (_ & Hp). destruct He. by apply Exists_exists.
Qed.

Lemma drawn_source : nx.has_node (drawn_graph B) s = true.
Proof.
  apply drawn_has_node. split; [done|].
  destruct (shortest_exists base s t Hs Hconn) as [p Hp]. exists p.
  split; [by apply Hpaths|].
  destruct (path_between_ends _ _ _ _ (proj1 Hp)) as (H0 & _).
  by eapply list_elem_of_lookup_2.
Qed.

Lemma drawn_connected : connected (drawn_graph B) s t.
Proof.
  destruct (shortest_exists base s t Hs Hconn) as [p Hp]. exists p.
  by apply drawn_shortest.
Qed.

Lemma drawn_sub_paths :
  exists sub_paths,
    shortest_paths (drawn_graph B) s t = Ok sub_paths
    /\ NoDup sub_paths
    /\ forall p, p ∈ sub_paths <-> shortest_between base s t p.
Proof.
  destruct (all_shortest_paths_spec (drawn_graph B) s t drawn_source) as [Hok _].
  destruct (Hok drawn_connected) as (sub_paths & Hsub & Hin).
  exists sub_paths. split; [exact Hsub|]. split.
  - eapply all_shortest_paths_NoDup; [|exact drawn_source|exact Hsub].
    apply wf_simple, drawn_attrs.
  - intros p. by rewrite Hin, drawn_shortest.
Qed.

End drawn.

Lemma path_nodes (G : nx.Graph) (s t m : string) (p : list string) :
  graph_wf G -> nx.has_node G s = true -> path_between G s t p -> m ∈ p ->
  nx.has_node G m = true.
Proof.
  intros Hwf Hs Hp [i Hi]%list_elem_of_lookup.
  destruct (path_between_ends _ _ _ _ Hp) as (H0 & _).
  destruct i as [|i]; [congruence|].
  destruct (p !! i) as [x|] eqn:Hx.
  - destruct Hp as (_ & _ & Hw). rewrite is_walk_lookup in Hw.
    by apply (wf_has_neighbor G x m Hwf), (Hw i).
  - apply lookup_ge_None in Hx. apply lookup_lt_Some in Hi. lia.
Qed.

Lemma is_word_has_node (df : list erow) (n : string) :
  nx.has_node (create_base_graph df) n = true <-> is_word df n.
Proof. apply create_base_graph_spec. Qed.

Lemma not_has_node (G : nx.Graph) (n : string) :
  ~ nx.has_node G n = true -> nx.has_node G n = false.
Proof. by destruct (nx.has_node G n). Qed.

(** The first three steps of [stream_graph], on a source that is a word and
    a target that is connected to it. *)
Lemma stream_graph_paths (df : list erow) (s t : string) :
  is_word df s -> connected (create_base_graph df) s t ->
  exists base_paths B sub_paths,
    shortest_paths (create_base_graph df) s t = Ok base_paths
    /\ (forall p, p ∈ base_paths <-> shortest_between (create_base_graph df) s t p)
    /\ bridge_graph (create_base_graph df) base_paths = Ok B
    /\ shortest_paths (drawn_graph B) s t = Ok sub_paths
    /\ NoDup sub_paths
    /\ (forall p, p ∈ sub_paths <-> shortest_between (create_base_graph df) s t p).
Proof.
  intros Hs%is_word_has_node Hconn.
  pose proof (create_base_graph_wf df) as Hwf.
  destruct (all_shortest_paths_spec (create_base_graph df) s t Hs) as [Hok _].
  destruct (Hok Hconn) as (base_paths & Hbase & Hin).
  assert (Hne : base_paths <> []).
  { destruct (shortest_exists _ s t Hs Hconn) as [p Hp]. apply Hin in Hp.
    intros E. rewrite E in Hp. by apply elem_of_nil in Hp. }
  destruct (bridge_graph_spec _ base_paths Hwf Hne) as (B & HB & _).
  destruct (drawn_sub_paths _ s t base_paths B Hwf Hs Hconn Hin HB)
    as (sub_paths & Hsub & Hnd & Hsubin).
  by exists base_paths, B, sub_paths.
Qed.

Lemma stream_graph_unfold `{SetOrder} `{EdgeBetweenness} (df : list erow) (s t : string)
    (base_paths : list (list string)) (B : nx.Graph) (sub_paths : list (list string)) :
  shortest_paths (create_base_graph df) s t = Ok base_paths ->
  bridge_graph (create_base_graph df) base_paths = Ok B ->
  shortest_paths (drawn_graph B) s t = Ok sub_paths ->
  stream_graph df s t
  = (node_dict ← node_positions sub_paths;
     edge_colour_dict ← edge_colours (drawn_graph B);
     stats_list ← map_result
       (fun path =>
          type_ ← path_type path (drawn_graph B);
          betweenness ← path_betweenness path (create_base_graph df);
          Ok (PathStat path type_ (py_round betweenness 4)))
       sub_paths;
     Ok (Stream (drawn_graph B) node_dict (node_colours (drawn_graph B))
                edge_colour_dict stats_list)).
Proof.
  intros Hbase HB Hsub. unfold stream_graph. rewrite Hbase. cbn [mbind result_bind].
  rewrite HB. cbn [mbind result_bind]. fold (drawn_graph B). rewrite Hsub. done.
Qed.

Lemma singleton_list {A} (l : list A) (a : A) :
  NoDup l -> (forall x, x ∈ l <-> x = a) -> l = [a].
Proof.
  intros Hnd Hin. destruct l as [|x [|y l]].
  - assert (a ∈ @nil A) by by apply Hin. by apply elem_of_nil in H.
  - f_equal. apply Hin. by left.
  - apply NoDup_cons in Hnd as [Hx _]. destruct Hx.
    assert (x = a) as -> by (apply Hin; by left).
    assert (y = a) as -> by (apply Hin; right; by left). by left.
Qed.

Lemma node_positions_single `{SetOrder} (s : string) :
  node_positions [[s]] = Raise IndexError.
Proof.
  unfold node_positions. cbn [getitem lookup list_lookup mbind result_bind length].
  unfold fill_buckets. cbn [foldl bucket_path].
  destruct (decide (0 = 0)); [|done]. cbn [source_nodes target_nodes app].
  by rewrite set_list_singleton, set_list_nil.
Qed.

(** X12. The failures of [stream_graph] before anything is laid out: a
    source that is no word of the table gives [NodeNotFound]; a source that
    is a word and a target that is no word, or that no chain of associations
    joins to the source, gives [NetworkXNoPath]; a word as both source and
    target gives [IndexError], from [node_positions] on the one path of one
    node. *)
Theorem stream_graph_failures `{SetOrder} `{EdgeBetweenness} (df : list erow) (s t : string) :
  (~ is_word df s -> stream_graph df s t = Raise NodeNotFound)
  /\ (is_word df s -> ~ connected (create_base_graph df) s t ->
      stream_graph df s t = Raise NetworkXNoPath)
  /\ (is_word df s -> ~ is_word df t -> stream_graph df s t = Raise NetworkXNoPath)
  /\ (is_word df s -> stream_graph df s s = Raise IndexError).
Proof.
  assert (Hno : is_word df s -> ~ connected (create_base_graph df) s t ->
                stream_graph df s t = Raise NetworkXNoPath).
  { intros Hs%is_word_has_node Hconn. unfold stream_graph, shortest_paths.
    destruct (all_shortest_paths_spec (create_base_graph df) s t Hs) as [_ Hno].
    by rewrite (Hno Hconn). }
  split; [|split; [exact Hno|split]].
  - intros Hs. unfold stream_graph, shortest_paths, nx.all_shortest_paths, nx.predecessor.
    rewrite not_has_node; [done|]. by rewrite is_word_has_node.
  - intros Hs Ht. apply Hno; [done|].
    apply absent_not_connected.
    + apply create_base_graph_spec.
    + by apply is_word_has_node.
    + apply not_has_node. by rewrite is_word_has_node.
  - intros Hs.
    assert (Hconn : connected (create_base_graph df) s s) by by exists [s].
    destruct (stream_graph_paths df s s Hs Hconn)
      as (base_paths & B & sub_paths & Hbase & _ & HB & Hsub & Hnd & Hin).
    rewrite (stream_graph_unfold df s s _ _ _ Hbase HB Hsub).
    assert (sub_paths = [[s]]) as ->.
    { apply singleton_list; [done|]. intros p. by rewrite Hin, shortest_self. }
    by rewrite node_positions_single.
Qed.

Lemma stream_graph_failures_witness :
  stream_graph scenario_df "yeti" "cat" = Raise NodeNotFound
  /\ stream_graph scenario_df "cat" "yeti" = Raise NetworkXNoPath
  /\ stream_graph scenario_df "cat" "cat" = Raise IndexError.
Proof.
  assert (Hcat : is_word scenario_df "cat").
  { exists (ERow (Row "cat" "dog" "positive" "neutral") "neutral"). split; [by left|by left]. }
  assert (Hyeti : ~ is_word scenario_df "yeti").
  { intros (r & Hr & Hn). unfold scenario_df in Hr.
    repeat (apply elem_of_cons in Hr as [->|Hr]); [by destruct Hn..|].
    by apply elem_of_nil in Hr. }
  split; [|split].
  - by apply (stream_graph_failures scenario_df "yeti" "cat").
  - by apply (stream_graph_failures scenario_df "cat" "yeti").
  - by apply (stream_graph_failures scenario_df "cat" "cat").
Defined.

Lemma scenario_connected : connected (create_base_graph scenario_df) "cat" "wolf".
Proof.
  exists scenario_path. split; [done|]. split; [done|].
  split; [by_compute|]. split; [by_compute|done].
Qed.

Lemma scenario_is_word_cat : is_word scenario_df "cat".
Proof.
  exists (ERow (Row "cat" "dog" "positive" "neutral") "neutral"). split; [by left|by left].
Qed.

(** X13. When the source is a word of the table and the target is connected
    to it, the paths that [stream_graph] computes a second time, in the graph
    it draws, are the shortest paths of the base graph from the source to the
    target, each of them once: composing the induced subgraphs and removing
    the self-loops loses no shortest path and creates none. *)
Theorem stream_graph_same_paths (df : list erow) (s t : string) :
  is_word df s -> connected (create_base_graph df) s t ->
  exists base_paths B sub_paths,
    shortest_paths (create_base_graph df) s t = Ok base_paths
    /\ bridge_graph (create_base_graph df) base_paths = Ok B
    /\ shortest_paths (nx.remove_selfloop_edges (nx.Graph_of B)) s t = Ok sub_paths
    /\ sub_paths <> []
    /\ NoDup sub_paths
    /\ (forall p, p ∈ sub_paths <-> shortest_between (create_base_graph df) s t p)
    /\ (forall p, p ∈ sub_paths <-> p ∈ base_paths).
Proof.
  intros Hs Hconn.
  destruct (stream_graph_paths df s t Hs Hconn)
    as (base_paths & B & sub_paths & Hbase & Hbin & HB & Hsub & Hnd & Hin).
  exists base_paths, B, sub_paths.
  split; [done|]. split; [done|]. split; [exact Hsub|]. split; [|split; [done|split; [done|]]].
  - destruct (shortest_exists _ s t (proj2 (is_word_has_node df s) Hs) Hconn) as [p Hp].
    apply Hin in Hp. intros E. rewrite E in Hp. by apply elem_of_nil in Hp.
  - intros p. by rewrite Hin, Hbin.
Qed.

Lemma stream_graph_same_paths_witness :
  exists base_paths B sub_paths,
    shortest_paths (create_base_graph scenario_df) "cat" "wolf" = Ok base_paths
    /\ bridge_graph (create_base_graph scenario_df) base_paths = Ok B
    /\ shortest_paths (nx.remove_selfloop_edges (nx.Graph_of B)) "cat" "wolf" = Ok sub_paths
    /\ forall p, p ∈ sub_paths <-> p ∈ base_paths.
Proof.
  destruct (stream_graph_same_paths scenario_df "cat" "wolf")
    as (base_paths & B & sub_paths & H1 & H2 & H3 & _ & _ & _ & H4).
  - exact scenario_is_word_cat.
  - exact scenario_connected.
  - exists base_paths, B, sub_paths. exact (conj H1 (conj H2 (conj H3 H4))).
Defined.

(** X14. The graph that [stream_graph] draws, for a source that is a word and
    a target connected to it: its nodes are the words on a shortest path from
    the source to the target, with the attributes they have in the base
    graph; its edges are the associations between two words that follow one
    another on a shortest path, with the attributes they have in the base
    graph. No association between two words of the shortest paths that are
    not consecutive on one of them is drawn, and no self-loop. *)
Theorem drawn_graph_shortest (df : list erow) (s t : string) :
  is_word df s -> connected (create_base_graph df) s t ->
  exists base_paths B,
    shortest_paths (create_base_graph df) s t = Ok base_paths
    /\ bridge_graph (create_base_graph df) base_paths = Ok B
    /\ graph_wf (drawn_graph B)
    /\ (forall m, nx.has_node (drawn_graph B) m = true
                  <-> exists p, shortest_between (create_base_graph df) s t p /\ m ∈ p)
    /\ (forall x y, y ∈ nx.neighbors (drawn_graph B) x
                    <-> associated df x y
                        /\ exists p, shortest_between (create_base_graph df) s t p
                                     /\ adjacent_on p x y)
    /\ (forall m, nx.has_node (drawn_graph B) m = true ->
                  node_attr (drawn_graph B) m = node_attr (create_base_graph df) m)
    /\ (forall x y, y ∈ nx.neighbors (drawn_graph B) x ->
                    edge_data (drawn_graph B) x y = edge_data (create_base_graph df) x y)
    /\ (forall x, x ∉ nx.neighbors (drawn_graph B) x).
Proof.
  intros Hs Hconn.
  destruct (stream_graph_paths df s t Hs Hconn)
    as (base_paths & B & sub_paths & Hbase & Hbin & HB & _).
  pose proof (create_base_graph_wf df) as Hwf.
  pose proof (proj2 (is_word_has_node df s) Hs) as Hs'.
  destruct (drawn_attrs _ s t base_paths B Hwf Hs' Hconn Hbin HB) as (HwfS & Hattr & Hdata).
  pose proof (drawn_neighbors _ s t base_paths B Hwf Hs' Hconn Hbin HB) as Hnb.
  pose proof (drawn_has_node _ s t base_paths B Hwf Hs' Hconn Hbin HB) as Hnode.
  exists base_paths, B. split; [done|]. split; [done|]. split; [done|].
  split; [|split; [|split; [|split]]].
  - intros m. rewrite Hnode. split.
    + intros (_ & p & Hp & Hm). exists p. split; [by apply Hbin|done].
    + intros (p & Hp & Hm). split.
      * by eapply path_nodes; [done|exact Hs'|exact (proj1 Hp)|].
      * exists p. split; [by apply Hbin|done].
  - intros x y. rewrite Hnb.
    destruct (create_base_graph_spec df) as (_ & -> & _). split.
    + intros (Hxy & p & Hp & Hadj). split; [done|]. exists p. split; [by apply Hbin|done].
    + intros (Hxy & p & Hp & Hadj). split; [done|]. exists p. split; [by apply Hbin|done].
  - intros m [dd Hm]%has_node_is_Some.
    change (od_get (nx._node ?G) m) with (node_attr G m) in Hm.
    rewrite Hattr in Hm |- *. by destruct (decide _).
  - intros x y [dd Hd]%neighbors_edge_data. rewrite Hdata in Hd |- *.
    destruct (decide (x = y)); [done|]. by destruct (decide _).
  - intros x Hx%neighbors_edge_data. rewrite Hdata in Hx.
    rewrite decide_True in Hx by done. by destruct Hx.
Qed.

Lemma drawn_graph_shortest_witness :
  exists base_paths B,
    shortest_paths (create_base_graph scenario_df) "cat" "wolf" = Ok base_paths
    /\ bridge_graph (create_base_graph scenario_df) base_paths = Ok B
    /\ forall x, x ∉ nx.neighbors (drawn_graph B) x.
Proof.
  destruct (drawn_graph_shortest scenario_df "cat" "wolf")
    as (base_paths & B & H1 & H2 & _ & _ & _ & _ & _ & H3).
  - exact scenario_is_word_cat.
  - exact scenario_connected.
  - exists base_paths, B. exact (conj H1 (conj H2 H3)).
Defined.

(** ** The stream *)

Lemma column_elem_lookup (i : nat) (paths : list (list string)) (p : list string) (m : string) :
  p ∈ paths -> p !! i = Some m -> m ∈ column i paths.
Proof. intros Hp Hi. apply elem_of_column. by exists p. Qed.

Lemma shortest_one_position (G : nx.Graph) (s t : string) (paths : list (list string)) :
  (forall p, p ∈ paths -> shortest_between G s t p) -> one_position paths.
Proof.
  intros Hall p q i j node Hp Hq Hi Hj.
  by eapply (shortest_same_position G s t node p q); [apply Hall|apply Hall| |].
Qed.

(** The layout of the shortest paths between two different nodes. *)
Lemma node_positions_shortest `{SetOrder} (G : nx.Graph) (s t : string)
    (paths : list (list string)) :
  s <> t -> paths <> [] ->
  (forall p, p ∈ paths -> shortest_between G s t p) ->
  exists d n,
    node_positions paths = Ok d
    /\ (forall p, p ∈ paths -> length p = n + 2)
    /\ d !! s = Some (1 # 10, 1 # 2)%Q
    /\ d !! t = Some (9 # 10, 1 # 2)%Q
    /\ forall p i m, p ∈ paths -> p !! i = Some m -> 0 < i < n + 1 ->
         exists rank,
           set_list (column i paths) !! rank = Some m
           /\ d !! m = Some (x_position (Z.of_nat n) (i - 1),
                             y_position (length (set_list (column i paths))) rank).
Proof.
  intros Hne Hpaths Hall.
  destruct paths as [|p0 ps] eqn:E; [done|]. rewrite <- E in *.
  assert (Hp0 : p0 ∈ paths) by (rewrite E; by left).
  pose proof (shortest_distinct_ends _ _ _ _ Hne (Hall _ Hp0)) as Hlen0.
  set (n := length p0 - 2).
  assert (Hlen : forall p, p ∈ paths -> length p = n + 2).
  { intros p Hp. rewrite (shortest_length _ _ _ _ _ (Hall _ Hp) (Hall _ Hp0)). unfold n. lia. }
  destruct (node_positions_layers paths s t n) as (d & Hd & Hs & Ht & Hlayers).
  - done.
  - intros p Hp. split; [by apply Hlen|].
    destruct (path_between_ends _ _ _ _ (proj1 (Hall _ Hp))) as (H0 & Hl & _).
    split; [done|]. rewrite (Hlen _ Hp) in Hl. by replace (n + 2 - 1) with (n + 1) in Hl by lia.
  - by eapply shortest_one_position.
  - exists d, n. split; [done|]. split; [done|]. split; [done|]. split; [done|].
    intros p i m Hp Hi Hrange.
    assert (Hm : m ∈ set_list (column i paths)).
    { apply set_list_elem. by eapply column_elem_lookup. }
    apply list_elem_of_lookup in Hm as [rank Hrank]. exists rank. split; [done|].
    by apply Hlayers.
Qed.

Lemma path_type_present (path : list string) (G : nx.Graph) :
  (forall n, n ∈ path -> nx.has_node G n = true) ->
  exists path_valences,
    map_result (node_valence G) path = Ok path_valences
    /\ path_type path G = Ok (path_label path path_valences)
    /\ path_label path path_valences ∈ path_labels.
Proof.
  intros Hin.
  destruct (map_result_total (node_valence G) path) as [vs Hvs].
  { intros n Hn. apply Hin, has_node_is_Some in Hn as [dd Hdd].
    exists (dd !! "valence"). unfold node_valence. by rewrite Hdd. }
  exists vs. split; [done|]. split; [by apply path_type_label|].
  unfold path_label, path_labels. repeat case_match; set_solver.
Qed.

Lemma stats_total `{EdgeBetweenness} (sub_paths : list (list string)) (S_ base : nx.Graph) :
  (forall p n, p ∈ sub_paths -> n ∈ p -> nx.has_node S_ n = true) ->
  exists stats,
    map_result
      (fun path =>
         type_ ← path_type path S_;
         betweenness ← path_betweenness path base;
         Ok (PathStat path type_ (py_round betweenness 4)))
      sub_paths = Ok stats
    /\ path_structure <$> stats = sub_paths
    /\ Forall (fun r => path_type_of r ∈ path_labels) stats.
Proof.
  intros Hnodes.
  induction sub_paths as [|p ps IH].
  - exists []. by repeat split.
  - destruct IH as (stats & Hstats & Hstruct & Hlabels).
    { intros q n Hq. apply Hnodes. by right. }
    destruct (path_type_present p S_) as (vs & _ & Htype & Hlabel).
    { intros n. apply Hnodes. by left. }
    cbn [map_result]. rewrite Htype, path_betweenness_sum. cbn [mbind result_bind].
    rewrite Hstats. cbn [mbind result_bind]. eexists. split; [done|]. split.
    + cbn. by rewrite Hstruct.
    + by constructor.
Qed.

Lemma adjacent_on_sym (p : list string) (x y : string) : adjacent_on p x y -> adjacent_on p y x.
Proof. unfold adjacent_on. tauto. Qed.

(** The edges of the drawn graph come from rows of the table that join two
    consecutive words of a shortest path. *)
Lemma drawn_edge_row (df : list erow) (s t : string) (base_paths : list (list string))
    (B : nx.Graph) (u v : string) (dd : attr_dict) :
  is_word df s -> connected (create_base_graph df) s t ->
  (forall p, p ∈ base_paths <-> shortest_between (create_base_graph df) s t p) ->
  bridge_graph (create_base_graph df) base_paths = Ok B ->
  edge_data (drawn_graph B) u v = Some dd ->
  exists (r : erow) p,
    r ∈ df /\ row_joins u v r
    /\ dd = {[ "edge valence" := edge_valence_of r ]}
    /\ last_edge_valence df u v = Some (edge_valence_of r)
    /\ shortest_between (create_base_graph df) s t p
    /\ adjacent_on p u v.
Proof.
  intros Hs%is_word_has_node Hconn Hbin HB Hd.
  pose proof (create_base_graph_wf df) as Hwf.
  destruct (drawn_attrs _ s t base_paths B Hwf Hs Hconn Hbin HB) as (_ & _ & Hdata).
  assert (Hnb : v ∈ nx.neighbors (drawn_graph B) u)
    by (apply neighbors_edge_data; by eexists).
  apply (drawn_neighbors _ s t base_paths B Hwf Hs Hconn Hbin HB) in Hnb
    as (_ & p & Hp & Hadj).
  rewrite Hdata in Hd. destruct (decide (u = v)); [done|].
  destruct (decide _); [|done].
  destruct (create_base_graph_attrs df) as (_ & _ & Hbase). rewrite Hbase in Hd.
  destruct (last_edge_valence df u v) as [ev|] eqn:E; [|done]. injection Hd as <-.
  pose proof E as E'. apply last_omap_elem in E' as (r & Hr & Hsel).
  destruct (decide (row_joins u v r)) as [Hj|]; [|done]. injection Hsel as <-.
  apply Hbin in Hp. by exists r, p.
Qed.

(** X15. [stream_graph] succeeds on a source that is a word, a different
    target that is connected to it, and a table in which every row between
    two consecutive words of a shortest path has a positive, neutral or
    negative edge valence. The table it returns lists the shortest paths of
    the base graph from the source to the target, each once, with one of the
    five path types; the source is laid out at (0.1, 0.5), the target at
    (0.9, 0.5), and a word at position [i] of a shortest path in the column
    [i] of the layers; a word on a shortest path has the colour of its last
    valence, no other word has a colour; and only associations between
    consecutive words of a shortest path have a colour. *)
Theorem stream_graph_succeeds `{SetOrder} `{EdgeBetweenness} (df : list erow) (s t : string) :
  is_word df s -> connected (create_base_graph df) s t -> s <> t ->
  (forall (r : erow) p,
      r ∈ df -> shortest_between (create_base_graph df) s t p ->
      adjacent_on p (word_1 r) (word_2 r) ->
      recognised (Some (edge_valence_of r))) ->
  exists st n,
    stream_graph df s t = Ok st
    /\ NoDup (path_structure <$> path_stats st)
    /\ (forall p, p ∈ path_structure <$> path_stats st
                  <-> shortest_between (create_base_graph df) s t p)
    /\ Forall (fun r => path_type_of r ∈ path_labels) (path_stats st)
    /\ (forall p, shortest_between (create_base_graph df) s t p -> length p = n + 2)
    /\ node_layout st !! s = Some (1 # 10, 1 # 2)%Q
    /\ node_layout st !! t = Some (9 # 10, 1 # 2)%Q
    /\ (forall p i m,
          shortest_between (create_base_graph df) s t p -> p !! i = Some m ->
          0 < i < n + 1 ->
          exists y, node_layout st !! m = Some (x_position (Z.of_nat n) (i - 1), y))
    /\ (forall p m, shortest_between (create_base_graph df) s t p -> m ∈ p ->
          node_color st !! m = last_assigned df m ≫= colour_of)
    /\ (forall m, (forall p, shortest_between (create_base_graph df) s t p -> m ∉ p) ->
          node_color st !! m = None)
    /\ (forall x y, is_Some (edge_color st !! (x, y)) ->
          associated df x y
          /\ exists p, shortest_between (create_base_graph df) s t p /\ adjacent_on p x y).
Proof.
  intros Hs Hconn Hne Hrec.
  destruct (stream_graph_paths df s t Hs Hconn)
    as (base_paths & B & sub_paths & Hbase & Hbin & HB & Hsub & Hnd & Hin).
  rewrite (stream_graph_unfold df s t _ _ _ Hbase HB Hsub).
  pose proof (create_base_graph_wf df) as Hwf.
  pose proof (proj2 (is_word_has_node df s) Hs) as Hs'.
  destruct (drawn_attrs _ s t base_paths B Hwf Hs' Hconn Hbin HB) as (HwfS & Hattr & Hdata).
  pose proof (drawn_has_node _ s t base_paths B Hwf Hs' Hconn Hbin HB) as Hnode.
  assert (Hsubne : sub_paths <> []).
  { destruct (shortest_exists _ s t Hs' Hconn) as [p Hp]. apply Hin in Hp.
    intros E. rewrite E in Hp. by apply elem_of_nil in Hp. }
  destruct (node_positions_shortest (create_base_graph df) s t sub_paths Hne Hsubne)
    as (d & n & Hd & Hlen & Hds & Hdt & Hlayers).
  { intros p. apply Hin. }
  rewrite Hd. cbn [mbind result_bind].
  destruct (edge_colour_loop_colour (nx.edges (drawn_graph B)) (None, ∅))
    as (st' & Hloop & Hcin & Hcout).
  { apply Forall_forall. intros [[u v] dd] He. apply edges_data in He; [|done]. cbn.
    destruct (drawn_edge_row df s t base_paths B u v dd Hs Hconn Hbin HB He)
      as (r & p & Hr & Hj & -> & _ & Hp & Hadj).
    rewrite lookup_singleton_eq. apply (Hrec r p Hr Hp).
    destruct Hj as [[-> ->]|[-> ->]]; [done|by apply adjacent_on_sym]. }
  { by apply edges_NoDup. }
  unfold edge_colours. rewrite Hloop. cbn [mbind result_bind].
  destruct (stats_total sub_paths (drawn_graph B) (create_base_graph df))
    as (stats & Hstats & Hstruct & Hlabels).
  { intros p m Hp Hm. apply Hnode. apply Hin in Hp. split.
    - by eapply path_nodes; [done|exact Hs'|exact (proj1 Hp)|].
    - exists p. split; [by apply Hbin|done]. }
  rewrite Hstats. cbn [mbind result_bind].
  eexists. exists n. split; [done|]. cbn [path_stats node_layout node_color edge_color].
  rewrite Hstruct.
  split; [done|]. split; [done|]. split; [done|].
  split; [by intros p Hp%Hin; apply Hlen|].
  split; [done|]. split; [done|].
  split; [|split; [|split]].
  - intros p i m Hp%Hin Hi Hrange.
    destruct (Hlayers p i m Hp Hi Hrange) as (rank & _ & Hm). by eexists.
  - intros p m Hp Hm.
    rewrite node_colours_lookup by apply HwfS. rewrite Hattr.
    rewrite decide_True by (apply Exists_exists; exists p; split; [by apply Hbin|done]).
    destruct (create_base_graph_attrs df) as (_ & -> & _).
    destruct (last_assigned df m); [|done]. cbn. apply node_colour_of_valence.
  - intros m Hm. rewrite node_colours_lookup by apply HwfS. rewrite Hattr.
    rewrite decide_False; [done|].
    intros (p & Hp%Hbin & Hmp)%Exists_exists. by apply (Hm p).
  - intros x y Hc.
    assert (Hk : (x, y) ∈ edge_key <$> nx.edges (drawn_graph B)).
    { destruct (decide ((x, y) ∈ edge_key <$> nx.edges (drawn_graph B))) as [|Hk]; [done|].
      rewrite (Hcout _ Hk) in Hc. cbn in Hc. rewrite lookup_empty in Hc. by destruct Hc. }
    apply list_elem_of_fmap in Hk as ([[u v] dd] & [= <- <-] & He).
    apply edges_data in He; [|done].
    destruct (drawn_edge_row df s t base_paths B x y dd Hs Hconn Hbin HB He)
      as (r & p & Hr & Hj & _ & _ & Hp & Hadj).
    split; [|by exists p]. exists r. split; [done|].
    destruct Hj as [[-> ->]|[-> ->]]; [by left|by right].
Qed.

Lemma stream_graph_succeeds_witness :
  exists st,
    stream_graph scenario_df "cat" "wolf" = Ok st
    /\ (forall p, p ∈ path_structure <$> path_stats st
                  <-> shortest_between (create_base_graph scenario_df) "cat" "wolf" p)
    /\ node_layout st !! "cat" = Some (1 # 10, 1 # 2)%Q
    /\ node_layout st !! "wolf" = Some (9 # 10, 1 # 2)%Q.
Proof.
  destruct (stream_graph_succeeds scenario_df "cat" "wolf")
    as (st & n & H1 & _ & H2 & _ & _ & H3 & H4 & _).
  - exact scenario_is_word_cat.
  - exact scenario_connected.
  - done.
  - intros r p Hr _ _. unfold scenario_df in Hr.
    repeat (apply elem_of_cons in Hr as [->|Hr]); [by right; left..|].
    by apply elem_of_nil in Hr.
  - exists st. exact (conj H1 (conj H2 (conj H3 H4))).
Defined.

Lemma last_edge_valence_sym (df : list erow) (x y : string) :
  last_edge_valence df x y = last_edge_valence df y x.
Proof.
  unfold last_edge_valence. induction df as [|r df IH]; [done|].
  rewrite !last_omap_cons, IH.
  destruct (decide (row_joins x y r)) as [Hj|Hj], (decide (row_joins y x r)) as [Hj'|Hj'];
    try done; unfold row_joins in *; tauto.
Qed.

Lemma shortest_direct (G : nx.Graph) (s t : string) (p : list string) :
  s <> t -> t ∈ nx.neighbors G s -> shortest_between G s t p <-> p = [s; t].
Proof.
  intros Hne Hst.
  assert (Hp : path_between G s t [s; t]) by (repeat split; done).
  split.
  - intros Hsp. pose proof (shortest_distinct_ends _ _ _ _ Hne Hsp) as Hge.
    pose proof (proj2 Hsp _ Hp) as Hle. cbn in Hle.
    destruct Hsp as [(Hh & Hl & _) _].
    destruct p as [|a [|b [|c p]]]; cbn in *; try lia. congruence.
  - intros ->. split; [done|]. intros q Hq.
    destruct Hq as (Hh & Hl & _). destruct q as [|a [|b q]]; cbn in *; try done; [|lia].
    congruence.
Qed.

Lemma adjacent_on_pair (s t x y : string) :
  adjacent_on [s; t] x y -> (x = s /\ y = t) \/ (x = t /\ y = s).
Proof.
  unfold adjacent_on, consecutive_pairs. cbn.
  intros [H|H]; apply list_elem_of_singleton in H; injection H as -> ->; tauto.
Qed.

(** X16. [stream_graph] between two different words that a row associates
    raises [UnboundLocalError] when the edge valence of the last row that
    joins them is not positive, neutral or negative: the stream is that one
    edge, and [edge_colours] has no colour for it. So it is for a positive
    and a negative word that are associated. *)
Theorem stream_graph_unbound `{SetOrder} `{EdgeBetweenness} (df : list erow) (s t v : string) :
  s <> t -> last_edge_valence df s t = Some v -> ~ recognised (Some v) ->
  stream_graph df s t = Raise UnboundLocalError.
Proof.
  intros Hne Hv Hrec.
  pose proof Hv as Hv'. apply last_omap_elem in Hv' as (r & Hr & Hsel).
  destruct (decide (row_joins s t r)) as [Hj|]; [|done]. clear Hsel.
  assert (Hs : is_word df s).
  { exists r. split; [done|]. destruct Hj as [[<- _]|[_ <-]]; [by left|by right]. }
  assert (Hst : t ∈ nx.neighbors (create_base_graph df) s).
  { apply create_base_graph_spec. exists r. split; [done|].
    destruct Hj as [[<- <-]|[<- <-]]; [by left|by right]. }
  assert (Hconn : connected (create_base_graph df) s t).
  { exists [s; t]. by apply (shortest_direct _ s t). }
  destruct (stream_graph_paths df s t Hs Hconn)
    as (base_paths & B & sub_paths & Hbase & Hbin & HB & Hsub & Hnd & Hin).
  rewrite (stream_graph_unfold df s t _ _ _ Hbase HB Hsub).
  pose proof (create_base_graph_wf df) as Hwf.
  pose proof (proj2 (is_word_has_node df s) Hs) as Hs'.
  destruct (drawn_attrs _ s t base_paths B Hwf Hs' Hconn Hbin HB) as (HwfS & _ & Hdata).
  destruct (node_positions_shortest (create_base_graph df) s t sub_paths Hne)
    as (d & n & -> & _).
  { intros E. assert (Hp : [s; t] ∈ sub_paths) by by apply Hin, shortest_direct.
    rewrite E in Hp. by apply elem_of_nil in Hp. }
  { intros p. apply Hin. }
  cbn [mbind result_bind].
  assert (Hedges : forall e, e ∈ nx.edges (drawn_graph B) ->
                     ~ recognised (e.2 !! "edge valence")).
  { intros [[u w] dd] He. apply edges_data in He; [|done]. cbn.
    destruct (drawn_edge_row df s t base_paths B u w dd Hs Hconn Hbin HB He)
      as (r' & p & _ & _ & -> & Hlast & Hp & Hadj).
    apply (shortest_direct _ s t) in Hp; [|done..]. subst p.
    rewrite lookup_singleton_eq.
    apply adjacent_on_pair in Hadj as [[-> ->]|[-> ->]].
    - rewrite Hv in Hlast. by injection Hlast as <-.
    - rewrite last_edge_valence_sym, Hv in Hlast. by injection Hlast as <-. }
  assert (Hsome : is_Some (edge_data (drawn_graph B) s t)).
  { rewrite Hdata. rewrite decide_False by done. rewrite decide_True.
    - apply neighbors_edge_data, Hst.
    - apply Exists_exists. exists [s; t]. split; [by apply Hbin, shortest_direct|].
      split; [by left|by right; left]. }
  destruct Hsome as [dd Hdd].
  unfold edge_colours.
  destruct (nx.edges (drawn_graph B)) as [|e es] eqn:E.
  - destruct (edges_complete _ _ _ _ HwfS Hdd) as [He|He];
      rewrite E in He; by apply elem_of_nil in He.
  - cbn [for_each]. rewrite edge_colour_step_unrecognised; [done|].
    apply Hedges. by left.
Qed.

Lemma stream_graph_unbound_witness :
  stream_graph joy_grief_df "joy" "grief" = Raise UnboundLocalError.
Proof.
  apply (stream_graph_unbound joy_grief_df "joy" "grief" "conflicting").
  - done.
  - reflexivity.
  - by intros [H|[H|H]].
Defined.

(** ** The whole run *)

Lemma file_to_df_rows (json_objects : list json) :
  Forall (fun o => validate_json o = true) json_objects ->
  max_list (num_values <$> json_objects) = 2 ->
  file_to_df json_objects = Ok (Table (words_of <$> json_objects)).
Proof.
  intros Hvalid Hmax. unfold file_to_df.
  rewrite (collect_rows_valid _ [] Hvalid). cbn [app].
  pose proof (str_values_widths _ Hvalid) as Hw. rewrite <- Hw in Hmax.
  unfold pd.DataFrame.
  destruct (str_values <$> json_objects) as [|row rows] eqn:E.
  { apply fmap_nil_inv in E. subst. done. }
  rewrite decide_True by done. cbn [mbind result_bind]. rewrite <- E.
  do 2 f_equal. rewrite <- !list_fmap_compose. apply list_fmap_ext.
  intros i o Ho. cbn. unfold words_of, pd.str_lower_cell.
  rewrite Forall_forall in Hvalid.
  assert (Ho' : validate_json o = true) by (apply Hvalid; by eapply list_elem_of_lookup_2).
  destruct (str_values_valid _ Ho') as [_ Hat]. by rewrite !Hat.
Qed.

Lemma attach_sentiment_rows (df : list (string * string))
    (valence_data : list (list (string * string))) :
  Forall (fun d => 2 <= length d) valence_data ->
  attach_sentiment df valence_data
  = Ok ((fun r => Row (str_lower r.1) (str_lower r.2)
                      (valence_in valence_data r.1) (valence_in valence_data r.2)) <$> df).
Proof.
  intros Hall. unfold attach_sentiment.
  destruct (valence_loop_long _ ∅ Hall) as (m & -> & Hm). cbn [mbind result_bind].
  f_equal. apply list_fmap_ext. intros i [w1 w2] _. cbn.
  unfold pd.str_lower_cell, valence_in. rewrite !Hm, !lookup_empty. cbn.
  by destruct (last_valence valence_data w1), (last_valence valence_data w2).
Qed.

Lemma words_of_lowercase (o : json) : lowercase (words_of o).1 /\ lowercase (words_of o).2.
Proof. split; apply str_lower_idemp. Qed.



(** ** The layout of any list of paths *)

Lemma bucket_path_layers_length (n : Z) (path : list string) (c : nat) (b : buckets) :
  length (layer_nodes (bucket_path n path c b)) = length (layer_nodes b).
Proof.
  revert c b. induction path as [|x path IH]; intros c b; [done|]. cbn [bucket_path].
  destruct (decide (c = 0)); [by rewrite IH|].
  destruct (decide _); [|done]. rewrite IH. cbn. apply length_alter.
Qed.

Lemma bucket_path_rest (n : Z) (path : list string) (c : nat) (b : buckets) :
  1 <= c ->
  source_nodes (bucket_path n path c b) = source_nodes b
  /\ target_nodes (bucket_path n path c b)
     = target_nodes b ++ option_list (path !! Z.to_nat (n + 1 - Z.of_nat c)).
Proof.
  revert c b. induction path as [|x path IH]; intros c b Hc.
  { cbn [bucket_path]. rewrite lookup_nil. cbn [option_list].
    by rewrite app_nil_r. }
  cbn [bucket_path]. rewrite decide_False by lia.
  destruct (decide (0 < Z.of_nat c < n + 1)%Z) as [Hmid|Hend].
  - destruct (IH (S c) (Buckets (source_nodes b) (target_nodes b)
                          (alter (fun l => l ++ [x]) (c - 1) (layer_nodes b))))
      as [-> ->]; [lia|]. cbn [source_nodes target_nodes]. split; [done|].
    replace (Z.to_nat (n + 1 - Z.of_nat c)) with (S (Z.to_nat (n + 1 - Z.of_nat (S c)))) by lia.
    done.
  - cbn [source_nodes target_nodes]. split; [done|].
    by replace (Z.to_nat (n + 1 - Z.of_nat c)) with 0 by lia.
Qed.

Lemma bucket_path_ends (n : Z) (path : list string) (b : buckets) :
  source_nodes (bucket_path n path 0 b) = source_nodes b ++ option_list (path !! 0)
  /\ target_nodes (bucket_path n path 0 b)
     = target_nodes b ++ option_list (path !! S (Z.to_nat n)).
Proof.
  destruct path as [|x path]; [cbn; by rewrite !app_nil_r|].
  cbn [bucket_path]. rewrite decide_True by done.
  destruct (bucket_path_rest n path 1
              (Buckets (source_nodes b ++ [x]) (target_nodes b) (layer_nodes b)))
    as [-> ->]; [lia|]. cbn [source_nodes target_nodes]. split; [done|].
  by replace (Z.to_nat (n + 1 - Z.of_nat 1)) with (Z.to_nat n) by lia.
Qed.

Lemma fill_buckets_ends_from (n : Z) (paths : list (list string)) (b : buckets) :
  let b' := foldl (fun b path => bucket_path n path 0 b) b paths in
  source_nodes b' = source_nodes b ++ column 0 paths
  /\ target_nodes b' = target_nodes b ++ column (S (Z.to_nat n)) paths
  /\ length (layer_nodes b') = length (layer_nodes b).
Proof.
  revert b. induction paths as [|p paths IH]; intros b; cbn zeta.
  { cbn. by rewrite !app_nil_r. }
  cbn [foldl]. destruct (IH (bucket_path n p 0 b)) as (-> & -> & ->).
  destruct (bucket_path_ends n p b) as [-> ->].
  rewrite bucket_path_layers_length, !column_cons, !(assoc_L (++)). done.
Qed.

Lemma fill_buckets_ends (n : Z) (paths : list (list string)) :
  source_nodes (fill_buckets n paths) = column 0 paths
  /\ target_nodes (fill_buckets n paths) = column (S (Z.to_nat n)) paths
  /\ length (layer_nodes (fill_buckets n paths)) = Z.to_nat n.
Proof.
  unfold fill_buckets.
  destruct (fill_buckets_ends_from n paths (Buckets [] [] (replicate (Z.to_nat n) [])))
    as (-> & -> & ->).
  cbn. by rewrite length_replicate.
Qed.

Lemma getitem_set_list `{SetOrder} (l : list string) :
  (l <> [] -> exists x, getitem (set_list l) 0 = Ok x /\ x ∈ l)
  /\ (l = [] -> getitem (set_list l) 0 = Raise IndexError).
Proof.
  split.
  - intros Hne. unfold getitem. destruct (set_list l) as [|x l'] eqn:E.
    + destruct l as [|y l]; [done|].
      assert (Hy : y ∈ set_list (y :: l)) by (apply set_list_elem; by left).
      rewrite E in Hy. by apply elem_of_nil in Hy.
    + exists x. split; [done|]. apply set_list_elem. rewrite E. by left.
  - intros ->. by rewrite set_list_nil.
Qed.

Lemma column_nil (i : nat) (paths : list (list string)) :
  column i paths = [] <-> forall p, p ∈ paths -> length p <= i.
Proof.
  split.
  - intros E p Hp. destruct (p !! i) as [x|] eqn:Hx; [|by apply lookup_ge_None].
    assert (Hin : x ∈ column i paths) by (apply elem_of_column; by exists p).
    rewrite E in Hin. by apply elem_of_nil in Hin.
  - intros Hall. destruct (column i paths) as [|x l] eqn:E; [done|].
    assert (Hin : x ∈ column i paths) by (rewrite E; by left).
    apply elem_of_column in Hin as (p & Hp & Hx).
    apply lookup_lt_Some in Hx. specialize (Hall p Hp). lia.
Qed.

(** X18. [node_positions] on any list of paths: it returns a dictionary when
    one of the paths has two nodes or more, and raises [IndexError] when
    none has, so on the empty list and on a list of paths of one node. It
    raises nothing else. *)
Theorem node_positions_outcome `{SetOrder} (paths : list (list string)) :
  (Exists (fun p => 2 <= length p) paths -> exists d, node_positions paths = Ok d)
  /\ (~ Exists (fun p => 2 <= length p) paths -> node_positions paths = Raise IndexError).
Proof.
  destruct paths as [|p0 ps] eqn:E.
  { split; [by intros ?%Exists_nil|done]. }
  rewrite <- E. unfold node_positions.
  replace (getitem paths 0) with (Ok p0 : result (list string)) by by rewrite E.
  cbn [mbind result_bind].
  set (n := (Z.of_nat (length p0) - 2)%Z).
  destruct (fill_buckets_ends n paths) as (Hsrc & Htgt & Hlen). rewrite Hsrc, Htgt.
  assert (Hp0 : p0 ∈ paths) by (rewrite E; by left).
  split.
  - intros (p & Hp & Hlp)%Exists_exists.
    destruct (getitem_set_list (column 0 paths)) as [Hok _].
    destruct Hok as (src & -> & _).
    { intros Hnil. pose proof (proj1 (column_nil 0 paths) Hnil p Hp). lia. }
    cbn [mbind result_bind].
    destruct (getitem_set_list (column (S (Z.to_nat n)) paths)) as [Hok _].
    destruct Hok as (tgt & -> & _).
    { intros Hnil. pose proof (proj1 (column_nil _ paths) Hnil) as Hall.
      pose proof (Hall p Hp). pose proof (Hall p0 Hp0). unfold n in *. lia. }
    cbn [mbind result_bind].
    destruct (place_layers_spec
                (x_position n <$> seq 0 (Z.to_nat n))
                (set_list <$> layer_nodes (fill_buckets n paths))
                (<[tgt := (9 # 10, 1 # 2)%Q]> (<[src := (1 # 10, 1 # 2)%Q]> ∅)))
      as (d & Hd & _).
    { by rewrite !length_fmap, length_seq, Hlen. }
    by exists d.
  - intros Hno.
    assert (Hshort : forall p, p ∈ paths -> length p <= 1).
    { intros p Hp. destruct (decide (2 <= length p)); [|lia].
      destruct Hno. apply Exists_exists. by exists p. }
    destruct (decide (column 0 paths = [])) as [Hnil|Hne].
    { destruct (getitem_set_list (column 0 paths)) as [_ Hraise]. by rewrite Hraise. }
    destruct (getitem_set_list (column 0 paths)) as [Hok _].
    destruct (Hok Hne) as (src & -> & _). cbn [mbind result_bind].
    destruct (getitem_set_list (column (S (Z.to_nat n)) paths)) as [_ Hraise].
    rewrite Hraise; [done|]. apply column_nil. intros p Hp. specialize (Hshort p Hp). lia.
Qed.

Lemma node_positions_outcome_witness :
  (exists d, node_positions [["cat"]; ["cat"; "dog"]; []] = Ok d)
  /\ node_positions [["cat"]; []; ["dog"]] = Raise IndexError.
Proof.
  split.
  - apply node_positions_outcome. by_compute.
  - apply node_positions_outcome. by_compute.
Defined.

(** ** The type of a path *)

Lemma map_result_node_valence (G : nx.Graph) (path : list string) :
  (Forall (fun n => nx.has_node G n = true) path ->
   map_result (node_valence G) path = Ok (valence_of G <$> path))
  /\ (Exists (fun n => nx.has_node G n = false) path ->
      map_result (node_valence G) path = Raise AttributeError).
Proof.
  assert (Hone : forall n,
             node_valence G n
             = if nx.has_node G n then Ok (valence_of G n) else Raise AttributeError).
  { intros n. unfold node_valence, valence_of, nx.has_node, od_mem, node_attr.
    by destruct (od_get (nx._node G) n). }
  split.
  - induction 1 as [|n path Hn _ IH]; [done|].
    cbn [map_result]. rewrite Hone, Hn. cbn [mbind result_bind]. by rewrite IH.
  - induction 1 as [n path Hn|n path _ IH]; cbn [map_result]; rewrite Hone.
    + by rewrite Hn.
    + destruct (nx.has_node G n); [|done]. cbn [mbind result_bind]. by rewrite IH.
Qed.

Lemma forallb_Permutation {A} (f : A -> bool) (l l' : list A) :
  l ≡ₚ l' -> forallb f l = forallb f l'.
Proof.
  induction 1 as [|x l l' _ IH|x y l|l l' l'' _ IH1 _ IH2]; cbn.
  - done.
  - by rewrite IH.
  - by destruct (f x), (f y).
  - by rewrite IH1.
Qed.

Lemma path_label_Permutation (f : string -> option string) (path path' : list string) :
  path ≡ₚ path' -> path_label path (f <$> path) = path_label path' (f <$> path').
Proof.
  intros Hp. unfold path_label.
  assert (Hf : f <$> path ≡ₚ f <$> path') by by rewrite Hp.
  rewrite !(forallb_Permutation _ _ _ Hf).
  rewrite (bool_decide_ext (Some "negative" ∈ f <$> path) (Some "negative" ∈ f <$> path'))
    by by rewrite Hf.
  by rewrite (bool_decide_ext ("positive" ∈ path) ("positive" ∈ path')) by by rewrite Hp.
Qed.

Lemma path_type_cases (path : list string) (G : nx.Graph) :
  (Forall (fun n => nx.has_node G n = true) path ->
   path_type path G = Ok (path_label path (valence_of G <$> path)))
  /\ (Exists (fun n => nx.has_node G n = false) path ->
      path_type path G = Raise AttributeError).
Proof.
  destruct (map_result_node_valence G path) as [Hall Hex]. split.
  - intros H. by apply path_type_label, Hall.
  - intros H. unfold path_type. by rewrite (Hex H).
Qed.

Lemma present_or_absent (G : nx.Graph) (path : list string) :
  Forall (fun n => nx.has_node G n = true) path
  \/ Exists (fun n => nx.has_node G n = false) path.
Proof.
  induction path as [|n path [IH|IH]].
  - left. constructor.
  - destruct (nx.has_node G n) eqn:E; [left; by constructor|right; by constructor].
  - right. by constructor.
Qed.

(** X19. [path_type] raises [AttributeError] exactly when a node of the path
    is no node of the graph, and raises nothing else; otherwise its label is
    read from the valences of the nodes of the path. The label does not
    depend on the order of the nodes: a path and the path reversed, or
    permuted, have the same type. A path with no node is purely positive. *)
Theorem path_type_order :
  (forall path G,
      path_type path G = Raise AttributeError
      <-> Exists (fun n => nx.has_node G n = false) path)
  /\ (forall path G,
        Forall (fun n => nx.has_node G n = true) path ->
        path_type path G = Ok (path_label path (valence_of G <$> path)))
  /\ (forall path path' G, path ≡ₚ path' -> path_type path G = path_type path' G)
  /\ (forall path G, path_type (reverse path) G = path_type path G)
  /\ (forall G, path_type [] G = Ok "purely positive path").
Proof.
  assert (Hperm : forall path path' G, path ≡ₚ path' -> path_type path G = path_type path' G).
  { intros path path' G Hp.
    destruct (present_or_absent G path) as [Hall|Hex].
    - rewrite (proj1 (path_type_cases path G) Hall).
      rewrite (proj1 (path_type_cases path' G)) by by rewrite <- Hp.
      f_equal. by apply path_label_Permutation.
    - rewrite (proj2 (path_type_cases path G) Hex).
      by rewrite (proj2 (path_type_cases path' G)) by by rewrite <- Hp. }
  split; [|split; [|split; [|split]]].
  - intros path G. split.
    + intros Hraise. destruct (present_or_absent G path) as [Hall|Hex]; [|done].
      by rewrite (proj1 (path_type_cases path G) Hall) in Hraise.
    + apply path_type_cases.
  - intros path G. apply path_type_cases.
  - exact Hperm.
  - intros path G. apply Hperm, reverse_Permutation.
  - done.
Qed.

Lemma path_type_order_witness :
  path_type ["grief"; "joy"] joy_grief = path_type ["joy"; "grief"] joy_grief
  /\ path_type ["joy"; "yeti"] joy_grief = Raise AttributeError.
Proof.
  destruct path_type_order as (Hraise & _ & Hperm & _). split.
  - apply Hperm. apply perm_swap.
  - apply Hraise. by_compute.
Defined.

(** ** The betweenness of a path, read backwards *)

Lemma consecutive_pairs_snoc (l : list string) (y x : string) :
  consecutive_pairs ((l ++ [y]) ++ [x]) = consecutive_pairs (l ++ [y]) ++ [(y, x)].
Proof.
  rewrite <- (assoc_L (++)). cbn [app]. by rewrite consecutive_pairs_split.
Qed.

Lemma consecutive_pairs_reverse (p : list string) :
  consecutive_pairs (reverse p) = reverse (swap_pair <$> consecutive_pairs p).
Proof.
  induction p as [|a p IH]; [done|]. destruct p as [|b p]; [done|].
  rewrite consecutive_pairs_cons, fmap_cons, !reverse_cons.
  rewrite consecutive_pairs_snoc. rewrite <- reverse_cons, IH. done.
Qed.

Lemma omap_reverse {A B} (f : A -> option B) (l : list A) :
  omap f (reverse l) = reverse (omap f l).
Proof.
  induction l as [|x l IH]; [done|].
  rewrite reverse_cons, omap_app, IH.
  change (omap f (x :: l)) with (match f x with Some y => y :: omap f l | None => omap f l end).
  change (omap f [x]) with (match f x with Some y => [y] | None => [] end).
  destruct (f x); [by rewrite reverse_cons|by rewrite app_nil_r].
Qed.

Lemma omap_fmap_ext {A B} (f g : A -> option B) (h : A -> A) (l : list A) :
  (forall x, f (h x) = g x) -> omap f (h <$> l) = omap g l.
Proof.
  intros Hfg. induction l as [|x l IH]; [done|].
  change (omap f (h <$> x :: l))
    with (match f (h x) with Some y => y :: omap f (h <$> l) | None => omap f (h <$> l) end).
  change (omap g (x :: l)) with (match g x with Some y => y :: omap g l | None => omap g l end).
  by rewrite Hfg, IH.
Qed.

Lemma edge_score_swap (d : gmap (string * string) Q) (e : string * string) :
  one_score d -> edge_score d (swap_pair e) = edge_score d e.
Proof.
  intros Hone. destruct e as [u v]. unfold edge_score, swap_pair. cbn.
  destruct (d !! (v, u)) as [y|] eqn:Ey, (d !! (u, v)) as [x|] eqn:Ex; try done.
  f_equal. symmetry. by eapply Hone.
Qed.

(** X20. A path read backwards: [path_betweenness] adds the same values of
    betweenness, in the reverse order, whenever the betweenness dictionary
    does not give the two directions of a pair two different values, the
    entry of an edge being found under either order of its ends. The sum is
    made from left to right, starting from 0, so that in floating point the
    two sums are sums of the same numbers in two orders. *)
Theorem path_betweenness_reverse `{EdgeBetweenness} (path : list string) (base_graph : nx.Graph) :
  one_score (edge_betweenness_centrality base_graph) ->
  exists l,
    l = omap (edge_score (edge_betweenness_centrality base_graph)) (consecutive_pairs path)
    /\ path_betweenness path base_graph = Ok (foldl Qplus 0%Q l)
    /\ path_betweenness (reverse path) base_graph = Ok (foldl Qplus 0%Q (reverse l)).
Proof.
  intros Hone. eexists. split; [reflexivity|]. rewrite !path_betweenness_sum.
  split; [done|]. unfold py_sum. do 2 f_equal.
  rewrite consecutive_pairs_reverse, omap_reverse. f_equal.
  apply omap_fmap_ext. intros e. by apply edge_score_swap.
Qed.

Lemma path_betweenness_reverse_witness :
  @path_betweenness scenario_betweenness ["cat"; "dog"; "wolf"]
    (create_base_graph scenario_df) = Ok (0 + (2 # 3) + (2 # 3))%Q
  /\ @path_betweenness scenario_betweenness ["wolf"; "dog"; "cat"]
       (create_base_graph scenario_df) = Ok (0 + (2 # 3) + (2 # 3))%Q.
Proof.
  destruct (@path_betweenness_reverse scenario_betweenness ["cat"; "dog"; "wolf"]
              (create_base_graph scenario_df)) as (l & Hl & Hpath & Hrev).
  - intros u v x y Hx Hy.
    unfold edge_betweenness_centrality, scenario_betweenness in Hx, Hy.
    apply lookup_insert_Some in Hx as [[[= <- <-] _]|[_ Hx]].
    + apply lookup_insert_Some in Hy as [[[= ? ?] _]|[_ Hy]].
      by apply lookup_singleton_Some in Hy as [[= ? ?] _].
    + apply lookup_singleton_Some in Hx as [[= <- <-] _].
      apply lookup_insert_Some in Hy as [[[= ? ?] _]|[_ Hy]].
      by apply lookup_singleton_Some in Hy as [[= ? ?] _].
  - assert (El : l = [(2 # 3)%Q; (2 # 3)%Q]) by (rewrite Hl; reflexivity).
    rewrite El in Hpath, Hrev. split; [exact Hpath|exact Hrev].
Defined.

(** ** The betweenness of the paths of the table *)

(** [shortest_paths] returns only from a node of the graph, and for a target
    that a path joins to it. *)
Lemma shortest_paths_Ok (G : nx.Graph) (s t : string) (paths : list (list string)) :
  shortest_paths G s t = Ok paths -> nx.has_node G s = true /\ connected G s t.
Proof.
  unfold shortest_paths. intros Hok.
  assert (Hs : nx.has_node G s = true).
  { destruct (nx.has_node G s) eqn:E; [done|].
    unfold nx.all_shortest_paths, nx.predecessor in Hok. by rewrite E in Hok. }
  split; [done|].
  destruct (predecessor_spec G s Hs) as (P & S_ & _ & Hfin).
  destruct (S_ !! t) as [k|] eqn:Hk.
  - destruct (fin_sound _ _ _ _ Hfin t k Hk) as ((p & Hp & _) & _). by exists p.
  - destruct (all_shortest_paths_spec G s t Hs) as [_ Hno].
    rewrite Hno in Hok; [done|]. intros (p & Hp).
    destruct (path_between_reach _ _ _ _ Hp) as (j & _ & Hj).
    destruct (fin_complete _ _ _ _ Hfin t j Hj) as [? ?]. congruence.
Qed.

Lemma lookup_consecutive_pairs (path : list string) (i : nat) (u v : string) :
  consecutive_pairs path !! i = Some (u, v) <-> path !! i = Some u /\ path !! S i = Some v.
Proof.
  unfold consecutive_pairs. split.
  - intros (x & y & [= -> ->] & Hx & Hy)%lookup_zip_with_Some.
    by rewrite lookup_drop in Hy.
  - intros [Hu Hv]. apply lookup_zip_with_Some. exists u, v. by rewrite lookup_drop.
Qed.



(** ** The sizes of the nodes *)

Lemma od_set_app_notin {K V} `{EqDecision K} (pre suf : list (K * V)) (k : K) (v v' : V) :
  k ∉ pre.*1 -> od_set (pre ++ (k, v) :: suf) k v' = pre ++ (k, v') :: suf.
Proof.
  induction pre as [|[k0 v0] pre IH]; intros Hk; cbn.
  - by rewrite decide_True.
  - cbn in Hk. apply not_elem_of_cons in Hk as [Hne Hk].
    rewrite decide_False by done. by rewrite IH.
Qed.

Lemma node_sizes_fold (pre suf : list (string * Q)) :
  NoDup (pre ++ suf).*1 ->
  foldl (fun node_sizes_dict (iv : string * Q) => od_set node_sizes_dict iv.1 (iv.2 * 8)%Q)
        (pre ++ suf) suf
  = pre ++ ((fun iv : string * Q => (iv.1, (iv.2 * 8)%Q)) <$> suf).
Proof.
  revert pre. induction suf as [|[k v] suf IH]; intros pre Hnd; [done|].
  cbn [foldl fst snd]. rewrite od_set_app_notin.
  - rewrite (cons_middle _ pre suf), (assoc_L (++)). rewrite IH.
    + by rewrite <- (assoc_L (++)).
    + rewrite <- (assoc_L (++)). cbn [app].
      rewrite fmap_app, fmap_cons in Hnd |- *. exact Hnd.
  - rewrite fmap_app in Hnd. apply NoDup_app in Hnd as (_ & Hdis & _).
    intros Hk. apply (Hdis k Hk). cbn. by left.
Qed.

(** X21. [node_sizes] returns a dictionary with the keys of the closeness
    dictionary, in the same order, each with eight times its closeness; the
    value of a key depends on the closeness of that key alone. *)
Theorem node_sizes_eightfold (node_closeness : list (string * Q)) :
  NoDup node_closeness.*1 ->
  node_sizes node_closeness
  = (fun iv : string * Q => (iv.1, (iv.2 * 8)%Q)) <$> node_closeness
  /\ (node_sizes node_closeness).*1 = node_closeness.*1
  /\ (forall k, od_get (node_sizes node_closeness) k
                = (fun v => (v * 8)%Q) <$> od_get node_closeness k).
Proof.
  intros Hnd.
  assert (Heq : node_sizes node_closeness
                = (fun iv : string * Q => (iv.1, (iv.2 * 8)%Q)) <$> node_closeness).
  { unfold node_sizes. by apply (node_sizes_fold [] node_closeness). }
  split; [exact Heq|]. rewrite Heq. split.
  - apply (od_keys_fmap (fun _ v => (v * 8)%Q)).
  - intros k. apply (od_get_fmap (fun _ v => (v * 8)%Q)).
Qed.

Lemma node_sizes_eightfold_witness :
  node_sizes [("cat", (1 # 2)%Q); ("dog", 1%Q)]
  = [("cat", ((1 # 2) * 8)%Q); ("dog", (1 * 8)%Q)].
Proof.
  destruct (node_sizes_eightfold [("cat", (1 # 2)%Q); ("dog", 1%Q)]) as [Heq _].
  - by_compute.
  - exact Heq.
Defined.
